(** * Bluge: the top-N collector, the multi-reader search and the index
    configuration builders

    A shallow embedding of

    - [search/collector/topn.go]: [TopNCollector], its store selection, the
      compare-and-store stage, finalisation, and [Collect] with one task per
      match;
    - [multisearch.go]: [MultiSearcherList] and [MultiSearch];
    - [index/config.go]: the [Config] builders.

    Go [int] and [int64] are 64-bit two's complement integers, modelled in [Z]
    with the wrap-around written out.  Goroutines are modelled by an
    interleaving semantics: a run is a list of events, each one atomic step of
    one goroutine, and the theorems quantify over all runs. *)

From Stdlib Require Import ZArith List Lia ZifyNat Permutation Sorting.
From Stdlib.Strings Require Import Byte.
From stdpp Require Import base option list sorting gmap strings.

Local Open Scope Z_scope.

(** ** Go integers *)

Definition int_min : Z := - 2 ^ 63.
Definition int_max : Z := 2 ^ 63 - 1.

(** The value of a 64-bit signed computation whose exact result is [z]. *)
Definition int_wrap (z : Z) : Z := (z + 2 ^ 63) `mod` 2 ^ 64 - 2 ^ 63.

Definition int_add (a b : Z) : Z := int_wrap (a + b).

(** ** Errors *)

(** [Canceled] is [ctx.Err()] of a cancelled context; [MultiError] is the
    aggregate that [multierror.Group.Wait] returns. *)
#[local] Set Warnings "-register-all".
Inductive error : Type :=
  | Canceled
  | Failure (msg : string)
  | MultiError (errs : list error).
#[local] Set Warnings "+register-all".

Fixpoint is_cancellation (e : error) : bool :=
  match e with
  | Canceled => true
  | Failure _ => false
  | MultiError errs => existsb is_cancellation errs
  end.

(** * Package search *)

Module search.

(** The part of [search.DocumentMatch] that the collector reads and writes. *)
Record DocumentMatch : Type := mkDocumentMatch {
  Number : Z;
  SortValue : list (list byte);
  HitNumber : Z;
  Err : option error;
}.

Abbreviation DocumentMatchCollection := (list DocumentMatch).

Definition set_HitNumber (n : Z) (d : DocumentMatch) : DocumentMatch :=
  mkDocumentMatch (Number d) (SortValue d) n (Err d).

Definition set_SortValue (v : list (list byte)) (d : DocumentMatch)
  : DocumentMatch :=
  mkDocumentMatch (Number d) v (HitNumber d) (Err d).

Definition set_Err (e : option error) (d : DocumentMatch) : DocumentMatch :=
  mkDocumentMatch (Number d) (SortValue d) (HitNumber d) e.

(** One term of a sort order: the field it reads and its direction. *)
Record SortTerm : Type := mkSortTerm {
  Field : string;
  Desc : bool;
}.

Definition SortOrder : Type := list SortTerm.

Definition Fields (o : SortOrder) : list string := Field <$> o.

(** [bytes.Compare] of the Go standard library: lexicographic, a proper
    prefix sorting first; the result is -1, 0 or 1. *)
Fixpoint bytesCompare (a b : list byte) : Z :=
  match a, b with
  | [], [] => 0
  | [], _ :: _ => -1
  | _ :: _, [] => 1
  | x :: a', y :: b' =>
      if (Byte.to_N x <? Byte.to_N y)%N then -1
      else if (Byte.to_N y <? Byte.to_N x)%N then 1
      else bytesCompare a' b'
  end.

(** Modelled from the spec: [SortOrder.Compare] is declared in
    [search/sort.go], which is not part of the sources at hand.  The spec
    orders matches "under [sort], with ties broken by ascending hit number",
    over "the match's sort key vector" that holds one key per sort term; a
    descending term (written ["-rank"]) inverts the comparison of its key.
    [x] is the index of the sort term under comparison.  A key vector that is
    shorter than the sort order (an index out of range in Go) reads as the
    empty key. *)
Fixpoint compareFrom (o : SortOrder) (x : nat) (i j : DocumentMatch) : Z :=
  match o with
  | [] =>
      if decide (HitNumber i = HitNumber j) then 0
      else if decide (HitNumber i > HitNumber j) then 1
      else -1
  | t :: o' =>
      let iVal := SortValue i !!! x in
      let jVal := SortValue j !!! x in
      let c := bytesCompare iVal jVal in
      if decide (c = 0) then compareFrom o' (S x) i j
      else if Desc t then - c else c
  end.

Definition Compare (o : SortOrder) (i j : DocumentMatch) : Z :=
  compareFrom o 0 i j.

(** The comparison of the sort keys alone: [Compare] with the hit numbers
    made equal. *)
Definition compareKeys (o : SortOrder) (i j : DocumentMatch) : Z :=
  Compare o i (set_HitNumber (HitNumber i) j).

End search.

Import search.

(** ** The collaborators outside the collector

    Aggregations, the loading of document values and the evaluation of the
    sort terms live in other packages.  The collector only calls them, so they
    are taken as an interface, and every theorem holds for each of its
    implementations. *)
Class Externals : Type := {
  Aggregations : Type;
  Bucket : Type;
  (** [aggs.Fields()] *)
  aggsFields : Aggregations → list string;
  (** [search.NewBucket(name, aggs)] *)
  NewBucket : string → Aggregations → Bucket;
  (** [bucket.Consume(d)] *)
  Consume : Bucket → DocumentMatch → Bucket;
  (** [bucket.Finish()] *)
  Finish : Bucket → Bucket;
  (** [d.LoadDocumentValues(ctx, fields)] *)
  LoadDocumentValues : DocumentMatch → list string → option error;
  (** [sort.Compute(d)]: the sort key vector of [d] *)
  Compute : SortOrder → DocumentMatch → list (list byte);
}.

(** [search.Context]: the pool that matches are handed back to. *)
Record Context : Type := mkContext {
  DocumentMatchPool : list DocumentMatch;
}.

Definition NewSearchContext : Context := mkContext [].

Definition Put (ctx : Context) (d : DocumentMatch) : Context :=
  mkContext (d :: DocumentMatchPool ctx).

(** [search.Collectible], the searcher that [Collect] pulls from: a finite
    stream of matches that ends with [nil], or with an error. *)
Record Collectible : Type := mkCollectible {
  pending : list DocumentMatch;
  failure : option error;
}.

Definition Next (s : Collectible)
  : option DocumentMatch * option error * Collectible :=
  match pending s with
  | d :: rest => (Some d, None, mkCollectible rest (failure s))
  | [] => (None, failure s, s)
  end.

(** * Package collector *)

Module collector.

Definition collectorCompare : Type := DocumentMatch → DocumentMatch → Z.

Definition collectorFixup : Type := DocumentMatch → option error.

(** ** The stores

    Modelled from the spec: [newStoreSlice], [newStoreHeap] and the methods of
    the two stores are in [store_slice.go] and [store_heap.go], which are not
    part of the sources at hand.  The sources declare the interface, "Add the
    document, and if the new store size exceeds the provided size the last
    element is removed and returned.  If the size has not been exceeded, nil
    is returned", and the spec describes "an ordered vector with linear
    insertion" and "a max-heap (where max = worst under sort order)", from
    which "on overflow, the worst element is evicted and returned". *)

(** The ordered vector. *)
Record collectStoreSlice : Type := mkStoreSlice {
  slice : DocumentMatchCollection;
  slice_capacity : Z;
  slice_compare : collectorCompare;
}.

Definition newStoreSlice (capacity : Z) (compare : collectorCompare)
  : collectStoreSlice :=
  mkStoreSlice [] capacity compare.

(** The index at which [doc] goes in: the scan starts at the end (the worst
    entry) and stops at the first entry that [doc] does not sort before. *)
Fixpoint slice_scan (compare : collectorCompare) (doc : DocumentMatch)
    (s : DocumentMatchCollection) (i : nat) : nat :=
  match i with
  | O => O
  | S i' =>
      match s !! i' with
      | Some e => if decide (compare doc e >= 0) then i
                  else slice_scan compare doc s i'
      | None => i
      end
  end.

Definition slice_add (c : collectStoreSlice) (doc : DocumentMatch)
  : collectStoreSlice :=
  let i := slice_scan (slice_compare c) doc (slice c) (length (slice c)) in
  mkStoreSlice (take i (slice c) ++ doc :: drop i (slice c))
    (slice_capacity c) (slice_compare c).

Definition slice_removeLast (c : collectStoreSlice)
  : collectStoreSlice * option DocumentMatch :=
  (mkStoreSlice (take (length (slice c) - 1)%nat (slice c))
     (slice_capacity c) (slice_compare c),
   last (slice c)).

Definition slice_AddNotExceedingSize (c : collectStoreSlice)
    (doc : DocumentMatch) (size : Z)
  : collectStoreSlice * option DocumentMatch :=
  let c' := slice_add c doc in
  if decide (Z.of_nat (length (slice c')) > size) then slice_removeLast c'
  else (c', None).

(** The first error that [fixup] reports on the entries of [l], in order. *)
Fixpoint fixup_all (fixup : collectorFixup) (l : DocumentMatchCollection)
  : option error :=
  match l with
  | [] => None
  | d :: l' =>
      match fixup d with
      | Some e => Some e
      | None => fixup_all fixup l'
      end
  end.

Definition slice_Final (c : collectStoreSlice) (skip : Z)
    (fixup : collectorFixup) : DocumentMatchCollection * option error :=
  let kept := drop (Z.to_nat skip) (slice c) in
  match fixup_all fixup kept with
  | Some e => ([], Some e)
  | None => (kept, None)
  end.

(** The max-heap: a binary heap laid out in a vector, the children of the
    entry at [i] at [2i+1] and [2i+2], with the worst entry at the root. *)
Record collectStoreHeap : Type := mkStoreHeap {
  heap : DocumentMatchCollection;
  heap_capacity : Z;
  heap_compare : collectorCompare;
}.

Definition newStoreHeap (capacity : Z) (compare : collectorCompare)
  : collectStoreHeap :=
  mkStoreHeap [] capacity compare.

(** The entry at [i] goes above the entry at [j] when it sorts after it. *)
Definition heap_Less (compare : collectorCompare)
    (h : DocumentMatchCollection) (i j : nat) : bool :=
  match h !! i, h !! j with
  | Some a, Some b => bool_decide (- compare a b < 0)
  | _, _ => false
  end.

Definition heap_Swap (h : DocumentMatchCollection) (i j : nat)
  : DocumentMatchCollection :=
  match h !! i, h !! j with
  | Some a, Some b => <[i:=b]> (<[j:=a]> h)
  | _, _ => h
  end.

(** Sift the entry at [j] up; every round moves it to its parent, so [j]
    rounds are enough. *)
Fixpoint heap_up (rounds : nat) (compare : collectorCompare)
    (h : DocumentMatchCollection) (j : nat) : DocumentMatchCollection :=
  match rounds with
  | O => h
  | S rounds' =>
      let i := ((j - 1) / 2)%nat in
      if decide (i = j) then h
      else if negb (heap_Less compare h j i) then h
      else heap_up rounds' compare (heap_Swap h i j) i
  end.

(** Sift the entry at [i] down within the first [n] entries. *)
Fixpoint heap_down (rounds : nat) (compare : collectorCompare)
    (h : DocumentMatchCollection) (i n : nat) : DocumentMatchCollection :=
  match rounds with
  | O => h
  | S rounds' =>
      let j1 := (2 * i + 1)%nat in
      if decide (n ≤ j1)%nat then h
      else
        let j2 := (j1 + 1)%nat in
        let j := if decide (j2 < n)%nat
                 then (if heap_Less compare h j2 j1 then j2 else j1)
                 else j1 in
        if negb (heap_Less compare h j i) then h
        else heap_down rounds' compare (heap_Swap h i j) j n
  end.

Definition heap_Push (compare : collectorCompare)
    (h : DocumentMatchCollection) (doc : DocumentMatch)
  : DocumentMatchCollection :=
  let h' := h ++ [doc] in
  heap_up (length h') compare h' (length h' - 1)%nat.

Definition heap_Pop (compare : collectorCompare)
    (h : DocumentMatchCollection)
  : DocumentMatchCollection * option DocumentMatch :=
  let n := (length h - 1)%nat in
  let h1 := heap_Swap h 0 n in
  let h2 := heap_down n compare h1 0 n in
  (take n h2, h2 !! n).

Definition heap_AddNotExceedingSize (c : collectStoreHeap)
    (doc : DocumentMatch) (size : Z)
  : collectStoreHeap * option DocumentMatch :=
  let h := heap_Push (heap_compare c) (heap c) doc in
  if decide (Z.of_nat (length h) > size) then
    let '(h', removed) := heap_Pop (heap_compare c) h in
    (mkStoreHeap h' (heap_capacity c) (heap_compare c), removed)
  else (mkStoreHeap h (heap_capacity c) (heap_compare c), None).

(** Pop [n] entries, the worst first, and lay them out from the end of the
    result: [acc] is the part already laid out. *)
Fixpoint heap_drain (n : nat) (compare : collectorCompare)
    (h : DocumentMatchCollection) (acc : DocumentMatchCollection)
  : DocumentMatchCollection :=
  match n with
  | O => acc
  | S n' =>
      match heap_Pop compare h with
      | (h', Some doc) => heap_drain n' compare h' (doc :: acc)
      | (_, None) => acc
      end
  end.

Definition heap_Final (c : collectStoreHeap) (skip : Z)
    (fixup : collectorFixup) : DocumentMatchCollection * option error :=
  let count := Z.of_nat (length (heap c)) in
  let size := count - skip in
  if decide (size <= 0) then ([], None)
  else
    let rv := heap_drain (Z.to_nat size) (heap_compare c) (heap c) [] in
    match fixup_all fixup (rev rv) with
    | Some e => ([], Some e)
    | None => (rv, None)
    end.

(** The interface [collectorStore] and its two implementations. *)
Class collectorStore (S : Type) : Type := {
  AddNotExceedingSize : S → DocumentMatch → Z → S * option DocumentMatch;
  Final : S → Z → collectorFixup → DocumentMatchCollection * option error;
}.

#[export] Instance collectStoreSlice_store : collectorStore collectStoreSlice :=
  {| AddNotExceedingSize := slice_AddNotExceedingSize;
     Final := slice_Final |}.

#[export] Instance collectStoreHeap_store : collectorStore collectStoreHeap :=
  {| AddNotExceedingSize := heap_AddNotExceedingSize;
     Final := heap_Final |}.

(** The value of an interface variable: one of the implementations. *)
Inductive store_value : Type :=
  | SliceStore (c : collectStoreSlice)
  | HeapStore (c : collectStoreHeap).

#[export] Instance store_value_store : collectorStore store_value :=
  {| AddNotExceedingSize s doc size :=
       match s with
       | SliceStore c =>
           let '(c', r) := AddNotExceedingSize c doc size in (SliceStore c', r)
       | HeapStore c =>
           let '(c', r) := AddNotExceedingSize c doc size in (HeapStore c', r)
       end;
     Final s skip fixup :=
       match s with
       | SliceStore c => Final c skip fixup
       | HeapStore c => Final c skip fixup
       end |}.

Definition store_capacity (s : store_value) : Z :=
  match s with
  | SliceStore c => slice_capacity c
  | HeapStore c => heap_capacity c
  end.

Definition store_entries (s : store_value) : DocumentMatchCollection :=
  match s with
  | SliceStore c => slice c
  | HeapStore c => heap c
  end.

(** ** The collector *)

(** [PreAllocSizeSkipCap] will cap preallocation to this amount when
    size+skip exceeds this value. *)
Definition PreAllocSizeSkipCap : Z := 1000.

(** [CheckDoneEvery] controls how frequently we check the context deadline. *)
Definition CheckDoneEvery : Z := 1024.

Definition switchFromSliceToHeap : Z := 10.

(** [TopNCollector] collects the top N hits, optionally skipping some
    results.  The four pipelines and [closePipelines] are channels; what they
    carry is in the position of each task of a run, below. *)
Record TopNCollector : Type := mkTopNCollector {
  size : Z;
  skip : Z;
  sort : SortOrder;
  results : DocumentMatchCollection;
  reverse : bool;
  backingSize : Z;
  store : store_value;
  neededFields : list string;
  lowestMatchOutsideResults : option DocumentMatch;
  searchAfter : option DocumentMatch;
}.

Definition set_results (v : DocumentMatchCollection) (hc : TopNCollector) :=
  mkTopNCollector (size hc) (skip hc) (sort hc) v (reverse hc)
    (backingSize hc) (store hc) (neededFields hc)
    (lowestMatchOutsideResults hc) (searchAfter hc).

Definition set_store (v : store_value) (hc : TopNCollector) :=
  mkTopNCollector (size hc) (skip hc) (sort hc) (results hc) (reverse hc)
    (backingSize hc) v (neededFields hc)
    (lowestMatchOutsideResults hc) (searchAfter hc).

Definition set_neededFields (v : list string) (hc : TopNCollector) :=
  mkTopNCollector (size hc) (skip hc) (sort hc) (results hc) (reverse hc)
    (backingSize hc) (store hc) v
    (lowestMatchOutsideResults hc) (searchAfter hc).

Definition set_lowestMatchOutsideResults (v : option DocumentMatch)
    (hc : TopNCollector) :=
  mkTopNCollector (size hc) (skip hc) (sort hc) (results hc) (reverse hc)
    (backingSize hc) (store hc) (neededFields hc) v (searchAfter hc).

Definition set_searchAfter (v : option DocumentMatch) (hc : TopNCollector) :=
  mkTopNCollector (size hc) (skip hc) (sort hc) (results hc) (reverse hc)
    (backingSize hc) (store hc) (neededFields hc)
    (lowestMatchOutsideResults hc) v.

Definition newTopNCollector (size skip : Z) (sort : SortOrder)
    (reverse : bool) : TopNCollector :=
  (* pre-allocate space on the store to avoid reslicing
     unless the size + skip is too large, then cap it *)
  let backingSize :=
    if decide (int_add size skip > PreAllocSizeSkipCap)
    then int_add PreAllocSizeSkipCap 1
    else int_add (int_add size skip) 1 in
  let store :=
    if decide (int_add size skip > switchFromSliceToHeap)
    then HeapStore (newStoreHeap backingSize (Compare sort))
    else SliceStore (newStoreSlice backingSize (Compare sort)) in
  mkTopNCollector size skip sort [] reverse backingSize store
    (Fields sort) None None.

(** [NewTopNCollector] builds a collector to find the top 'size' hits
    skipping over the first 'skip' hits ordering hits by the provided sort
    order. *)
Definition NewTopNCollector (size skip : Z) (sort : SortOrder)
  : TopNCollector :=
  newTopNCollector size skip sort false.

Definition NewTopNCollectorAfter (size : Z) (sort : SortOrder)
    (after : list (list byte)) (reverse : bool) : TopNCollector :=
  let rv := newTopNCollector size 0 sort reverse in
  set_searchAfter (Some (mkDocumentMatch 0 after 0 None)) rv.

Definition BackingSize (hc : TopNCollector) : Z := backingSize hc.

Section collect.
Context {ext : Externals}.

(** [TopNIterator], as [Collect] builds it. *)
Record TopNIterator : Type := mkTopNIterator {
  it_results : DocumentMatchCollection;
  it_bucket : Bucket;
  it_index : Z;
  it_err : option error;
}.

(** [finalizeResults] starts with the heap containing the final top size+skip
    it now throws away the results to be skipped. *)
Definition finalizeResults (hc : TopNCollector)
  : TopNCollector * option error :=
  let '(res, err) := Final (store hc) (skip hc) (λ _, None) in
  let res' := if reverse hc then rev res else res in
  (set_results res' hc, err).

(** *** The pipeline stages

    Each stage is one goroutine that serves one match at a time; these are
    the bodies of their loops.  A stage that meets a match with [Err] set
    goes on to its next match without signalling [PipelineFinished]: its
    result is [None], and the task that sent the match waits for ever. *)

Definition loadDocValuesStep (hc : TopNCollector) (d : DocumentMatch)
  : DocumentMatch :=
  if decide (Z.of_nat (length (neededFields hc)) > 0)
  then set_Err (LoadDocumentValues d (neededFields hc)) d
  else d.

Definition sortStep (hc : TopNCollector) (d : DocumentMatch)
  : option DocumentMatch :=
  match Err d with
  | Some _ => None
  | None => Some (set_SortValue (Compute (sort hc) d) d)
  end.

Definition consumeStep (bucket : Bucket) (d : DocumentMatch)
  : option Bucket :=
  match Err d with
  | Some _ => None
  | None => Some (Consume bucket d)
  end.

(** The search-after test of the compare stage, on the collector in which
    [searchAfter] already carries the hit number of [d]. *)
Definition searchAfterSkips (hc : TopNCollector) (d : DocumentMatch) : bool :=
  match searchAfter hc with
  | Some after => bool_decide (Compare (sort hc) d after <= 0)
  | None => false
  end.

(** The test of the optimization: [d] cannot possibly be in the result
    set. *)
Definition lowestOutsideDrops (hc : TopNCollector) (d : DocumentMatch)
  : bool :=
  match lowestMatchOutsideResults hc with
  | Some lowest => bool_decide (Compare (sort hc) d lowest >= 0)
  | None => false
  end.

Definition compareStep (hc : TopNCollector) (ctx : Context)
    (d : DocumentMatch) : option (TopNCollector * Context) :=
  match Err d with
  | Some _ => None
  | None =>
      (* exact sort order matches use hit number to break tie
         but we want to allow for exact match, so we pretend *)
      let hc :=
        match searchAfter hc with
        | Some after =>
            set_searchAfter (Some (set_HitNumber (HitNumber d) after)) hc
        | None => hc
        end in
      if searchAfterSkips hc d then Some (hc, ctx)
      else if lowestOutsideDrops hc d then
        (* this hit can't possibly be in the result set, so avoid heap ops *)
        Some (hc, Put ctx d)
      else
        let '(store', removed) :=
          AddNotExceedingSize (store hc) d (int_add (size hc) (skip hc)) in
        let hc := set_store store' hc in
        match removed with
        | None => Some (hc, ctx)
        | Some removed =>
            match lowestMatchOutsideResults hc with
            | None =>
                Some (set_lowestMatchOutsideResults (Some removed) hc, ctx)
            | Some tmp =>
                if decide (Compare (sort hc) removed tmp < 0)
                then Some (set_lowestMatchOutsideResults (Some removed) hc,
                           Put ctx tmp)
                else Some (hc, ctx)
            end
        end
  end.

(** *** [Collect]: one task per match

    [Collect] starts one goroutine per match ([errs.Go]); the goroutine reads
    the hit counter and polls the context, takes its hit number, and hands the
    match to the four stages in turn ([collectSingle]).  A task is the match
    and the position of its goroutine. *)
Inductive position : Type :=
  | atCheckDone
  | atHitNumber
  | atLoadDocValues
  | atSort
  | atConsume
  | atCompare
  | returned (e : option error)
  | waiting.

Record task : Type := mkTask {
  doc : DocumentMatch;
  pos : position;
}.

(** The variables of [Collect], the tasks it has started, and whether
    [ctx.Done()] is closed. *)
Record run : Type := mkRun {
  hc : TopNCollector;
  searchContext : Context;
  bucket : Bucket;
  hitNumber : Z;
  searcher : Collectible;
  next : option DocumentMatch;
  err : option error;
  tasks : list task;
  errs : list error;
  done : bool;
}.

(** Task [i] goes on to position [p] with its match now [d]. *)
Definition move (i : nat) (d : DocumentMatch) (p : position) (r : run)
  : run :=
  mkRun (hc r) (searchContext r) (bucket r) (hitNumber r) (searcher r)
    (next r) (err r) (<[i := mkTask d p]> (tasks r)) (errs r) (done r).

(** Task [i] returns [e]; the group collects the errors. *)
Definition finish (i : nat) (d : DocumentMatch) (e : option error) (r : run)
  : run :=
  mkRun (hc r) (searchContext r) (bucket r) (hitNumber r) (searcher r)
    (next r) (err r) (<[i := mkTask d (returned e)]> (tasks r))
    (errs r ++ option_list e) (done r).

Definition set_hitNumber (n : Z) (r : run) : run :=
  mkRun (hc r) (searchContext r) (bucket r) n (searcher r)
    (next r) (err r) (tasks r) (errs r) (done r).

Definition set_bucket (b : Bucket) (r : run) : run :=
  mkRun (hc r) (searchContext r) b (hitNumber r) (searcher r)
    (next r) (err r) (tasks r) (errs r) (done r).

Definition set_collector (c : TopNCollector) (ctx : Context) (r : run)
  : run :=
  mkRun c ctx (bucket r) (hitNumber r) (searcher r)
    (next r) (err r) (tasks r) (errs r) (done r).

(** Does task [i] poll the context in its next step? *)
Definition polls (i : nat) (r : run) : bool :=
  match tasks r !! i with
  | Some (mkTask _ atCheckDone) =>
      bool_decide (Z.rem (hitNumber r) CheckDoneEvery = 0)
  | _ => false
  end.

(** One iteration of the loop of [Collect]: start the task of [next] and ask
    the searcher for the match after it. *)
Definition spawn (r : run) : run :=
  match err r, next r with
  | None, Some n =>
      let '(next', err', searcher') := Next (searcher r) in
      mkRun (hc r) (searchContext r) (bucket r) (hitNumber r) searcher'
        next' err' (tasks r ++ [mkTask n atCheckDone]) (errs r) (done r)
  | _, _ => r
  end.

(** The next step of task [i]. *)
Definition advance (i : nat) (r : run) : run :=
  match tasks r !! i with
  | None => r
  | Some (mkTask d p) =>
      match p with
      | atCheckDone =>
          if polls i r && done r then finish i d (Some Canceled) r
          else move i d atHitNumber r
      | atHitNumber =>
          let n := int_add (hitNumber r) 1 in
          set_hitNumber n (move i (set_HitNumber n d) atLoadDocValues r)
      | atLoadDocValues =>
          let d := loadDocValuesStep (hc r) d in
          match Err d with
          | Some e => finish i d (Some e) r
          | None => move i d atSort r
          end
      | atSort =>
          match sortStep (hc r) d with
          | Some d => move i d atConsume r
          | None => move i d waiting r
          end
      | atConsume =>
          match consumeStep (bucket r) d with
          | Some b => set_bucket b (move i d atCompare r)
          | None => move i d waiting r
          end
      | atCompare =>
          match compareStep (hc r) (searchContext r) d with
          | Some (c, ctx) => set_collector c ctx (finish i d None r)
          | None => move i d waiting r
          end
      | returned _ | waiting => r
      end
  end.

(** The events of a run: the context is cancelled from outside, the loop of
    [Collect] makes an iteration, or a task makes a step.  An event that
    cannot happen leaves the run as it is. *)
Inductive event : Type :=
  | Cancel
  | Spawn
  | Advance (i : nat).

Definition step (e : event) (r : run) : run :=
  match e with
  | Cancel =>
      mkRun (hc r) (searchContext r) (bucket r) (hitNumber r) (searcher r)
        (next r) (err r) (tasks r) (errs r) true
  | Spawn => spawn r
  | Advance i => advance i r
  end.

Definition exec (sched : list event) (r : run) : run :=
  fold_left (λ r e, step e r) sched r.

(** The tasks that poll the context during a run, in the order of their
    polls. *)
Fixpoint polled (sched : list event) (r : run) : list nat :=
  match sched with
  | [] => []
  | e :: sched' =>
      match e with
      | Advance i => if polls i r then [i] else []
      | _ => []
      end ++ polled sched' (step e r)
  end.

Definition has_returned (t : task) : bool :=
  match pos t with
  | returned _ => true
  | _ => false
  end.

(** [Collect] up to its first [searcher.Next]. *)
Definition start (c : TopNCollector) (aggs : Aggregations)
    (s : Collectible) : run :=
  (* add fields needed by aggregations *)
  let fields := neededFields c ++ aggsFields aggs in
  (* filter repeat field *)
  let fields :=
    if decide (Z.of_nat (length fields) > 1)
    then elements (list_to_set fields : gset string)
    else fields in
  let '(next, err, s') := Next s in
  mkRun (set_neededFields fields c) NewSearchContext (NewBucket "" aggs) 0
    s' next err [] [] false.

(** What [Collect] returns once its loop has ended: the error of the
    searcher at once; otherwise, when all tasks have returned, their errors,
    or the iterator over the final results.  [None]: [Collect] has not
    returned. *)
Definition collectResult (r : run)
  : option (option TopNIterator * option error) :=
  match err r, next r with
  | Some e, _ => Some (None, Some e)
  | None, Some _ => None
  | None, None =>
      if forallb has_returned (tasks r) then
        match errs r with
        | _ :: _ => Some (None, Some (MultiError (errs r)))
        | [] =>
            let bucket := Finish (bucket r) in
            let '(c, err) := finalizeResults (hc r) in
            match err with
            | Some e => Some (None, Some e)
            | None => Some (Some (mkTopNIterator (results c) bucket 0 None),
                            None)
            end
        end
      else None
  end.

(** [Collect] goes to the index to find the matching documents.
    [cancelled] tells whether the context is done on entry; [sched] is the
    order in which the goroutines take their steps. *)
Definition Collect (sched : list event) (cancelled : bool)
    (c : TopNCollector) (aggs : Aggregations) (s : Collectible)
  : option (option TopNIterator * option error) :=
  if cancelled then Some (None, Some Canceled)
  else collectResult (exec sched (start c aggs s)).

(** The run in which every task returns before the next one starts. *)
Definition sequential (n : nat) : list event :=
  flat_map (λ i, Spawn :: replicate 6 (Advance i)) (seq 0 n).

(** The tasks [k], ..., [k + n - 1] make one step each, as they are
    started. *)
Definition abandoned (k n : nat) : list event :=
  flat_map (λ i, [Spawn; Advance i]) (seq k n).

End collect.

End collector.

(** * Package bluge: the search over several readers *)

Module bluge.

Section multisearch.
Context {ext : Externals}.

(** [search.Searcher], as the list uses it: the stream of its matches and
    [DocumentMatchPoolSize()]. *)
Record Searcher : Type := mkSearcher {
  matches : Collectible;
  poolSize : Z;
}.

(** [collector.CollectorConfig] *)
Record CollectorConfig : Type := mkCollectorConfig {
  BackingSize : Z;
  NeededFields : list string;
  Sort : SortOrder;
}.

(** A buffered channel of matches. *)
Record chan : Type := mkChan {
  buffer : list DocumentMatch;
  cap : nat;
  closed : bool;
}.

Definition make (n : nat) : chan := mkChan [] n false.

(** [c <- dm]; [None]: the send blocks. *)
Definition send (c : chan) (dm : DocumentMatch) : option chan :=
  if decide (length (buffer c) < cap c)%nat
  then Some (mkChan (buffer c ++ [dm]) (cap c) (closed c))
  else None.

(** [<-c]; [None]: the receive blocks.  A closed channel hands out what is
    left in its buffer and then [nil]. *)
Definition recv (c : chan) : option (option DocumentMatch * chan) :=
  match buffer c with
  | dm :: rest => Some (Some dm, mkChan rest (cap c) (closed c))
  | [] => if closed c then Some (None, c) else None
  end.

Definition close (c : chan) : chan := mkChan (buffer c) (cap c) true.

Record MultiSearcherList : Type := mkMultiSearcherList {
  searchers : list Searcher;
  docChan : chan;
}.

Definition DocumentMatchPoolSize (m : MultiSearcherList) : Z :=
  (* we search sequentially, so just use largest *)
  fold_left
    (λ rv searcher,
       let ps := poolSize searcher in
       if decide (ps > rv) then ps else rv)
    (searchers m) 0.

(** The [size] that [collectAllDocuments] computes for the search contexts
    of its goroutines; [None]: the division by [len(m.searchers)] panics. *)
Definition contextSize (cc : CollectorConfig) (m : MultiSearcherList)
  : option Z :=
  match searchers m with
  | [] => None
  | _ :: _ =>
      let size :=
        Z.quot (int_add (BackingSize cc) (DocumentMatchPoolSize m))
          (Z.of_nat (length (searchers m))) in
      Some (int_add size 100)
  end.

(** The goroutine that [collectAllDocuments] starts for a searcher: about to
    call [s.Next(ctx)], at [m.docChan <- dm], or returned. *)
Inductive goroutine : Type :=
  | atNext (s : Collectible)
  | atSend (s : Collectible) (dm : DocumentMatch)
  | exited (e : option error).

(** From [s.Next(ctx)] up to the send. *)
Definition fetch (cc : CollectorConfig) (s : Collectible) : goroutine :=
  match Next s with
  | (Some dm, None, s') =>
      if decide (Z.of_nat (length (NeededFields cc)) > 0) then
        match LoadDocumentValues dm (NeededFields cc) with
        | Some e => exited (Some e)
        | None => atSend s' dm
        end
      else atSend s' dm
  | (_, e, _) => exited e
  end.

(** The limit of the group of [collectAllDocuments]. *)
Definition limit : nat := 1000.

(** The list at work: the loop index [i] of [collectAllDocuments], the
    goroutines of its group and the first error among them, what has been
    logged, and what [Next] has returned so far. *)
Record collecting : Type := mkCollecting {
  m : MultiSearcherList;
  cc : CollectorConfig;
  i : nat;
  goroutines : list goroutine;
  err : option error;
  logged : list error;
  delivered : list DocumentMatch;
  ended : bool;
}.

Definition is_running (g : goroutine) : bool :=
  match g with
  | exited _ => false
  | _ => true
  end.

Definition running (st : collecting) : nat :=
  length (filter (λ g, is_running g = true) (goroutines st)).

Definition set_docChan (c : chan) (st : collecting) : collecting :=
  mkCollecting (mkMultiSearcherList (searchers (m st)) c) (cc st) (i st)
    (goroutines st) (err st) (logged st) (delivered st) (ended st).

(** Goroutine [k] goes on as [g]; the group keeps the first error. *)
Definition set_goroutine (k : nat) (g : goroutine) (st : collecting)
  : collecting :=
  let err' :=
    match err st, g with
    | None, exited (Some e) => Some e
    | _, _ => err st
    end in
  mkCollecting (m st) (cc st) (i st) (<[k := g]> (goroutines st)) err'
    (logged st) (delivered st) (ended st).

(** [errs.Go] in the loop of [collectAllDocuments]; it blocks while [limit]
    goroutines of the group are running. *)
Definition go (st : collecting) : collecting :=
  match searchers (m st) !! i st with
  | Some s =>
      if decide (running st < limit)%nat
      then mkCollecting (m st) (cc st) (S (i st))
             (goroutines st ++ [atNext (matches s)]) (err st) (logged st)
             (delivered st) (ended st)
      else st
  | None => st
  end.

(** A step of goroutine [k]. *)
Definition work (k : nat) (st : collecting) : collecting :=
  match goroutines st !! k with
  | Some (atNext s) => set_goroutine k (fetch (cc st) s) st
  | Some (atSend s dm) =>
      match send (docChan (m st)) dm with
      | Some c => set_docChan c (set_goroutine k (atNext s) st)
      | None => st
      end
  | _ => st
  end.

(** The end of [collectAllDocuments]: once every goroutine has returned,
    [errs.Wait()] returns the first error, which is logged, and the channel
    is closed. *)
Definition wait (st : collecting) : collecting :=
  if decide (i st = length (searchers (m st)) ∧ running st = 0%nat
             ∧ closed (docChan (m st)) = false)
  then mkCollecting (mkMultiSearcherList (searchers (m st))
                       (close (docChan (m st))))
         (cc st) (i st) (goroutines st) (err st)
         (logged st ++ option_list (err st)) (delivered st) (ended st)
  else st.

(** [Next] returns what it receives from the channel, and no error.
    [None]: the receive blocks. *)
Definition Next (m : MultiSearcherList)
  : option (option DocumentMatch * option error * MultiSearcherList) :=
  match recv (docChan m) with
  | Some (dm, c) => Some (dm, None, mkMultiSearcherList (searchers m) c)
  | None => None
  end.

(** A call of [Next] by the collector, which stops calling at the first
    [nil]. *)
Definition callNext (st : collecting) : collecting :=
  if ended st then st
  else
    match Next (m st) with
    | Some (Some dm, _, m') =>
        mkCollecting m' (cc st) (i st) (goroutines st) (err st) (logged st)
          (delivered st ++ [dm]) (ended st)
    | Some (None, _, m') =>
        mkCollecting m' (cc st) (i st) (goroutines st) (err st) (logged st)
          (delivered st) true
    | None => st
    end.

(** The events of a run of the list.  An event that cannot happen leaves the
    state as it is. *)
Inductive event : Type :=
  | Go
  | Work (k : nat)
  | Wait
  | CallNext.

Definition step (e : event) (st : collecting) : collecting :=
  match e with
  | Go => go st
  | Work k => work k st
  | Wait => wait st
  | CallNext => callNext st
  end.

Definition exec (sched : list event) (st : collecting) : collecting :=
  fold_left (λ st e, step e st) sched st.

(** [NewMultiSearcherList] makes the channel and starts
    [collectAllDocuments]; [None]: that goroutine panics. *)
Definition NewMultiSearcherList (searchers : list Searcher)
    (cc : CollectorConfig) : option collecting :=
  let m := mkMultiSearcherList searchers (make (length searchers * 2)) in
  match contextSize cc m with
  | None => None
  | Some _ => Some (mkCollecting m cc 0 [] None [] [] false)
  end.

(** What the collector has seen of the list when [Next] has returned [nil]:
    a stream of matches that ends without an error. *)
Definition stream (st : collecting) : option Collectible :=
  if ended st then Some (mkCollectible (delivered st) None) else None.

(** [SearchRequest], as [MultiSearch] uses it. *)
Record SearchRequest (Reader : Type) : Type := mkSearchRequest {
  (** [req.Searcher(reader.reader, reader.config)] *)
  reqSearcher : Reader → Searcher + error;
  (** [req.Aggregations()] *)
  reqAggregations : Aggregations;
  (** [req.CollectorConfig(aggs)] *)
  reqCollectorConfig : Aggregations → CollectorConfig;
  (** [req.Collector(true)] *)
  reqCollector : bool → collector.TopNCollector;
}.

Arguments reqSearcher {Reader}.
Arguments reqAggregations {Reader}.
Arguments reqCollectorConfig {Reader}.
Arguments reqCollector {Reader}.

(** The first loop of [MultiSearch]: a searcher for every reader, or the
    first error. *)
Fixpoint newSearchers {Reader : Type} (req : SearchRequest Reader)
    (readers : list Reader) : list Searcher + error :=
  match readers with
  | [] => inl []
  | reader :: readers =>
      match reqSearcher req reader with
      | inr e => inr e
      | inl searcher =>
          match newSearchers req readers with
          | inr e => inr e
          | inl searchers => inl (searcher :: searchers)
          end
      end
  end.

(** [MultiSearch].  [gs] is the run of the list and its goroutines, [cs] the
    run of the collector, which sees of the list the results of [Next].
    [None]: [MultiSearch] does not return. *)
Definition MultiSearch {Reader : Type} (gs : list event)
    (cs : list collector.event) (cancelled : bool)
    (req : SearchRequest Reader) (readers : list Reader)
  : option (option collector.TopNIterator * option error) :=
  match newSearchers req readers with
  | inr e => Some (None, Some e)
  | inl searchers =>
      let aggs := reqAggregations req in
      match NewMultiSearcherList searchers (reqCollectorConfig req aggs) with
      | None => None
      | Some msl =>
          let collector := reqCollector req true in
          if cancelled
          then collector.Collect cs true collector aggs
                 (mkCollectible [] None)
          else
            match stream (exec gs msl) with
            | Some s => collector.Collect cs false collector aggs s
            | None => None
            end
      end
  end.

End multisearch.

Arguments reqSearcher {ext Reader}.
Arguments reqAggregations {ext Reader}.
Arguments reqCollectorConfig {ext Reader}.
Arguments reqCollector {ext Reader}.

End bluge.

(** * Package index: the configuration *)

Module index.

(** The types of other packages that [Config] mentions. *)
Class Foreign : Type := {
  Event : Type;
  Options : Type;
  DeletionPolicyT : Type;
  DirectoryT : Type;
  SegmentPlugin : Type;
  float32 : Type;
  (** [segment.Field] and its [Name()] *)
  Field : Type;
  Name : Field → string;
}.

(** A map of Go is a reference: the maps live in a store, and a variable of
    a map type holds the address of one, or [nil]. *)
Abbreviation addr := positive.

Abbreviation store := (gmap addr (gmap string (list Field))).

Section config.
Context {foreign : Foreign}.

Record Config : Type := mkConfig {
  SegmentType : string;
  SegmentVersion : Z;
  supportedSegmentPlugins : option addr;
  UnsafeBatch : bool;
  EventCallback : option (Event → unit);
  AsyncError : option (error → unit);
  MergePlanOptions : Options;
  NumAnalysisWorkers : Z;
  AnalysisChan : option addr;
  GoFunc : option (unit → unit);
  DeletionPolicy : DeletionPolicyT;
  Directory : DirectoryT;
  NormCalc : option (string → Z → float32);
  MergeBufferSize : Z;
  OptimizeConjunction : bool;
  OptimizeConjunctionUnadorned : bool;
  OptimizeDisjunctionUnadorned : bool;
  OptimizeDisjunctionUnadornedMinChildCardinality : Z;
  MinSegmentsForInMemoryMerge : Z;
  PersisterNapTimeMSec : Z;
  PersisterNapUnderNumFiles : Z;
  MemoryPressurePauseThreshold : Z;
  virtualFields : option addr;
}.

(** The methods have value receivers: [config] is the copy of the receiver
    that the method works on and returns. *)
Definition WithPersisterNapTimeMSec (config : Config) (napTime : Z)
  : Config :=
  mkConfig (SegmentType config) (SegmentVersion config)
    (supportedSegmentPlugins config) (UnsafeBatch config)
    (EventCallback config) (AsyncError config) (MergePlanOptions config)
    (NumAnalysisWorkers config) (AnalysisChan config) (GoFunc config)
    (DeletionPolicy config) (Directory config) (NormCalc config)
    (MergeBufferSize config) (OptimizeConjunction config)
    (OptimizeConjunctionUnadorned config)
    (OptimizeDisjunctionUnadorned config)
    (OptimizeDisjunctionUnadornedMinChildCardinality config)
    (MinSegmentsForInMemoryMerge config) napTime
    (PersisterNapUnderNumFiles config)
    (MemoryPressurePauseThreshold config) (virtualFields config).

(** [config.virtualFields[field.Name()] =
     append(config.virtualFields[field.Name()], field)] writes to the map
    that the field refers to.  [None]: the assignment panics, the map being
    [nil]. *)
Definition WithVirtualField (config : Config) (field : Field) (h : store)
  : option (Config * store) :=
  match virtualFields config with
  | None => None
  | Some a =>
      match h !! a with
      | None => None
      | Some fields =>
          let old := default [] (fields !! Name field) in
          Some (config, <[a := <[Name field := old ++ [field]]> fields]> h)
      end
  end.

Definition WithNormCalc (config : Config)
    (calc : option (string → Z → float32)) : Config :=
  mkConfig (SegmentType config) (SegmentVersion config)
    (supportedSegmentPlugins config) (UnsafeBatch config)
    (EventCallback config) (AsyncError config) (MergePlanOptions config)
    (NumAnalysisWorkers config) (AnalysisChan config) (GoFunc config)
    (DeletionPolicy config) (Directory config) calc
    (MergeBufferSize config) (OptimizeConjunction config)
    (OptimizeConjunctionUnadorned config)
    (OptimizeDisjunctionUnadorned config)
    (OptimizeDisjunctionUnadornedMinChildCardinality config)
    (MinSegmentsForInMemoryMerge config) (PersisterNapTimeMSec config)
    (PersisterNapUnderNumFiles config)
    (MemoryPressurePauseThreshold config) (virtualFields config).

End config.

End index.

(** * Package index: the default configuration and the segment plugins *)

Module config.
Import index.

(** What [config.go] takes from other packages. *)
Class Packages {foreign : Foreign} : Type := {
  (** [ice.Type] and [ice.Version] *)
  ice_Type : string;
  ice_Version : Z;
  (** [ice.New], [ice.Load] and [ice.Merge] *)
  ice_functions : SegmentPlugin;
  (** [mergeplan.DefaultMergePlanOptions] *)
  DefaultMergePlanOptions : Options;
  NewKeepNLatestDeletionPolicy : Z → DeletionPolicyT;
  NewFileSystemDirectory : string → DirectoryT;
  NewInMemoryDirectory : DirectoryT;
  (** the [nil] of the interface [Directory] *)
  nilDirectory : DirectoryT;
  (** [func(f func()) { go f() }] *)
  goFunc : unit → unit;
}.

Section defaults.
Context {foreign : Foreign} {packages : Packages}.

(** [SegmentPlugin]: the type and the version of the segments that it
    handles, and its functions [New], [Load] and [Merge]. *)
Record Plugin : Type := mkPlugin {
  Type_ : string;
  Version : Z;
  functions : SegmentPlugin;
}.

(** The maps and channels that configurations refer to: the maps of virtual
    fields; the maps [supportedSegmentPlugins], from the type of a segment
    to the map of its versions; these maps of versions; and the channels. *)
Record heap : Type := mkHeap {
  fieldMaps : store;
  pluginMaps : gmap addr (gmap string addr);
  versionMaps : gmap addr (gmap Z Plugin);
  chans : gset addr;
}.

(** [WithSegmentPlugin].  [None]: an assignment to an entry of a [nil] map
    panics. *)
Definition WithSegmentPlugin (config : Config) (plugin : Plugin) (h : heap)
  : option (Config * heap) :=
  match supportedSegmentPlugins config with
  | None => None
  | Some a =>
      match pluginMaps h !! a with
      | None => None
      | Some types =>
          let '(b, types, versions) :=
            match types !! Type_ plugin with
            | Some b => (b, types, versionMaps h)
            | None =>
                let b := fresh (dom (versionMaps h)) in
                (b, <[Type_ plugin := b]> types, <[b := ∅]> (versionMaps h))
            end in
          match versions !! b with
          | None => None
          | Some vs =>
              Some (config,
                    mkHeap (fieldMaps h) (<[a := types]> (pluginMaps h))
                      (<[b := <[Version plugin := plugin]> vs]> versions)
                      (chans h))
          end
      end
  end.

(** [defaultConfig] makes the maps and the channel of the configuration,
    and registers the plugin of [ice] through [rv.WithSegmentPlugin], whose
    result it drops. *)
Definition defaultConfig (h : heap) : option (Config * heap) :=
  let vf := fresh (dom (fieldMaps h)) in
  let ch := fresh (chans h) in
  let sp := fresh (dom (pluginMaps h)) in
  let rv :=
    mkConfig ice_Type ice_Version (Some sp) false None None
      DefaultMergePlanOptions 4 (Some ch) (Some goFunc)
      (NewKeepNLatestDeletionPolicy 1) nilDirectory None (1024 * 1024)
      true true true 256 2 0 1000 int_max (Some vf) in
  let h :=
    mkHeap (<[vf := ∅]> (fieldMaps h)) (<[sp := ∅]> (pluginMaps h))
      (versionMaps h) ({[ch]} ∪ chans h) in
  match WithSegmentPlugin rv (mkPlugin ice_Type ice_Version ice_functions) h
  with
  | Some (_, h) => Some (rv, h)
  | None => None
  end.

Definition set_Directory (d : DirectoryT) (config : Config) : Config :=
  mkConfig (SegmentType config) (SegmentVersion config)
    (supportedSegmentPlugins config) (UnsafeBatch config)
    (EventCallback config) (AsyncError config) (MergePlanOptions config)
    (NumAnalysisWorkers config) (AnalysisChan config) (GoFunc config)
    (DeletionPolicy config) d (NormCalc config)
    (MergeBufferSize config) (OptimizeConjunction config)
    (OptimizeConjunctionUnadorned config)
    (OptimizeDisjunctionUnadorned config)
    (OptimizeDisjunctionUnadornedMinChildCardinality config)
    (MinSegmentsForInMemoryMerge config) (PersisterNapTimeMSec config)
    (PersisterNapUnderNumFiles config)
    (MemoryPressurePauseThreshold config) (virtualFields config).

Definition DefaultConfig (path : string) (h : heap)
  : option (Config * heap) :=
  match defaultConfig h with
  | Some (rv, h) => Some (set_Directory (NewFileSystemDirectory path) rv, h)
  | None => None
  end.

Definition InMemoryOnlyConfig (h : heap) : option (Config * heap) :=
  match defaultConfig h with
  | Some (rv, h) => Some (set_Directory NewInMemoryDirectory rv, h)
  | None => None
  end.

(** [config.WithVirtualField(field)] on this heap. *)
Definition WithVirtualField (config : Config) (field : Field) (h : heap)
  : option (Config * heap) :=
  match index.WithVirtualField config field (fieldMaps h) with
  | Some (config, fields) =>
      Some (config,
            mkHeap fields (pluginMaps h) (versionMaps h) (chans h))
  | None => None
  end.

End defaults.

End config.

(** * Package bluge: the other methods of the list of searchers *)

Module searchers.
Import bluge.

Section close.
Context {ext : Externals}.

(** [Close] closes every searcher and returns the first error.
    [searcherClose] is [searcher.Close()]; the result holds the searchers
    that were closed, in the order of the calls. *)
Definition Close (searcherClose : Searcher → option error)
    (m : MultiSearcherList) : list Searcher * option error :=
  fold_left
    (λ '(closed, err) searcher,
       let cerr := searcherClose searcher in
       (closed ++ [searcher],
        match err with
        | None => cerr
        | Some _ => err
        end))
    (searchers m) ([], None).

End close.

End searchers.

(** * Specification vocabulary *)

Section order.
Import search collector.

(** [a] sorts before [b]: it ranks better under [o]. *)
Definition before (o : SortOrder) (a b : DocumentMatch) : Prop :=
  Compare o a b < 0.

#[export] Instance before_dec o a b : Decision (before o a b).
Proof. unfold before. apply _. Defined.

(** The matches of [l] carry distinct hit numbers. *)
Definition distinct_hits (l : list DocumentMatch) : Prop :=
  NoDup (HitNumber <$> l).

(** Sorting under [o] by insertion: the full matched set in ranking order. *)
Fixpoint insertSorted (o : SortOrder) (d : DocumentMatch)
    (l : list DocumentMatch) : list DocumentMatch :=
  match l with
  | [] => [d]
  | x :: l' =>
      if decide (Compare o d x < 0) then d :: l
      else x :: insertSorted o d l'
  end.

Definition sortMatches (o : SortOrder) (l : list DocumentMatch)
  : list DocumentMatch :=
  foldr (insertSorted o) [] l.

(** The heap condition: no entry sorts after its parent. *)
Definition heap_ordered (compare : collectorCompare)
    (h : list DocumentMatch) : Prop :=
  ∀ i j a b, h !! i = Some a → h !! j = Some b →
    (j = 2 * i + 1 ∨ j = 2 * i + 2)%nat → compare a b >= 0.

(** While sifting up: the heap condition holds but for the entry at [j], which may sort after
    its parent. *)
Definition up_inv (compare : collectorCompare) (h : list DocumentMatch)
    (j : nat) : Prop :=
  (∀ p c a b, h !! p = Some a → h !! c = Some b →
     (c = 2 * p + 1 ∨ c = 2 * p + 2)%nat → c ≠ j → compare a b >= 0)
  ∧ (∀ c a b, j ≠ 0%nat → h !! ((j - 1) / 2)%nat = Some a → h !! c = Some b →
     (c = 2 * j + 1 ∨ c = 2 * j + 2)%nat → compare a b >= 0).

(** While sifting down: within the first [n] entries the heap condition holds but for the entry
    at [i], which may sort before its children. *)
Definition down_inv (compare : collectorCompare) (h : list DocumentMatch)
    (i n : nat) : Prop :=
  (∀ p c a b, (c < n)%nat → h !! p = Some a → h !! c = Some b →
     (c = 2 * p + 1 ∨ c = 2 * p + 2)%nat → p ≠ i → compare a b >= 0)
  ∧ (∀ c a b, i ≠ 0%nat → (c < n)%nat →
     h !! ((i - 1) / 2)%nat = Some a → h !! c = Some b →
     (c = 2 * i + 1 ∨ c = 2 * i + 2)%nat → compare a b >= 0).

(** The store holds the matches of [S], which is in ranking order. *)
Definition store_view (o : SortOrder) (s : store_value)
    (S : list DocumentMatch) : Prop :=
  match s with
  | SliceStore c => slice_compare c = Compare o ∧ slice c = S
  | HeapStore c =>
      heap_compare c = Compare o ∧ heap_ordered (Compare o) (heap c)
      ∧ heap c ≡ₚ S
  end.

End order.

Section collector_spec.
Import search collector.
Context {ext : Externals}.

(** [d] lies past the cursor: its sort key compares greater than the key of
    [search_after]. *)
Definition afterCursor (o : SortOrder) (cursor : option DocumentMatch)
    (d : DocumentMatch) : Prop :=
  match cursor with
  | Some after => compareKeys o d after > 0
  | None => True
  end.

#[export] Instance afterCursor_dec o cursor d :
  Decision (afterCursor o cursor d).
Proof. destruct cursor; simpl; apply _. Defined.

(** The number of entries that the store is bounded to. *)
Definition bound (c : TopNCollector) : nat :=
  Z.to_nat (int_add (size c) (skip c)).

(** [c] has the settings of [c0]: the stages only change the store, the
    lowest match outside the results, and the hit number of the cursor. *)
Definition same_settings (c0 c : TopNCollector) : Prop :=
  size c = size c0 ∧ skip c = skip c0 ∧ sort c = sort c0
  ∧ reverse c = reverse c0 ∧ backingSize c = backingSize c0
  ∧ neededFields c = neededFields c0 ∧ results c = results c0
  ∧ store_capacity (store c) = store_capacity (store c0)
  ∧ ∃ n, searchAfter c = set_HitNumber n <$> searchAfter c0.

(** The collector [c] after the compare stage has served the matches [seen]:
    with [S] the matches of [seen] past the cursor in ranking order, the store
    holds the first [bound] of them, and the lowest match outside the results
    is the next one. *)
Definition collector_inv (c0 : TopNCollector) (seen : list DocumentMatch)
    (c : TopNCollector) : Prop :=
  same_settings c0 c
  ∧ ∃ S, StronglySorted (before (sort c0)) S
      ∧ S ≡ₚ filter (afterCursor (sort c0) (searchAfter c0)) seen
      ∧ store_view (sort c0) (store c) (take (bound c0) S)
      ∧ lowestMatchOutsideResults c = S !! bound c0.

End collector_spec.

Section run_spec.
Import search collector.
Context {ext : Externals}.

(** Positions of a task: [served] by the compare stage, [consumed] by the
    aggregation bucket, [numbered] with a hit number that is still in use,
    and past the assignment of the hit number. *)
Definition served (p : position) : bool :=
  match p with
  | returned None => true
  | _ => false
  end.

Definition consumed (p : position) : bool :=
  match p with
  | atCompare | returned None => true
  | _ => false
  end.

Definition numbered (p : position) : bool :=
  match p with
  | atLoadDocValues | atSort | atConsume | atCompare | returned None => true
  | _ => false
  end.

Definition past_number (p : position) : bool :=
  match p with
  | atCheckDone | atHitNumber => false
  | _ => true
  end.

(** The matches of the tasks whose position satisfies [P]. *)
Definition docsAt (P : position → bool) (ts : list task)
  : list DocumentMatch :=
  doc <$> filter (λ t, P (pos t) = true) ts.

(** The match [m] of the searcher as it reaches the last two stages, when it
    is given the hit number [n]. *)
Definition hit (c : TopNCollector) (m : DocumentMatch) (n : Z)
  : DocumentMatch :=
  let d := loadDocValuesStep c (set_HitNumber n m) in
  set_SortValue (Compute (sort c) d) d.

(** The task [t] carries the match [m] of the searcher, as far as the stages
    have worked on it. *)
Definition task_ok (c : TopNCollector) (m : DocumentMatch) (t : task)
  : Prop :=
  let n := HitNumber (doc t) in
  match pos t with
  | atCheckDone | atHitNumber => doc t = m
  | atLoadDocValues => doc t = set_HitNumber n m
  | atSort =>
      doc t = loadDocValuesStep c (set_HitNumber n m) ∧ Err (doc t) = None
  | atConsume | atCompare | returned None =>
      doc t = hit c m n ∧ Err (doc t) = None
  | returned (Some _) => True
  | waiting => False
  end.

(** The hit numbers in use lie between 1 and the counter [hn], and no two
    tasks share one. *)
Definition hits_ok (ts : list task) (hn : Z) : Prop :=
  (∀ i t, ts !! i = Some t → numbered (pos t) = true →
     1 ≤ HitNumber (doc t) ≤ hn)
  ∧ (∀ i j ti tj, ts !! i = Some ti → ts !! j = Some tj → i ≠ j →
       numbered (pos ti) = true → numbered (pos tj) = true →
       HitNumber (doc ti) ≠ HitNumber (doc tj)).

(** Task [i] carries the [i]-th match of the searcher. *)
Definition tasks_ok (c0 : TopNCollector) (s0 : Collectible)
    (ts : list task) : Prop :=
  ∀ i t, ts !! i = Some t → ∃ m, pending s0 !! i = Some m ∧ task_ok c0 m t.

(** The bucket has consumed the matches that went past the consume stage,
    each one once. *)
Definition bucket_ok (b0 : Bucket) (ts : list task) (b : Bucket) : Prop :=
  ∃ order, order ≡ₚ docsAt consumed ts ∧ b = fold_left Consume order b0.

(** The group holds the errors that tasks returned. *)
Definition errs_ok (ts : list task) (es : list error) : Prop :=
  (∀ i t e, ts !! i = Some t → pos t = returned (Some e) → e ∈ es)
  ∧ (∀ e, e ∈ es → ∃ i t, ts !! i = Some t ∧ pos t = returned (Some e)).

(** The loop of [Collect] has started one task per match that it pulled,
    but for the match in [next]. *)
Definition searcher_ok (s0 : Collectible) (r : run) : Prop :=
  pending s0
    = take (length (tasks r)) (pending s0)
      ++ option_list (next r) ++ pending (searcher r)
  ∧ (length (tasks r) ≤ length (pending s0))%nat
  ∧ (next r = None → err r = failure s0 ∧ pending (searcher r) = [])
  ∧ (is_Some (next r) → err r = None)
  ∧ failure (searcher r) = failure s0.

(** What holds of every run of [Collect] that starts with the collector
    [c0], the bucket [b0] and the searcher [s0]. *)
Definition run_inv (c0 : TopNCollector) (b0 : Bucket) (s0 : Collectible)
    (r : run) : Prop :=
  collector_inv c0 (docsAt served (tasks r)) (hc r)
  ∧ 0 ≤ hitNumber r ≤ Z.of_nat (length (docsAt past_number (tasks r)))
  ∧ hits_ok (tasks r) (hitNumber r)
  ∧ tasks_ok c0 s0 (tasks r)
  ∧ bucket_ok b0 (tasks r) (bucket r)
  ∧ errs_ok (tasks r) (errs r)
  ∧ searcher_ok s0 r.

(** A collector as [newTopNCollector] builds it, whatever its cursor: the
    store is empty and bounded to a number of entries that fits an [int]. *)
Definition fresh (c : TopNCollector) : Prop :=
  store_view (sort c) (store c) []
  ∧ lowestMatchOutsideResults c = None
  ∧ 0 ≤ size c ∧ 0 ≤ skip c ∧ size c + skip c ≤ int_max.

End run_spec.

Section statements.
Import search collector.
Context {ext : Externals}.

(** The matches of the searcher [s] as the last stages of the collector [c]
    see them, when the tasks took the hit numbers [hns]. *)
Definition matched (c : TopNCollector) (aggs : Aggregations)
    (s : Collectible) (hns : list Z) : list DocumentMatch :=
  zip_with (hit (hc (start c aggs s))) (pending s) hns.

(** The ranks from [skip] up to [skip + size]. *)
Definition slice_of (size skip : Z) (l : list DocumentMatch)
  : list DocumentMatch :=
  take (Z.to_nat size) (drop (Z.to_nat skip) l).

End statements.

(** ** Collaborators for the examples

    No aggregation fields, a bucket that records the numbers of the matches
    it consumes, document values that always load, and one sort key, the rank
    of the document: its number modulo 16, as one byte. *)
Definition example_ext : Externals := {|
  Aggregations := unit;
  Bucket := list Z;
  aggsFields := λ _, [];
  NewBucket := λ _ _, [];
  Consume := λ b d, b ++ [search.Number d];
  Finish := λ b, b;
  LoadDocumentValues := λ _ _, None;
  Compute := λ _ d,
    match Byte.of_N (Z.to_N (search.Number d `mod` 16)) with
    | Some b => [[b]]
    | None => [[]]
    end;
|}.

(** The match of document [n] as a searcher hands it over. *)
Definition example_match (n : Z) : search.DocumentMatch :=
  search.mkDocumentMatch n [] 0 None.

(** Ten documents with the ranks 1 to 10, and the sort order ["-rank"]. *)
Definition example_searcher : Collectible :=
  mkCollectible (example_match <$> [3; 1; 4; 10; 5; 9; 2; 6; 8; 7]) None.

Definition example_sort : search.SortOrder := [search.mkSortTerm "rank" true].

(** The page that the scenario "top 3 with skip 2" of the spec expects: the
    documents 8, 7 and 6, with the hit numbers of the sequential run. *)
Definition example_page : collector.TopNIterator (ext := example_ext) :=
  collector.mkTopNIterator (ext := example_ext)
    [search.mkDocumentMatch 8 [["008"%byte]] 9 None;
     search.mkDocumentMatch 7 [["007"%byte]] 10 None;
     search.mkDocumentMatch 6 [["006"%byte]] 8 None]
    [3; 1; 4; 10; 5; 9; 2; 6; 8; 7] 0 None.

(** Two documents of rank 5, in ascending order of rank. *)
Definition example_ties : Collectible :=
  mkCollectible [example_match 5; example_match 21] None.

Definition example_ascending : search.SortOrder :=
  [search.mkSortTerm "rank" false].

Section hit_numbers.
Import search collector.
Context {ext : Externals}.

(** The hit numbers that the tasks of the run [sched] hold, in the order of
    the matches of the searcher. *)
Definition hitNumbers (sched : list event) (c : TopNCollector)
    (aggs : Aggregations) (s : Collectible) : list Z :=
  (λ t, HitNumber (doc t)) <$> tasks (exec sched (start c aggs s)).

(** The hit numbers that the tasks take during a run, each with the task
    that takes it, in the order in which they are taken
    ([n.HitNumber = atomic.AddInt64(&hitNumber, 1)]). *)
Fixpoint taken (sched : list event) (r : run) : list (nat * Z) :=
  match sched with
  | [] => []
  | e :: sched' =>
      match e with
      | Advance i =>
          match tasks r !! i with
          | Some (mkTask _ atHitNumber) => [(i, int_add (hitNumber r) 1)]
          | _ => []
          end
      | _ => []
      end ++ taken sched' (step e r)
  end.

End hit_numbers.

(** The page after document 6 of the scenario "search after" of the spec:
    the documents 5, 4 and 3. *)
Definition example_next_page : collector.TopNIterator (ext := example_ext) :=
  collector.mkTopNIterator (ext := example_ext)
    [search.mkDocumentMatch 5 [["005"%byte]] 5 None;
     search.mkDocumentMatch 4 [["004"%byte]] 3 None;
     search.mkDocumentMatch 3 [["003"%byte]] 1 None]
    [3; 1; 4; 10; 5; 9; 2; 6; 8; 7] 0 None.

(** The collector at the end of the sequential run for the top 3 with
    skip 2. *)
Definition example_final : collector.TopNCollector :=
  collector.hc
    (collector.exec (ext := example_ext) (collector.sequential 10)
       (collector.start (ext := example_ext)
          (collector.newTopNCollector 3 2 example_sort false) tt
          example_searcher)).

(** Two readers: the searcher of the first fails after its matches 3, 1
    and 4; the searcher of the second has the matches 10, 5, 9 and 2. *)
Definition example_readers : list Collectible :=
  [mkCollectible (example_match <$> [3; 1; 4]) (Some (Failure "segment"));
   mkCollectible (example_match <$> [10; 5; 9; 2]) None].

(** The request for the top 3 in the order ["-rank"]. *)
Definition example_request
  : bluge.SearchRequest (ext := example_ext) Collectible :=
  bluge.mkSearchRequest (ext := example_ext) Collectible
    (λ reader, inl (bluge.mkSearcher reader 0))
    tt
    (λ _, bluge.mkCollectorConfig 3 [] example_sort)
    (λ _, collector.newTopNCollector 3 0 example_sort false).

Definition example_searchers : list bluge.Searcher :=
  (λ reader, bluge.mkSearcher reader 0) <$> example_readers.

(** The list that [MultiSearch] makes for them. *)
Definition example_list : bluge.collecting :=
  bluge.mkCollecting
    (bluge.mkMultiSearcherList example_searchers (bluge.make 4))
    (bluge.mkCollectorConfig 3 [] example_sort) 0 [] None [] [] false.

(** The top 3 of the matches of both readers: the documents 10, 9 and 5. *)
Definition example_multi_page : collector.TopNIterator (ext := example_ext) :=
  collector.mkTopNIterator (ext := example_ext)
    [search.mkDocumentMatch 10 [["010"%byte]] 4 None;
     search.mkDocumentMatch 9 [["009"%byte]] 6 None;
     search.mkDocumentMatch 5 [["005"%byte]] 5 None]
    [3; 1; 4; 10; 5; 9; 2] 0 None.

Section sequential_spec.
Import search collector.
Context {ext : Externals}.

(** The loop of [Collect] after [k] matches of the searcher [s], when the
    tasks of these matches have returned. *)
Definition loop_inv (s : Collectible) (k : nat) (r : run) : Prop :=
  length (tasks r) = k
  ∧ forallb has_returned (tasks r) = true
  ∧ next r = pending s !! k
  ∧ pending (searcher r) = drop (S k) (pending s)
  ∧ failure (searcher r) = failure s
  ∧ err r = (if decide (k < length (pending s))%nat then None
             else failure s).

(** The sequential run after [k] matches: the [k] tasks have taken the hit
    numbers up to [k]. *)
Definition seq_inv (s : Collectible) (k : nat) (r : run) : Prop :=
  done r = false ∧ hitNumber r = Z.of_nat k ∧ loop_inv s k r.

(** The same once the context is cancelled, with the hit counter at [h]. *)
Definition cancelled_inv (s : Collectible) (h : Z) (k : nat) (r : run)
  : Prop :=
  done r = true ∧ hitNumber r = h ∧ loop_inv s k r.

(** A run in which nothing has failed: the context is not cancelled, no
    match carries an error and no task has returned one. *)
Definition clean (r : run) : Prop :=
  done r = false
  ∧ Forall (λ t, Err (doc t) = None ∧ ∀ e, pos t ≠ returned (Some e))
      (tasks r)
  ∧ Forall (λ d, Err d = None) (pending (searcher r))
  ∧ (∀ d, next r = Some d → Err d = None).

(** The number of steps that a task at position [p] is from returning. *)
Definition steps_left (p : position) : nat :=
  match p with
  | atCheckDone => 6
  | atHitNumber => 5
  | atLoadDocValues => 4
  | atSort => 3
  | atConsume => 2
  | atCompare => 1
  | returned _ => 0
  | waiting => 7
  end.

(** The stages after the load stage only serve matches without an error. *)
Definition loaded (t : task) : Prop :=
  match pos t with
  | atSort | atConsume | atCompare => Err (doc t) = None
  | waiting => False
  | _ => True
  end.

End sequential_spec.

Section multisearch_spec.
Import bluge.
Context {ext : Externals}.

(** The matches that the goroutine of a searcher with the matches [l]
    sends: those before the first one whose document values fail to load. *)
Fixpoint output (cc : CollectorConfig) (l : list DocumentMatch)
  : list DocumentMatch :=
  match l with
  | [] => []
  | dm :: rest =>
      if decide (Z.of_nat (length (NeededFields cc)) > 0) then
        match LoadDocumentValues dm (NeededFields cc) with
        | Some _ => []
        | None => dm :: output cc rest
        end
      else dm :: output cc rest
  end.

Definition sends (cc : CollectorConfig) (s : Searcher)
  : list DocumentMatch :=
  output cc (pending (matches s)).

(** The matches that a goroutine has still to send. *)
Definition outstanding (cc : CollectorConfig) (g : goroutine)
  : list DocumentMatch :=
  match g with
  | atNext s => output cc (pending s)
  | atSend s dm => dm :: output cc (pending s)
  | exited _ => []
  end.

(** What holds of the list of the searchers [ss] all along: the channel
    keeps its capacity of twice their number, at most [limit] goroutines
    run, every match is either delivered, in the channel or still to send,
    the channel is closed when all goroutines have returned, and the first
    error among them is logged then. *)
Definition msl_inv (ss : list Searcher) (st : collecting) : Prop :=
  searchers (m st) = ss
  ∧ cap (docChan (m st)) = (length ss * 2)%nat
  ∧ (length (buffer (docChan (m st))) ≤ cap (docChan (m st)))%nat
  ∧ (running st ≤ limit)%nat
  ∧ i st = length (goroutines st)
  ∧ (i st ≤ length ss)%nat
  ∧ delivered st ++ buffer (docChan (m st))
      ++ concat (outstanding (cc st) <$> goroutines st)
      ++ concat (sends (cc st) <$> drop (i st) ss)
    ≡ₚ concat (sends (cc st) <$> ss)
  ∧ (closed (docChan (m st)) = true →
       i st = length ss ∧ running st = 0%nat)
  ∧ logged st
    = (if closed (docChan (m st)) then option_list (err st) else [])
  ∧ (ended st = true →
       closed (docChan (m st)) = true ∧ buffer (docChan (m st)) = [])
  ∧ (∀ e, err st = Some e → exited (Some e) ∈ goroutines st)
  ∧ (err st = None → ∀ e, exited (Some e) ∉ goroutines st).

(** The run in which the goroutine of searcher [k] sends its [n] matches,
    the collector takes each of them at once, and the goroutine returns. *)
Definition serve (k n : nat) : list event :=
  Go :: concat (replicate n [Work k; Work k; CallNext]) ++ [Work k].

(** The searchers [ss], from number [k] on, are served one after another. *)
Fixpoint serve_from (cc : CollectorConfig) (k : nat) (ss : list Searcher)
  : list event :=
  match ss with
  | [] => []
  | s :: ss => serve k (length (sends cc s)) ++ serve_from cc (S k) ss
  end.

(** The sequential run of the list up to the [nil] of [Next]. *)
Definition serve_all (cc : CollectorConfig) (ss : list Searcher)
  : list event :=
  serve_from cc 0 ss ++ [Wait; CallNext].

(** The sequential run between two searchers: the goroutines of the first
    [k] searchers have returned and the matches [dl] are delivered. *)
Definition idle (ss : list Searcher) (c : CollectorConfig) (k : nat)
    (dl : list DocumentMatch) (st : collecting) : Prop :=
  searchers (m st) = ss ∧ cc st = c
  ∧ cap (docChan (m st)) = (length ss * 2)%nat
  ∧ buffer (docChan (m st)) = []
  ∧ closed (docChan (m st)) = false
  ∧ ended st = false
  ∧ i st = k
  ∧ length (goroutines st) = k
  ∧ Forall (λ g, is_running g = false) (goroutines st)
  ∧ delivered st = dl.

(** The sequential run while the goroutine of searcher [k] is about to
    call [Next] on [s]. *)
Definition serving (ss : list Searcher) (c : CollectorConfig) (k : nat)
    (s : Collectible) (dl : list DocumentMatch) (st : collecting) : Prop :=
  searchers (m st) = ss ∧ cc st = c
  ∧ cap (docChan (m st)) = (length ss * 2)%nat
  ∧ buffer (docChan (m st)) = []
  ∧ closed (docChan (m st)) = false
  ∧ ended st = false
  ∧ i st = S k
  ∧ (∃ gs, goroutines st = gs ++ [atNext s] ∧ length gs = k
           ∧ Forall (λ g, is_running g = false) gs)
  ∧ delivered st = dl.

End multisearch_spec.

Section config_spec.
Import index.
Context {foreign : Foreign}.

(** The virtual fields of the name [name] that the configuration [c] holds
    in the store [h]. *)
Definition virtualFieldsOf (c : Config) (h : store) (name : string)
  : list Field :=
  match virtualFields c with
  | Some a => default [] (h !! a ≫= (.!! name))
  | None => []
  end.

(** The fields of a configuration other than [PersisterNapTimeMSec],
    [NormCalc] and [virtualFields] are the same in [c] and [c']. *)
Definition same_rest (c c' : Config) : Prop :=
  SegmentType c' = SegmentType c
  ∧ SegmentVersion c' = SegmentVersion c
  ∧ supportedSegmentPlugins c' = supportedSegmentPlugins c
  ∧ UnsafeBatch c' = UnsafeBatch c
  ∧ EventCallback c' = EventCallback c
  ∧ AsyncError c' = AsyncError c
  ∧ MergePlanOptions c' = MergePlanOptions c
  ∧ NumAnalysisWorkers c' = NumAnalysisWorkers c
  ∧ AnalysisChan c' = AnalysisChan c
  ∧ GoFunc c' = GoFunc c
  ∧ DeletionPolicy c' = DeletionPolicy c
  ∧ Directory c' = Directory c
  ∧ MergeBufferSize c' = MergeBufferSize c
  ∧ OptimizeConjunction c' = OptimizeConjunction c
  ∧ OptimizeConjunctionUnadorned c' = OptimizeConjunctionUnadorned c
  ∧ OptimizeDisjunctionUnadorned c' = OptimizeDisjunctionUnadorned c
  ∧ OptimizeDisjunctionUnadornedMinChildCardinality c'
    = OptimizeDisjunctionUnadornedMinChildCardinality c
  ∧ MinSegmentsForInMemoryMerge c' = MinSegmentsForInMemoryMerge c
  ∧ PersisterNapUnderNumFiles c' = PersisterNapUnderNumFiles c
  ∧ MemoryPressurePauseThreshold c' = MemoryPressurePauseThreshold c.

End config_spec.

(** A configuration whose map of virtual fields is allocated and empty; a
    virtual field is its name and a number. *)
Definition example_foreign : index.Foreign := {|
  index.Event := unit;
  index.Options := unit;
  index.DeletionPolicyT := unit;
  index.DirectoryT := unit;
  index.SegmentPlugin := unit;
  index.float32 := Z;
  index.Field := string * Z;
  index.Name := fst;
|}.

Definition example_config : index.Config (foreign := example_foreign) :=
  index.mkConfig (foreign := example_foreign) "ice" 1 None false None None
    tt 4 None None tt tt None 1048576 true true true 256 2 0 1000
    int_max (Some 1%positive).

Definition example_store
  : gmap positive (gmap string (list (string * Z))) :=
  {[ 1%positive := ∅ ]}.

Section config_heap_spec.
Import index config.
Context {foreign : Foreign} {packages : Packages}.

(** The plugin that the configuration [c] holds for the segments of type
    [ty] and version [v]. *)
Definition pluginOf (c : Config) (h : heap) (ty : string) (v : Z)
  : option Plugin :=
  a ← supportedSegmentPlugins c;
  types ← pluginMaps h !! a;
  b ← types !! ty;
  versions ← versionMaps h !! b;
  versions !! v.

(** Every map of versions that a map of plugins refers to is allocated, and
    no two entries refer to the same map of versions. *)
Definition heap_ok (h : heap) : Prop :=
  (∀ a types ty b,
     pluginMaps h !! a = Some types → types !! ty = Some b →
     is_Some (versionMaps h !! b))
  ∧ (∀ a a' types types' ty ty' b,
       pluginMaps h !! a = Some types → types !! ty = Some b →
       pluginMaps h !! a' = Some types' → types' !! ty' = Some b →
       a = a' ∧ ty = ty').

(** The heap [h'] extends [h]: the maps of [h] are in [h'] as they are. *)
Definition heap_extends (h h' : heap) : Prop :=
  (∀ a fields, fieldMaps h !! a = Some fields →
               fieldMaps h' !! a = Some fields)
  ∧ (∀ a types, pluginMaps h !! a = Some types →
                pluginMaps h' !! a = Some types)
  ∧ (∀ b versions, versionMaps h !! b = Some versions →
                   versionMaps h' !! b = Some versions)
  ∧ chans h ⊆ chans h'.

End config_heap_spec.

Section multisearch_order_spec.
Import bluge.
Context {ext : Externals}.

(** What goroutine [k] has sent so far is the front of what the goroutine of
    searcher [k] sends, and reaches the collector in this order. *)
Definition fifo_inv (ss : list Searcher) (st : collecting) : Prop :=
  ∀ k g, goroutines st !! k = Some g →
    ∃ s sent,
      ss !! k = Some s
      ∧ sends (cc st) s = sent ++ outstanding (cc st) g
      ∧ sent `sublist_of` delivered st ++ buffer (docChan (m st)).

End multisearch_order_spec.

(** Collaborators as [example_ext], but the document values of document 4
    fail to load. *)
Definition failing_ext : Externals := {|
  Aggregations := unit;
  Bucket := list Z;
  aggsFields := λ _, [];
  NewBucket := λ _ _, [];
  Consume := λ b d, b ++ [search.Number d];
  Finish := λ b, b;
  LoadDocumentValues := λ d _,
    if decide (search.Number d = 4) then Some (Failure "load") else None;
  Compute := λ _ d,
    match Byte.of_N (Z.to_N (search.Number d `mod` 16)) with
    | Some b => [[b]]
    | None => [[]]
    end;
|}.

(** A searcher that fails after the documents 3, 1 and 4. *)
Definition example_broken_searcher : Collectible :=
  mkCollectible (example_match <$> [3; 1; 4]) (Some (Failure "segment")).

(** A request that makes no searcher for a reader that is broken. *)
Definition example_strict_request
  : bluge.SearchRequest (ext := example_ext) Collectible :=
  bluge.mkSearchRequest (ext := example_ext) Collectible
    (λ reader,
       match failure reader with
       | Some e => inr e
       | None => inl (bluge.mkSearcher reader 0)
       end)
    tt
    (λ _, bluge.mkCollectorConfig 3 [] example_sort)
    (λ _, collector.newTopNCollector 3 0 example_sort false).

(** The packages around [example_foreign], and a heap without any map. *)
Definition example_packages : config.Packages (foreign := example_foreign) :=
  config.Build_Packages example_foreign "ice" 1 tt tt (λ _, tt) (λ _, tt)
    tt tt (λ _, tt).

Definition example_heap : config.heap (foreign := example_foreign) :=
  config.mkHeap (foreign := example_foreign) ∅ ∅ ∅ ∅.

(** A configuration whose map of plugins, at address 2, holds the plugin of
    [ice] in version 1, and the heap with this map. *)
Definition example_registry_config
  : index.Config (foreign := example_foreign) :=
  index.mkConfig (foreign := example_foreign) "ice" 1 (Some 2%positive) false
    None None tt 4 None None tt tt None 1048576 true true true 256 2 0 1000
    int_max (Some 1%positive).

Definition example_registry_heap
  : config.heap (foreign := example_foreign) :=
  config.mkHeap (foreign := example_foreign) {[ 1%positive := ∅ ]}
    {[ 2%positive := {[ "ice"%string := 3%positive ]} ]}
    {[ 3%positive :=
         {[ 1 := config.mkPlugin (foreign := example_foreign) "ice" 1 tt ]} ]}
    ∅.

(** * Properties *)

(** ** Machine integers *)

Lemma int_wrap_id z : int_min ≤ z ≤ int_max → int_wrap z = z.
Proof.
  unfold int_min, int_max, int_wrap. intros Hz.
  rewrite Z.mod_small; lia.
Qed.

Lemma int_add_exact a b :
  int_min ≤ a + b ≤ int_max → int_add a b = a + b.
Proof. apply int_wrap_id. Qed.

(** ** The sort order *)

Section compare_facts.
Import search.

Lemma bytesCompare_range a b :
  bytesCompare a b = -1 ∨ bytesCompare a b = 0 ∨ bytesCompare a b = 1.
Proof.
  revert b. induction a as [|x a IH]; intros [|y b]; simpl; auto.
  repeat case_match; auto.
Qed.

Lemma bytesCompare_antisym a b : bytesCompare b a = - bytesCompare a b.
Proof.
  revert b. induction a as [|x a IH]; intros [|y b]; simpl; auto.
  destruct (N.ltb_spec (Byte.to_N x) (Byte.to_N y)),
    (N.ltb_spec (Byte.to_N y) (Byte.to_N x)); auto; lia.
Qed.

Lemma byte_to_N_inj x y : Byte.to_N x = Byte.to_N y → x = y.
Proof.
  intros E. pose proof (Byte.of_to_N x) as Hx.
  rewrite E, Byte.of_to_N in Hx. congruence.
Qed.

Lemma bytesCompare_eq a b : bytesCompare a b = 0 ↔ a = b.
Proof.
  revert b. induction a as [|x a IH]; intros [|y b]; simpl; try easy.
  destruct (N.ltb_spec (Byte.to_N x) (Byte.to_N y)) as [H1|H1].
  { split; [lia|]. intros [= -> _]. lia. }
  destruct (N.ltb_spec (Byte.to_N y) (Byte.to_N x)) as [H2|H2].
  { split; [lia|]. intros [= -> _]. lia. }
  assert (x = y) as -> by (apply byte_to_N_inj; lia).
  rewrite IH. split; congruence.
Qed.

Lemma bytesCompare_trans a b c :
  bytesCompare a b < 0 → bytesCompare b c < 0 → bytesCompare a c < 0.
Proof.
  revert b c. induction a as [|x a IH]; intros [|y b] [|z c]; simpl; try lia.
  destruct (N.ltb_spec (Byte.to_N x) (Byte.to_N y)),
    (N.ltb_spec (Byte.to_N y) (Byte.to_N x)),
    (N.ltb_spec (Byte.to_N y) (Byte.to_N z)),
    (N.ltb_spec (Byte.to_N z) (Byte.to_N y)),
    (N.ltb_spec (Byte.to_N x) (Byte.to_N z)),
    (N.ltb_spec (Byte.to_N z) (Byte.to_N x)); try lia.
  apply IH.
Qed.

Lemma compareFrom_range o x i j :
  compareFrom o x i j = -1 ∨ compareFrom o x i j = 0 ∨ compareFrom o x i j = 1.
Proof.
  revert x. induction o as [|t o IH]; intros x; simpl.
  - repeat case_decide; auto.
  - case_decide; [apply IH|].
    destruct (bytesCompare_range (SortValue i !!! x) (SortValue j !!! x))
      as [E|[E|E]], (Desc t); rewrite E; auto; lia.
Qed.

Lemma compareFrom_antisym o x i j :
  compareFrom o x j i = - compareFrom o x i j.
Proof.
  revert x. induction o as [|t o IH]; intros x; simpl.
  - repeat case_decide; lia.
  - rewrite (bytesCompare_antisym (SortValue i !!! x) (SortValue j !!! x)).
    repeat case_decide; try lia; [apply IH|].
    destruct (Desc t); lia.
Qed.

Lemma compareFrom_trans o x i j k :
  compareFrom o x i j < 0 → compareFrom o x j k < 0 →
  compareFrom o x i k < 0.
Proof.
  revert x. induction o as [|t o IH]; intros x; simpl.
  - repeat case_decide; lia.
  - set (a := SortValue i !!! x). set (b := SortValue j !!! x).
    set (c := SortValue k !!! x).
    destruct (decide (bytesCompare a b = 0)) as [Hab|Hab].
    { apply bytesCompare_eq in Hab as ->.
      destruct (decide (bytesCompare b c = 0)); [apply IH|auto]. }
    destruct (decide (bytesCompare b c = 0)) as [Hbc|Hbc].
    { apply bytesCompare_eq in Hbc as <-.
      rewrite decide_False by done. auto. }
    intros H1 H2.
    assert (if Desc t then bytesCompare c a < 0 else bytesCompare a c < 0)
      as H3.
    { destruct (Desc t).
      - apply (bytesCompare_trans c b a);
          [rewrite (bytesCompare_antisym b c)|
           rewrite (bytesCompare_antisym a b)]; lia.
      - by apply (bytesCompare_trans a b c). }
    rewrite decide_False.
    + destruct (Desc t); [rewrite (bytesCompare_antisym a c) in H3|]; lia.
    + destruct (Desc t); [rewrite (bytesCompare_antisym a c) in H3|]; lia.
Qed.

Lemma compareFrom_zero o x i j :
  compareFrom o x i j = 0 → HitNumber i = HitNumber j.
Proof.
  revert x. induction o as [|t o IH]; intros x; simpl.
  - repeat case_decide; auto; lia.
  - case_decide; [apply IH|]. destruct (Desc t); lia.
Qed.

Lemma Compare_range o i j :
  Compare o i j = -1 ∨ Compare o i j = 0 ∨ Compare o i j = 1.
Proof. apply compareFrom_range. Qed.

Lemma Compare_antisym o i j : Compare o j i = - Compare o i j.
Proof. apply compareFrom_antisym. Qed.

Lemma Compare_trans o i j k :
  Compare o i j < 0 → Compare o j k < 0 → Compare o i k < 0.
Proof. apply compareFrom_trans. Qed.

Lemma Compare_zero o i j : Compare o i j = 0 → HitNumber i = HitNumber j.
Proof. apply compareFrom_zero. Qed.

Lemma Compare_refl o i : Compare o i i = 0.
Proof. pose proof (Compare_antisym o i i). lia. Qed.

(** The hit number only matters between matches whose keys tie. *)
Lemma compareFrom_keys o x i j n :
  compareFrom o x i (set_HitNumber n j) = compareFrom o x i j
  ∨ (compareFrom o x i (set_HitNumber (HitNumber i) j) = 0).
Proof.
  revert x. induction o as [|t o IH]; intros x; simpl.
  - right. by rewrite decide_True.
  - case_decide; [apply IH|]. by left.
Qed.

Lemma compareKeys_Compare o i j :
  compareKeys o i j = 0 ∨ compareKeys o i j = Compare o i j.
Proof.
  unfold compareKeys, Compare.
  destruct (compareFrom_keys o 0 i j (HitNumber i)); auto.
Qed.

Lemma compareFrom_set_HitNumber_zero o x i j n :
  compareFrom o x i (set_HitNumber n j) = 0 →
  compareFrom o x i (set_HitNumber (HitNumber i) j) = 0.
Proof.
  revert x. induction o as [|t o IH]; intros x; simpl.
  - intros _. by rewrite decide_True.
  - case_decide; [apply IH|done].
Qed.

End compare_facts.

(** ** Lists in ranking order *)

Section sorted_facts.
Import search collector.
Variable o : SortOrder.

Lemma before_trans a b c : before o a b → before o b c → before o a c.
Proof. apply Compare_trans. Qed.

Lemma before_asym a b : before o a b → before o b a → False.
Proof. unfold before. rewrite (Compare_antisym o a b). lia. Qed.

Lemma not_before a b : Compare o a b ≠ 0 → ¬ before o a b → before o b a.
Proof. unfold before. rewrite (Compare_antisym o a b). lia. Qed.

Lemma sorted_unique (l1 l2 : list DocumentMatch) :
  StronglySorted (before o) l1 → StronglySorted (before o) l2 →
  l1 ≡ₚ l2 → l1 = l2.
Proof.
  apply StronglySorted_unique_strong.
  intros x1 x2 _ _ H1 H2. destruct (before_asym _ _ H1 H2).
Qed.

Lemma sorted_lookup_lt (l : list DocumentMatch) i j a b :
  StronglySorted (before o) l → (i < j)%nat →
  l !! i = Some a → l !! j = Some b → before o a b.
Proof.
  intros Hs Hij Ha Hb. rewrite <- (take_drop j l) in Hs.
  apply (StronglySorted_app_1_elem_of _ _ _ _ _ Hs).
  - apply elem_of_take. eauto.
  - apply list_elem_of_lookup. exists 0%nat.
    by rewrite lookup_drop, Nat.add_0_r.
Qed.

Lemma sorted_take (l : list DocumentMatch) n :
  StronglySorted (before o) l → StronglySorted (before o) (take n l).
Proof.
  intros Hs. rewrite <- (take_drop n l) in Hs.
  by apply StronglySorted_app in Hs as (_ & ? & _).
Qed.

Lemma sorted_drop (l : list DocumentMatch) n :
  StronglySorted (before o) l → StronglySorted (before o) (drop n l).
Proof.
  intros Hs. rewrite <- (take_drop n l) in Hs.
  by apply StronglySorted_app in Hs as (_ & _ & ?).
Qed.

Lemma sorted_take_drop (l : list DocumentMatch) n x y :
  StronglySorted (before o) l → x ∈ take n l → y ∈ drop n l → before o x y.
Proof.
  intros Hs. rewrite <- (take_drop n l) in Hs.
  apply (StronglySorted_app_1_elem_of _ _ _ _ _ Hs).
Qed.

Lemma insertSorted_Permutation d l : insertSorted o d l ≡ₚ d :: l.
Proof.
  induction l as [|x l IH]; simpl; [done|].
  case_decide; [done|]. rewrite IH. apply Permutation_swap.
Qed.

Lemma insertSorted_sorted d l :
  Forall (λ x, Compare o d x ≠ 0) l →
  StronglySorted (before o) l → StronglySorted (before o) (insertSorted o d l).
Proof.
  induction l as [|x l IH]; simpl; intros Hne Hs.
  { repeat constructor. }
  apply Forall_cons in Hne as [Hx Hne].
  apply StronglySorted_cons in Hs as [Hall Hs].
  case_decide as Hlt.
  - apply StronglySorted_cons. split; [|by apply StronglySorted_cons].
    constructor; [done|].
    eapply Forall_impl; [done|]. intros y Hy. by eapply before_trans.
  - apply StronglySorted_cons. split; [|by apply IH].
    rewrite insertSorted_Permutation. constructor; [|done].
    by apply not_before.
Qed.

Lemma sortMatches_Permutation l : sortMatches o l ≡ₚ l.
Proof.
  induction l as [|x l IH]; simpl; [done|].
  by rewrite insertSorted_Permutation, IH.
Qed.

Lemma distinct_hits_cons d l :
  distinct_hits (d :: l) →
  Forall (λ x, Compare o d x ≠ 0) l ∧ distinct_hits l.
Proof.
  unfold distinct_hits. rewrite fmap_cons, NoDup_cons. intros [Hd Hl].
  split; [|done]. apply Forall_forall. intros x Hx E.
  apply Hd. apply Compare_zero in E. rewrite E.
  by apply list_elem_of_fmap_2.
Qed.

Lemma sortMatches_sorted l :
  distinct_hits l → StronglySorted (before o) (sortMatches o l).
Proof.
  induction l as [|x l IH]; simpl; intros Hd; [constructor|].
  apply distinct_hits_cons in Hd as [Hx Hd].
  apply insertSorted_sorted; [|by apply IH].
  by rewrite sortMatches_Permutation.
Qed.

(** A list in ranking order that holds the matches of [l] is the sorted
    [l]. *)
Lemma sorted_is_sortMatches S l :
  distinct_hits l → StronglySorted (before o) S → S ≡ₚ l →
  S = sortMatches o l.
Proof.
  intros Hd Hs Hp. apply sorted_unique; [done|by apply sortMatches_sorted|].
  by rewrite sortMatches_Permutation.
Qed.

End sorted_facts.
(** ** The ordered vector *)

Section slice_facts.
Import search collector.
Variable o : SortOrder.

Lemma slice_scan_spec compare d (s : list DocumentMatch) k :
  let i := slice_scan compare d s k in
  (i ≤ k)%nat
  ∧ (∀ j e, (i ≤ j < k)%nat → s !! j = Some e → compare d e < 0)
  ∧ (∀ e, (0 < i)%nat → s !! (i - 1)%nat = Some e → compare d e >= 0).
Proof.
  induction k as [|k IH]; cbn [slice_scan]; cbn zeta.
  { split; [lia|]. split; intros; lia. }
  destruct (s !! k) as [e|] eqn:Hk.
  - destruct (decide (compare d e >= 0)) as [Hc|Hc].
    + split; [lia|]. split; [intros; lia|].
      intros e' _. replace (S k - 1)%nat with k by lia.
      rewrite Hk. by intros [= <-].
    + destruct IH as (Hle & Hafter & Hat). split; [lia|]. split; [|done].
      intros j e' Hj He'. destruct (decide (j = k)) as [->|].
      * assert (e' = e) as -> by congruence. lia.
      * apply (Hafter j); [lia|done].
  - split; [lia|]. split; [intros; lia|].
    intros e' _. replace (S k - 1)%nat with k by lia. by rewrite Hk.
Qed.

Lemma slice_add_insertSorted c d :
  slice_compare c = Compare o →
  StronglySorted (before o) (slice c) →
  Forall (λ x, Compare o d x ≠ 0) (slice c) →
  slice (slice_add c d) = insertSorted o d (slice c).
Proof.
  intros Hcmp Hs Hne. unfold slice_add; simpl. rewrite Hcmp.
  set (s := slice c) in *.
  destruct (slice_scan_spec (Compare o) d s (length s))
    as (Hle & Hafter & Hat).
  set (i := slice_scan (Compare o) d s (length s)) in *.
  assert (∀ x, x ∈ take i s → before o x d) as Hbefore.
  { intros x (j & Hj & Hlt)%elem_of_take.
    destruct (lookup_lt_is_Some_2 s (i - 1)%nat) as [e He]; [lia|].
    assert (before o e d) as Hed.
    { apply not_before.
      - eapply (proj1 (Forall_forall _ _) Hne), list_elem_of_lookup_2, He.
      - unfold before. specialize (Hat e ltac:(lia) He). lia. }
    destruct (decide (j = i - 1)%nat) as [->|]; [congruence|].
    eapply before_trans; [|done].
    eapply (sorted_lookup_lt o s j (i - 1)); eauto; lia. }
  assert (∀ y, y ∈ drop i s → before o d y) as Hafter'.
  { intros y (j & Hj)%list_elem_of_lookup. rewrite lookup_drop in Hj.
    apply (Hafter (i + j)%nat); [|done].
    apply lookup_lt_Some in Hj. lia. }
  apply sorted_unique with o.
  - apply StronglySorted_app_2; [|by apply sorted_take|].
    + intros x1 x2 H1 [->|H2]%elem_of_cons; [by apply Hbefore|].
      by eapply sorted_take_drop.
    + apply StronglySorted_cons. split; [|by apply sorted_drop].
      by apply Forall_forall.
  - by apply insertSorted_sorted.
  - rewrite insertSorted_Permutation, <- Permutation_middle.
    by rewrite take_drop.
Qed.

Lemma slice_AddNotExceedingSize_view c S d n c' removed :
  store_view o (SliceStore c) S →
  StronglySorted (before o) S →
  Forall (λ x, Compare o d x ≠ 0) S →
  (length S ≤ Z.to_nat n)%nat → 0 ≤ n →
  slice_AddNotExceedingSize c d n = (c', removed) →
  store_view o (SliceStore c') (take (Z.to_nat n) (insertSorted o d S))
  ∧ removed = insertSorted o d S !! Z.to_nat n
  ∧ slice_capacity c' = slice_capacity c.
Proof.
  intros [Hcmp <-] Hs Hne Hlen Hn. unfold slice_AddNotExceedingSize.
  pose proof (slice_add_insertSorted c d Hcmp Hs Hne) as Hadd.
  assert (length (insertSorted o d (slice c)) = S (length (slice c))) as HL.
  { by rewrite insertSorted_Permutation. }
  destruct (slice_add c d) as [s1 cap1 cmp1] eqn:E1.
  assert (cap1 = slice_capacity c ∧ cmp1 = slice_compare c) as [-> ->].
  { unfold slice_add in E1. by injection E1. }
  simpl in Hadd. subst s1. unfold slice_removeLast. simpl.
  case_decide as Hgt; rewrite HL in Hgt; intros [= <- <-]; simpl.
  - rewrite last_lookup, HL; simpl.
    replace (length (slice c) - 0)%nat with (Z.to_nat n) by lia.
    replace (length (slice c)) with (Z.to_nat n) by lia. by split_and!.
  - split_and!; [done| | |done].
    + rewrite take_ge; [done|lia].
    + symmetry. apply lookup_ge_None. lia.
Qed.

Lemma fixup_all_none (l : list DocumentMatch) : fixup_all (λ _, None) l = None.
Proof. by induction l. Qed.

Lemma slice_Final_view c S skip :
  store_view o (SliceStore c) S →
  slice_Final c skip (λ _, None) = (drop (Z.to_nat skip) S, None).
Proof.
  intros [_ <-]. unfold slice_Final. by rewrite fixup_all_none.
Qed.

End slice_facts.

(** ** The max-heap *)

#[local] Ltac Zify.zify_post_hook ::= Z.div_mod_to_equations.

Section heap_facts.
Import search collector.
Variable compare : collectorCompare.
Hypothesis compare_antisym : ∀ a b, compare b a = - compare a b.
Hypothesis compare_ge_trans :
  ∀ a b c, compare a b >= 0 → compare b c >= 0 → compare a c >= 0.

Lemma heap_Swap_length (h : list DocumentMatch) i j :
  length (heap_Swap h i j) = length h.
Proof.
  unfold heap_Swap. repeat case_match; by rewrite ?length_insert.
Qed.

Lemma heap_Swap_lookup (h : list DocumentMatch) i j a b k :
  h !! i = Some a → h !! j = Some b →
  heap_Swap h i j !! k =
    if decide (k = i) then Some b
    else if decide (k = j) then Some a else h !! k.
Proof.
  intros Hi Hj. unfold heap_Swap. rewrite Hi, Hj.
  pose proof (lookup_lt_Some _ _ _ Hi). pose proof (lookup_lt_Some _ _ _ Hj).
  destruct (decide (k = i)) as [->|].
  { by rewrite list_lookup_insert_eq by (by rewrite length_insert). }
  rewrite list_lookup_insert_ne by done.
  destruct (decide (k = j)) as [->|].
  { by rewrite list_lookup_insert_eq. }
  by rewrite list_lookup_insert_ne.
Qed.

Lemma heap_Swap_Permutation (h : list DocumentMatch) i j :
  heap_Swap h i j ≡ₚ h.
Proof.
  unfold heap_Swap. destruct (h !! i) as [a|] eqn:Hi; [|done].
  destruct (h !! j) as [b|] eqn:Hj; [|done].
  by apply Permutation_insert_swap.
Qed.

Lemma heap_Less_true (h : list DocumentMatch) i j a b :
  h !! i = Some a → h !! j = Some b →
  heap_Less compare h i j = true ↔ compare a b > 0.
Proof.
  intros Hi Hj. unfold heap_Less. rewrite Hi, Hj, bool_decide_eq_true. lia.
Qed.

Lemma heap_Less_false (h : list DocumentMatch) i j a b :
  h !! i = Some a → h !! j = Some b →
  heap_Less compare h i j = false ↔ compare b a >= 0.
Proof.
  intros Hi Hj. unfold heap_Less. rewrite Hi, Hj, bool_decide_eq_false.
  rewrite (compare_antisym a b). lia.
Qed.

Lemma compare_refl a : compare a a >= 0.
Proof. pose proof (compare_antisym a a). lia. Qed.

(** *** Sifting up *)

Lemma heap_up_ordered rounds (h : list DocumentMatch) j :
  (j < rounds)%nat → (j < length h)%nat → up_inv compare h j →
  heap_ordered compare (heap_up rounds compare h j).
Proof.
  revert h j. induction rounds as [|r IH]; intros h j Hr Hj [H1 H2]; [lia|].
  cbn [heap_up]; cbn zeta.
  set (i := ((j - 1) / 2)%nat).
  destruct (lookup_lt_is_Some_2 h j Hj) as [x Hx].
  destruct (lookup_lt_is_Some_2 h i) as [y Hy]; [lia|].
  destruct (decide (i = j)) as [Hij|Hij].
  { intros p c a b Ha Hb Hc. apply (H1 p c); auto. lia. }
  destruct (heap_Less compare h j i) eqn:HL; simpl.
  - apply heap_Less_true with (a := x) (b := y) in HL; [|done..].
    apply IH; [lia|rewrite heap_Swap_length; lia|]. split.
    + intros p c a b. rewrite !(heap_Swap_lookup h i j y x) by done.
      intros Ha Hb Hc Hci.
      rewrite decide_False in Hb by done.
      destruct (decide (c = j)) as [->|Hcj].
      { assert (p = i) as -> by lia. rewrite decide_True in Ha by done.
        simplify_eq. lia. }
      destruct (decide (p = i)) as [->|Hpi].
      { simplify_eq. apply compare_ge_trans with y; [lia|].
        by apply (H1 i c). }
      destruct (decide (p = j)) as [->|Hpj].
      { simplify_eq. apply (H2 c); [lia|done..]. }
      by apply (H1 p c).
    + intros c a b Hi0. rewrite !(heap_Swap_lookup h i j y x) by done.
      rewrite decide_False by lia. rewrite decide_False by lia.
      intros Ha Hb Hc. rewrite decide_False in Hb by lia.
      assert (compare a y >= 0) as Hay.
      { apply (H1 ((i - 1) / 2)%nat i); [done|done|lia|lia]. }
      destruct (decide (c = j)) as [->|Hcj]; [by simplify_eq|].
      apply compare_ge_trans with y; [done|]. by apply (H1 i c).
  - apply heap_Less_false with (a := x) (b := y) in HL; [|done..].
    intros p c a b Ha Hb Hc.
    destruct (decide (c = j)) as [->|Hcj]; [|by apply (H1 p c)].
    assert (p = i) as -> by lia. by simplify_eq.
Qed.

Lemma heap_up_Permutation rounds (h : list DocumentMatch) j :
  heap_up rounds compare h j ≡ₚ h.
Proof.
  revert h j. induction rounds as [|r IH]; intros h j; [done|].
  cbn [heap_up]; cbn zeta. case_decide; [done|].
  destruct (heap_Less compare h j _); simpl; [|done].
  by rewrite IH, heap_Swap_Permutation.
Qed.

Lemma heap_Push_Permutation (h : list DocumentMatch) d :
  heap_Push compare h d ≡ₚ d :: h.
Proof.
  unfold heap_Push. rewrite heap_up_Permutation.
  by rewrite Permutation_app_comm.
Qed.

Lemma heap_Push_ordered (h : list DocumentMatch) d :
  heap_ordered compare h → heap_ordered compare (heap_Push compare h d).
Proof.
  intros Hh. unfold heap_Push. rewrite length_app; simpl.
  apply heap_up_ordered; [lia|rewrite length_app; simpl; lia|].
  replace (length h + 1 - 1)%nat with (length h) by lia. split.
  - intros p c a b Ha Hb Hc Hne.
    assert (c < length h)%nat.
    { apply lookup_lt_Some in Hb. rewrite length_app in Hb; simpl in Hb. lia. }
    rewrite lookup_app_l in Ha, Hb by lia. by apply (Hh p c).
  - intros c a b _ _ Hb Hc. apply lookup_lt_Some in Hb.
    rewrite length_app in Hb; simpl in Hb. lia.
Qed.


(** *** Sifting down *)

Lemma heap_ordered_take (h : list DocumentMatch) n :
  (∀ p c a b, (c < n)%nat → h !! p = Some a → h !! c = Some b →
     (c = 2 * p + 1 ∨ c = 2 * p + 2)%nat → compare a b >= 0) →
  heap_ordered compare (take n h).
Proof.
  intros H p c a b Ha Hb Hc.
  apply lookup_take_Some in Ha as [Ha _]. apply lookup_take_Some in Hb as [Hb ?].
  by apply (H p c).
Qed.

Lemma heap_down_ordered rounds (h : list DocumentMatch) i n :
  (n - i ≤ rounds)%nat → (n ≤ length h)%nat → down_inv compare h i n →
  heap_ordered compare (take n (heap_down rounds compare h i n)).
Proof.
  revert h i. induction rounds as [|r IH]; intros h i Hr Hn [H1 H2].
  { simpl. apply heap_ordered_take. intros p c a b Hc Ha Hb Hpc.
    apply (H1 p c); auto. lia. }
  cbn [heap_down]; cbn zeta.
  destruct (decide (n ≤ 2 * i + 1)%nat) as [Hj1|Hj1].
  { apply heap_ordered_take. intros p c a b Hc Ha Hb Hpc.
    apply (H1 p c); auto. lia. }
  destruct (lookup_lt_is_Some_2 h i) as [x Hx]; [lia|].
  destruct (lookup_lt_is_Some_2 h (2 * i + 1)%nat) as [y1 Hy1]; [lia|].
  set (j := if decide (2 * i + 1 + 1 < n)%nat
            then if heap_Less compare h (2 * i + 1 + 1) (2 * i + 1)
                 then (2 * i + 1 + 1)%nat else (2 * i + 1)%nat
            else (2 * i + 1)%nat).
  assert (∃ y, h !! j = Some y ∧ (j = 2 * i + 1 ∨ j = 2 * i + 2)%nat
    ∧ (j < n)%nat
    ∧ ∀ c b, (c < n)%nat → (c = 2 * i + 1 ∨ c = 2 * i + 2)%nat →
        h !! c = Some b → compare y b >= 0) as (y & Hy & Hj & Hjn & Hmax).
  { subst j. destruct (decide (2 * i + 1 + 1 < n)%nat) as [Hj2|Hj2].
    - destruct (lookup_lt_is_Some_2 h (2 * i + 1 + 1)%nat) as [y2 Hy2];
        [lia|].
      destruct (heap_Less compare h _ _) eqn:HL.
      + apply heap_Less_true with (a := y2) (b := y1) in HL; [|done..].
        exists y2. split_and!; [done|lia|lia|].
        intros c b _ [->| ->] Hb.
        * simplify_eq. lia.
        * replace (2 * i + 2)%nat with (2 * i + 1 + 1)%nat in Hb by lia.
          simplify_eq. apply compare_refl.
      + apply heap_Less_false with (a := y2) (b := y1) in HL; [|done..].
        exists y1. split_and!; [done|lia|lia|].
        intros c b _ [->| ->] Hb.
        * simplify_eq. apply compare_refl.
        * replace (2 * i + 2)%nat with (2 * i + 1 + 1)%nat in Hb by lia.
          by simplify_eq.
    - exists y1. split_and!; [done|lia|lia|].
      intros c b Hc [->| ->] Hb; [|lia]. simplify_eq. apply compare_refl. }
  clearbody j.
  destruct (heap_Less compare h j i) eqn:HL; simpl.
  - apply heap_Less_true with (a := y) (b := x) in HL; [|done..].
    apply IH; [lia|rewrite heap_Swap_length; lia|]. split.
    + intros p c a b Hc. rewrite !(heap_Swap_lookup h i j x y) by done.
      intros Ha Hb Hpc Hpj. rewrite (decide_False (P := p = j)) in Ha by done.
      destruct (decide (p = i)) as [->|Hpi].
      { simplify_eq. rewrite decide_False in Hb by lia.
        destruct (decide (c = j)) as [->|Hcj]; [simplify_eq; lia|].
        by apply (Hmax c). }
      destruct (decide (c = i)) as [->|Hci].
      { simplify_eq. apply (H2 j); [lia|done| |done|lia].
        replace ((i - 1) / 2)%nat with p by lia. done. }
      rewrite decide_False in Hb by lia. by apply (H1 p c).
    + intros c a b Hj0 Hc. rewrite !(heap_Swap_lookup h i j x y) by done.
      replace ((j - 1) / 2)%nat with i by lia.
      rewrite decide_True by done.
      intros [= <-] Hb Hcj. rewrite !decide_False in Hb by lia.
      apply (H1 j c); auto. lia.
  - apply heap_Less_false with (a := y) (b := x) in HL; [|done..].
    apply heap_ordered_take. intros p c a b Hc Ha Hb Hpc.
    destruct (decide (p = i)) as [->|Hpi]; [|by apply (H1 p c)].
    simplify_eq. apply compare_ge_trans with y; [done|]. by apply (Hmax c).
Qed.

Lemma heap_down_length rounds (h : list DocumentMatch) i n :
  length (heap_down rounds compare h i n) = length h.
Proof.
  revert h i. induction rounds as [|r IH]; intros h i; [done|].
  cbn [heap_down]; cbn zeta. case_decide; [done|].
  destruct (heap_Less compare h _ i); simpl; [|done].
  by rewrite IH, heap_Swap_length.
Qed.

Lemma heap_down_Permutation rounds (h : list DocumentMatch) i n :
  heap_down rounds compare h i n ≡ₚ h.
Proof.
  revert h i. induction rounds as [|r IH]; intros h i; [done|].
  cbn [heap_down]; cbn zeta. case_decide; [done|].
  destruct (heap_Less compare h _ i); simpl; [|done].
  by rewrite IH, heap_Swap_Permutation.
Qed.

(** Sifting down within the first [n] entries leaves the others alone. *)
Lemma heap_down_lookup_ge rounds (h : list DocumentMatch) i n k :
  (i < n)%nat → (n ≤ k)%nat →
  heap_down rounds compare h i n !! k = h !! k.
Proof.
  revert h i. induction rounds as [|r IH]; intros h i Hi Hk; [done|].
  cbn [heap_down]; cbn zeta. case_decide as Hj1; [done|].
  match goal with |- context [heap_Less compare h ?j i] => set (jj := j) end.
  assert (i < jj < n)%nat as Hjj.
  { subst jj. repeat case_match; lia. }
  clearbody jj.
  destruct (heap_Less compare h jj i) eqn:HL; simpl; [|done].
  rewrite IH by lia. unfold heap_Swap. repeat case_match; try done.
  by rewrite !list_lookup_insert_ne by lia.
Qed.

(** The root of a heap sorts after all its entries. *)
Lemma heap_root_max (h : list DocumentMatch) m :
  heap_ordered compare h → h !! 0%nat = Some m →
  ∀ x, x ∈ h → compare m x >= 0.
Proof.
  intros Hh Hm x (k & Hk)%list_elem_of_lookup. revert x Hk.
  induction (lt_wf k) as [k _ IH]. intros x Hk.
  destruct (decide (k = 0%nat)) as [->|Hk0].
  { simplify_eq. apply compare_refl. }
  destruct (lookup_lt_is_Some_2 h ((k - 1) / 2)%nat) as [p Hp].
  { apply lookup_lt_Some in Hk. lia. }
  apply compare_ge_trans with p.
  - apply (IH ((k - 1) / 2)%nat); [lia|done].
  - apply (Hh ((k - 1) / 2)%nat k); [done|done|lia].
Qed.

Lemma heap_Pop_spec (h : list DocumentMatch) m :
  heap_ordered compare h → h !! 0%nat = Some m →
  ∃ h', heap_Pop compare h = (h', Some m)
    ∧ heap_ordered compare h' ∧ h ≡ₚ m :: h'
    ∧ ∀ x, x ∈ h → compare m x >= 0.
Proof.
  intros Hh Hm. unfold heap_Pop.
  set (n := (length h - 1)%nat).
  assert (length h = S n) as Hlen.
  { apply lookup_lt_Some in Hm. lia. }
  destruct (lookup_lt_is_Some_2 h n) as [z Hz]; [lia|].
  set (h1 := heap_Swap h 0 n).
  assert (∀ k, h1 !! k = if decide (k = 0%nat) then Some z
                         else if decide (k = n) then Some m else h !! k)
    as Hh1.
  { intros k. apply heap_Swap_lookup; done. }
  set (h2 := heap_down n compare h1 0 n).
  assert (length h2 = S n) as Hlen2.
  { subst h2 h1. by rewrite heap_down_length, heap_Swap_length. }
  assert (h2 !! n = Some m) as Hh2n.
  { destruct (decide (n = 0%nat)) as [Hn0|Hn0].
    - subst h2. rewrite Hn0. simpl. rewrite Hh1, decide_True by done.
      rewrite Hn0 in Hz. congruence.
    - subst h2. rewrite heap_down_lookup_ge by lia.
      rewrite Hh1, decide_False, decide_True by done. done. }
  exists (take n h2). split_and!.
  - by rewrite Hh2n.
  - apply heap_down_ordered; [lia|subst h1; rewrite heap_Swap_length; lia|].
    split; [|done].
    intros p c a b Hc. rewrite !Hh1. intros Ha Hb Hpc Hp0.
    rewrite !decide_False in Hb by lia.
    rewrite !decide_False in Ha by lia. by apply (Hh p c).
  - assert (h2 = take n h2 ++ [m]) as E.
    { rewrite <- (take_drop n h2) at 1. f_equal.
      apply list_eq. intros [|k]; rewrite lookup_drop, ?Nat.add_0_r.
      - done.
      - simpl. apply lookup_ge_None. lia. }
    rewrite (Permutation_cons_append (take n h2) m), <- E.
    subst h2 h1. by rewrite heap_down_Permutation, heap_Swap_Permutation.
  - by apply heap_root_max.
Qed.

End heap_facts.

(** ** The two stores hold the best entries in ranking order *)

Section store_facts.
Import search collector.
Variable o : SortOrder.

Lemma compareFrom_zero_l x i j k :
  compareFrom o x i j = 0 → compareFrom o x i k = compareFrom o x j k.
Proof.
  revert x. induction o as [|t o' IH]; intros x; simpl.
  - repeat case_decide; lia.
  - destruct (decide (bytesCompare _ _ = 0)) as [E|E].
    + apply bytesCompare_eq in E. rewrite E. intros H.
      by rewrite (IH _ H).
    + destruct (Desc t); lia.
Qed.

Lemma Compare_ge_trans a b c :
  Compare o a b >= 0 → Compare o b c >= 0 → Compare o a c >= 0.
Proof.
  intros H1 H2.
  destruct (decide (Compare o a b = 0)) as [E|E].
  { unfold Compare in *. by rewrite (compareFrom_zero_l 0 a b c E). }
  destruct (decide (Compare o b c = 0)) as [E'|E'].
  { assert (Compare o c b = 0) as E2 by (rewrite Compare_antisym; lia).
    unfold Compare in E2.
    pose proof (compareFrom_zero_l 0 c b a E2) as E3.
    fold (Compare o c a) in E3. fold (Compare o b a) in E3.
    rewrite (Compare_antisym o a c), (Compare_antisym o a b) in E3. lia. }
  pose proof (Compare_trans o c b a) as Ht.
  rewrite (Compare_antisym o b c), (Compare_antisym o a b),
    (Compare_antisym o a c) in Ht. lia.
Qed.

(** The entry that sorts after all others is the last one. *)
Lemma sorted_max_last (S : list DocumentMatch) m :
  StronglySorted (before o) S → m ∈ S →
  (∀ x, x ∈ S → Compare o m x >= 0) →
  ∃ S', S = S' ++ [m].
Proof.
  destruct S as [|z S' _] using rev_ind; [by intros _ ?%elem_of_nil|].
  intros Hs [Hm|Hm%list_elem_of_singleton]%elem_of_app Hmax.
  - pose proof (StronglySorted_app_1_elem_of _ _ _ m z Hs Hm) as Hlt.
    unfold before in Hlt. specialize (Hmax z). rewrite elem_of_app in Hmax.
    assert (Compare o m z >= 0) by (apply Hmax; right; by left).
    assert (Compare o m z < 0) by (apply Hlt; by left). lia.
  - subst. by exists S'.
Qed.

Lemma heap_pop_last (h h' S : list DocumentMatch) m :
  StronglySorted (before o) S → h ≡ₚ S → h ≡ₚ m :: h' →
  (∀ x, x ∈ h → Compare o m x >= 0) →
  S = take (length h') S ++ [m] ∧ h' ≡ₚ take (length h') S.
Proof.
  intros Hs HS Hh Hmax.
  destruct (sorted_max_last S m Hs) as [S' ->].
  { rewrite <- HS, Hh. by left. }
  { intros x Hx. apply Hmax. by rewrite HS. }
  assert (h' ≡ₚ S') as Hp.
  { apply (Permutation_cons_inv (a := m)).
    rewrite <- Hh, HS. symmetry. apply Permutation_cons_append. }
  rewrite Hp, take_app_length. by split.
Qed.

Lemma heap_AddNotExceedingSize_view c S d n c' removed :
  store_view o (HeapStore c) S →
  StronglySorted (before o) S →
  Forall (λ x, Compare o d x ≠ 0) S →
  (length S ≤ Z.to_nat n)%nat → 0 ≤ n →
  heap_AddNotExceedingSize c d n = (c', removed) →
  store_view o (HeapStore c') (take (Z.to_nat n) (insertSorted o d S))
  ∧ removed = insertSorted o d S !! Z.to_nat n
  ∧ heap_capacity c' = heap_capacity c.
Proof.
  intros (Hcmp & Hh & Hp) Hs Hne Hlen Hn. unfold heap_AddNotExceedingSize.
  rewrite Hcmp.
  pose proof (heap_Push_ordered (Compare o) (Compare_antisym o)
    Compare_ge_trans (heap c) d Hh) as Hh1.
  pose proof (heap_Push_Permutation (Compare o) (heap c) d) as Hp1.
  set (h1 := heap_Push (Compare o) (heap c) d) in *.
  set (S1 := insertSorted o d S).
  assert (h1 ≡ₚ S1) as HS1.
  { subst S1. by rewrite Hp1, insertSorted_Permutation, Hp. }
  assert (StronglySorted (before o) S1) as Hs1 by by apply insertSorted_sorted.
  assert (length h1 = Datatypes.S (length S)) as HL by by rewrite Hp1, Hp.
  case_decide as Hgt.
  - destruct (lookup_lt_is_Some_2 h1 0%nat) as [m Hm]; [lia|].
    destruct (heap_Pop_spec (Compare o) (Compare_antisym o)
      Compare_ge_trans h1 m Hh1 Hm) as (h' & -> & Hh' & Hp' & Hmax).
    intros [= <- <-]; simpl.
    destruct (heap_pop_last h1 h' S1 m Hs1 HS1 Hp' Hmax) as [E Hp2].
    assert (length h' = Z.to_nat n) as HL'.
    { apply Permutation_length in Hp'. simpl in Hp'. lia. }
    rewrite HL' in E, Hp2. split_and!; [done|done|done| |done].
    rewrite E at 1. rewrite lookup_app_r; rewrite length_take; [|lia].
    assert (length S1 = Datatypes.S (length S)) by by rewrite <- HS1.
    replace (Z.to_nat n - Z.to_nat n `min` length S1)%nat with 0%nat by lia.
    done.
  - intros [= <- <-]; simpl.
    assert (length S1 = Datatypes.S (length S)) by by rewrite <- HS1.
    rewrite take_ge by lia. split_and!; [done|done|done| |done].
    symmetry. apply lookup_ge_None. lia.
Qed.

Lemma heap_drain_spec k (h S acc : list DocumentMatch) :
  heap_ordered (Compare o) h → h ≡ₚ S → StronglySorted (before o) S →
  (k ≤ length S)%nat →
  heap_drain k (Compare o) h acc = drop (length S - k) S ++ acc.
Proof.
  revert h S acc.
  induction k as [|k IH]; intros h S acc Hh Hp Hs Hk; cbn [heap_drain].
  { by rewrite Nat.sub_0_r, drop_all. }
  destruct (lookup_lt_is_Some_2 h 0%nat) as [m Hm].
  { rewrite Hp. lia. }
  destruct (heap_Pop_spec (Compare o) (Compare_antisym o)
    Compare_ge_trans h m Hh Hm) as (h' & -> & Hh' & Hp' & Hmax).
  destruct (heap_pop_last h h' S m Hs Hp Hp' Hmax) as [E Hp2].
  set (S' := take (length h') S) in *.
  assert (length S = Datatypes.S (length S')) as HL.
  { rewrite E at 1. rewrite length_app; simpl. lia. }
  rewrite (IH h' S'); [|done|done| |lia].
  - rewrite HL, E. simpl.
    rewrite drop_app_le by lia. by rewrite <- app_assoc.
  - rewrite E in Hs. by apply StronglySorted_app in Hs as (_ & ? & _).
Qed.

Lemma heap_Final_view c S skip :
  store_view o (HeapStore c) S → StronglySorted (before o) S → 0 ≤ skip →
  heap_Final c skip (λ _, None) = (drop (Z.to_nat skip) S, None).
Proof.
  intros (Hcmp & Hh & Hp) Hs Hskip. unfold heap_Final.
  rewrite fixup_all_none, Hcmp.
  assert (length (heap c) = length S) as HL by by rewrite Hp.
  case_decide as Hsize.
  - rewrite drop_ge; [done|lia].
  - rewrite (heap_drain_spec _ _ S) by (done || lia).
    rewrite app_nil_r. do 2 f_equal. lia.
Qed.

(** The laws of the interface, for the store of either kind. *)
Lemma AddNotExceedingSize_view s S d n s' removed :
  store_view o s S →
  StronglySorted (before o) S →
  Forall (λ x, Compare o d x ≠ 0) S →
  (length S ≤ Z.to_nat n)%nat → 0 ≤ n →
  AddNotExceedingSize s d n = (s', removed) →
  store_view o s' (take (Z.to_nat n) (insertSorted o d S))
  ∧ removed = insertSorted o d S !! Z.to_nat n
  ∧ store_capacity s' = store_capacity s.
Proof.
  intros Hv Hs Hne Hlen Hn. destruct s as [c|c]; simpl.
  - destruct (slice_AddNotExceedingSize c d n) as [c' r] eqn:E.
    intros [= <- <-]. by eapply slice_AddNotExceedingSize_view.
  - destruct (heap_AddNotExceedingSize c d n) as [c' r] eqn:E.
    intros [= <- <-]. by eapply heap_AddNotExceedingSize_view.
Qed.

Lemma Final_view s S skip :
  store_view o s S → StronglySorted (before o) S → 0 ≤ skip →
  Final s skip (λ _, None) = (drop (Z.to_nat skip) S, None).
Proof.
  intros Hv Hs Hskip. destruct s as [c|c]; simpl.
  - by apply (slice_Final_view o).
  - by apply heap_Final_view.
Qed.

End store_facts.

(** ** The compare-and-store stage *)

Section compareStep_facts.
Import search collector.
Context {ext : Externals}.

Lemma insertSorted_take o d (S : list DocumentMatch) k :
  (∀ l, S !! k = Some l → before o d l) →
  take (Datatypes.S k) (insertSorted o d S) = insertSorted o d (take k S).
Proof.
  revert k. induction S as [|x S IH]; intros k Hk; simpl.
  { by destruct k. }
  destruct k as [|k]; simpl.
  - by rewrite decide_True by (by apply Hk).
  - case_decide; simpl; [done|]. f_equal. by apply IH.
Qed.

Lemma insertSorted_after o d (S : list DocumentMatch) k l :
  StronglySorted (before o) S → S !! k = Some l → before o l d →
  take (Datatypes.S k) (insertSorted o d S) = take (Datatypes.S k) S.
Proof.
  revert k. induction S as [|x S IH]; intros k Hs Hk Hl; simpl; [done|].
  assert (¬ Compare o d x < 0) as Hx.
  { intros Hdx. destruct k as [|k]; simpl in Hk.
    - simplify_eq. by eapply before_asym.
    - eapply (before_asym o d x); [done|].
      eapply before_trans; [|done].
      eapply (sorted_lookup_lt o (x :: S) 0 (Datatypes.S k)); eauto; lia. }
  rewrite decide_False by done. destruct k as [|k]; simpl.
  - done.
  - f_equal. apply IH; [|done..].
    by apply StronglySorted_inv in Hs as [? _].
Qed.

Lemma compareKeys_set_HitNumber o d a n :
  compareKeys o d (set_HitNumber n a) = compareKeys o d a.
Proof. done. Qed.

Lemma searchAfterSkips_afterCursor c0 c d n :
  sort c = sort c0 →
  searchAfter c = set_HitNumber n <$> searchAfter c0 →
  let c1 :=
    match searchAfter c with
    | Some after =>
        set_searchAfter (Some (set_HitNumber (HitNumber d) after)) c
    | None => c
    end in
  searchAfterSkips c1 d = true
  ↔ ¬ afterCursor (sort c0) (searchAfter c0) d.
Proof.
  intros Ho Ha. unfold searchAfterSkips.
  destruct (searchAfter c0) as [a|]; simpl in Ha; rewrite Ha; simpl.
  - rewrite bool_decide_eq_true, Ho. unfold compareKeys.
    change (set_HitNumber (HitNumber d) (set_HitNumber n a))
      with (set_HitNumber (HitNumber d) a). lia.
  - rewrite Ha. naive_solver.
Qed.

Lemma same_settings_refl c : same_settings c c.
Proof.
  unfold same_settings. split_and!; try done.
  destruct (searchAfter c) as [a|]; [|by exists 0].
  exists (HitNumber a). by destruct a.
Qed.

(** The stage keeps the collector as described, when the hit number of the
    match it serves is new. *)
Lemma compareStep_inv c0 seen c ctx d c' ctx' :
  collector_inv c0 seen c →
  0 ≤ int_add (size c0) (skip c0) →
  Forall (λ x, HitNumber x ≠ HitNumber d) seen →
  compareStep c ctx d = Some (c', ctx') →
  collector_inv c0 (d :: seen) c'.
Proof.
  intros [Hset (S & Hs & Hp & Hv & Hlow)] Hk Hnew.
  destruct Hset as (Hsz & Hsk & Ho & Hrev & Hbs & Hnf & Hres & Hcap & n & Ha).
  set (o := sort c0) in *. set (k := bound c0) in *.
  assert (Forall (λ x, Compare o d x ≠ 0) S) as Hne.
  { apply Forall_forall. intros x Hx E. apply Compare_zero in E.
    rewrite Hp in Hx. apply list_elem_of_filter in Hx as [_ Hx].
    by apply (proj1 (Forall_forall _ _) Hnew x Hx). }
  unfold compareStep. destruct (Err d); [done|].
  pose proof (searchAfterSkips_afterCursor c0 c d n Ho Ha) as Hskip.
  cbn zeta in Hskip.
  set (c1 := match searchAfter c with
             | Some after =>
                 set_searchAfter (Some (set_HitNumber (HitNumber d) after)) c
             | None => c
             end) in *.
  assert (same_settings c0 c1 ∧ store c1 = store c
    ∧ lowestMatchOutsideResults c1 = lowestMatchOutsideResults c)
    as (Hset1 & Hst1 & Hlow1).
  { subst c1. destruct (searchAfter c) as [a|] eqn:Ea; simpl.
    - split; [|done]. unfold same_settings; simpl. split_and!; try done.
      exists (HitNumber d). destruct (searchAfter c0) as [a0|]; [|done].
      simpl in *. simplify_eq. done.
    - split; [|done]. unfold same_settings. split_and!; try done.
      exists n. by rewrite Ea. }
  assert (size c1 = size c0 ∧ skip c1 = skip c0 ∧ sort c1 = o)
    as (Hsz1 & Hsk1 & Ho1) by (destruct Hset1 as (?&?&?&_); done).
  destruct (searchAfterSkips c1 d) eqn:Eskip.
  { (* the match is not past the cursor *)
    intros [= <- <-]. split; [done|]. exists S.
    rewrite filter_cons_False by (by apply Hskip).
    by rewrite Hst1, Hlow1. }
  assert (afterCursor o (searchAfter c0) d) as Hpast.
  { destruct (decide (afterCursor o (searchAfter c0) d)); [done|].
    apply Hskip in n0. congruence. }
  assert (insertSorted o d S
    ≡ₚ filter (afterCursor o (searchAfter c0)) (d :: seen)) as Hf.
  { by rewrite filter_cons_True, insertSorted_Permutation, Hp by done. }
  unfold lowestOutsideDrops. rewrite Hlow1, Hlow, Ho1.
  destruct (S !! k) as [l|] eqn:El.
  - assert (Compare o d l ≠ 0) as Hdl.
    { eapply (proj1 (Forall_forall _ _) Hne), list_elem_of_lookup_2, El. }
    case_bool_decide as Hcmp.
    + (* the match sorts after the lowest match outside the results *)
      intros [= <- <-]. split; [done|]. exists (insertSorted o d S); fold o k.
      assert (before o l d) as Hld.
      { apply not_before; [done|]. unfold before. lia. }
      pose proof (insertSorted_after o d S k l Hs El Hld) as Etake.
      split_and!.
      * by apply insertSorted_sorted.
      * done.
      * rewrite Hst1.
        replace (take k (insertSorted o d S))
          with (take k (take (Datatypes.S k) (insertSorted o d S)))
          by (rewrite take_take; f_equal; lia).
        rewrite Etake, take_take. by replace (k `min` Datatypes.S k)%nat with k by lia.
      * rewrite Hlow1, Hlow, <- El.
        rewrite <- (lookup_take_lt (insertSorted o d S) (Datatypes.S k) k) by lia.
        rewrite Etake, lookup_take_lt by lia. done.
    + (* the match goes into the store *)
      assert (before o d l) as Hdl' by (unfold before; lia).
      rewrite Hsz1, Hsk1, Hst1.
      destruct (AddNotExceedingSize (store c) d _) as [store' removed] eqn:Eadd.
      eapply (AddNotExceedingSize_view o) in Eadd as (Hv' & Hrem & Hcap');
        [|done|by apply sorted_take| |rewrite length_take; unfold k, bound; lia|done].
      2:{ eapply Forall_forall. intros x Hx%elem_of_take.
          destruct Hx as (j & Hj & _).
          eapply (proj1 (Forall_forall _ _) Hne), list_elem_of_lookup_2, Hj. }
      change (Z.to_nat (int_add (size c0) (skip c0))) with k in Hv', Hrem. pose proof Hrem as Hrem0.
      pose proof (insertSorted_take o d S k) as Etake.
      rewrite <- Etake in Hv', Hrem by (intros l'; rewrite El; by intros [= <-]).
      rewrite take_take in Hv'.
      replace (k `min` Datatypes.S k)%nat with k in Hv' by lia.
      rewrite lookup_take_lt in Hrem by lia.
      assert (is_Some (insertSorted o d S !! k)) as [r Hr].
      { apply lookup_lt_is_Some. rewrite insertSorted_Permutation; simpl.
        apply lookup_lt_Some in El. lia. }
      rewrite Hr in Hrem. subst removed. simpl. rewrite Hlow1, Hlow, Ho1.
      assert (before o r l) as Hrl.
      { symmetry in Hrem0. apply list_elem_of_lookup_2 in Hrem0.
        rewrite insertSorted_Permutation in Hrem0.
        apply elem_of_cons in Hrem0 as [->|(j & Hj & Hjk)%elem_of_take];
          [done|].
        by eapply (sorted_lookup_lt o S j k). }
      rewrite decide_True by done.
      intros [= <- <-]. split.
      { destruct Hset1 as (?&?&?&?&?&?&?&?&?).
        unfold same_settings; simpl. split_and!; try done. congruence. }
      exists (insertSorted o d S); simpl; fold o k.
      split_and!; try done; try (by apply insertSorted_sorted).
  - (* nothing has left the store yet *)
    rewrite Hsz1, Hsk1, Hst1.
    destruct (AddNotExceedingSize (store c) d _) as [store' removed] eqn:Eadd.
    eapply (AddNotExceedingSize_view o) in Eadd as (Hv' & Hrem & Hcap');
      [|done|by apply sorted_take| |rewrite length_take; unfold k, bound; lia|done].
    2:{ eapply Forall_forall. intros x Hx%elem_of_take.
        destruct Hx as (j & Hj & _).
        eapply (proj1 (Forall_forall _ _) Hne), list_elem_of_lookup_2, Hj. }
    change (Z.to_nat (int_add (size c0) (skip c0))) with k in Hv', Hrem.
    pose proof (insertSorted_take o d S k) as Etake.
    rewrite <- Etake in Hv', Hrem by (intros l'; by rewrite El).
    rewrite take_take in Hv'.
    replace (k `min` Datatypes.S k)%nat with k in Hv' by lia.
    rewrite lookup_take_lt in Hrem by lia.
    assert (same_settings c0 (set_store store' c1)) as Hset2.
    { destruct Hset1 as (?&?&?&?&?&?&?&?&?).
      unfold same_settings; simpl. split_and!; try done. congruence. }
    destruct removed as [r|]; simpl; [rewrite Hlow1, Hlow|].
    + intros [= <- <-]. split; [done|].
      exists (insertSorted o d S); simpl; fold o k.
      split_and!; try done; try (by apply insertSorted_sorted).
    + intros [= <- <-]. split; [done|].
      exists (insertSorted o d S); simpl; fold o k.
      split_and!; try done; try (by apply insertSorted_sorted).
      by rewrite Hlow1, Hlow.
Qed.

End compareStep_facts.

(** ** Runs of [Collect] *)

Section run_facts.
Import search collector.
Context {ext : Externals}.

Lemma docsAt_app (P : position → bool) l1 l2 : docsAt P (l1 ++ l2) = docsAt P l1 ++ docsAt P l2.
Proof. unfold docsAt. by rewrite filter_app, fmap_app. Qed.

Lemma docsAt_cons (P : position → bool) t l :
  docsAt P (t :: l) = (if P (pos t) then [doc t] else []) ++ docsAt P l.
Proof.
  unfold docsAt. rewrite filter_cons.
  destruct (P (pos t));
    [by rewrite decide_True by done|by rewrite decide_False by done].
Qed.

Lemma docsAt_insert (P : position → bool) (ts : list task) i t t' :
  ts !! i = Some t →
  (if P (pos t) then [doc t] else []) ++ docsAt P (<[i:=t']> ts)
  ≡ₚ (if P (pos t') then [doc t'] else []) ++ docsAt P ts.
Proof.
  intros Hi. pose proof (lookup_lt_Some _ _ _ Hi) as Hlt.
  rewrite (insert_take_drop ts i t') by done.
  rewrite <- (take_drop_middle ts i t Hi) at 3.
  rewrite !docsAt_app, !docsAt_cons.
  set (X := if P (pos t) then [doc t] else []).
  set (X' := if P (pos t') then [doc t'] else []).
  set (A := docsAt P (take i ts)). set (B := docsAt P (drop (S i) ts)).
  rewrite !(app_assoc _ A), (Permutation_app_comm X A),
    (Permutation_app_comm X' A), <- !app_assoc.
  f_equiv. rewrite !app_assoc. f_equiv. apply Permutation_app_comm.
Qed.

Lemma docsAt_insert_out (P : position → bool) (ts : list task) i t t' :
  ts !! i = Some t → P (pos t) = false → P (pos t') = false →
  docsAt P (<[i:=t']> ts) ≡ₚ docsAt P ts.
Proof.
  intros Hi H1 H2. pose proof (docsAt_insert P ts i t t' Hi) as H.
  by rewrite H1, H2 in H.
Qed.

Lemma docsAt_insert_in (P : position → bool) (ts : list task) i t t' :
  ts !! i = Some t → P (pos t) = false → P (pos t') = true →
  docsAt P (<[i:=t']> ts) ≡ₚ doc t' :: docsAt P ts.
Proof.
  intros Hi H1 H2. pose proof (docsAt_insert P ts i t t' Hi) as H.
  by rewrite H1, H2 in H.
Qed.

Lemma docsAt_insert_stay (P : position → bool) (ts : list task) i t t' :
  ts !! i = Some t → P (pos t) = true → P (pos t') = true →
  doc t' = doc t →
  docsAt P (<[i:=t']> ts) ≡ₚ docsAt P ts.
Proof.
  intros Hi H1 H2 Hd. pose proof (docsAt_insert P ts i t t' Hi) as H.
  rewrite H1, H2, Hd in H. by apply (Permutation_app_inv_l [doc t]).
Qed.

Lemma docsAt_insert_length (P : position → bool) (ts : list task) i t t' :
  ts !! i = Some t → P (pos t) = P (pos t') →
  length (docsAt P (<[i:=t']> ts)) = length (docsAt P ts).
Proof.
  intros Hi HP. pose proof (docsAt_insert P ts i t t' Hi) as H.
  apply Permutation_length in H. rewrite !length_app, HP in H.
  destruct (P (pos t')); simpl in H; lia.
Qed.

Lemma docsAt_length (P : position → bool) ts : (length (docsAt P ts) ≤ length ts)%nat.
Proof. unfold docsAt. rewrite length_fmap. apply length_filter. Qed.

Lemma elem_of_docsAt (P : position → bool) (ts : list task) x :
  x ∈ docsAt P ts ↔ ∃ j t, ts !! j = Some t ∧ P (pos t) = true ∧ doc t = x.
Proof.
  unfold docsAt. rewrite list_elem_of_fmap. split.
  - intros (t & -> & [Ht (j & Hj)%list_elem_of_lookup]%list_elem_of_filter).
    eauto.
  - intros (j & t & Hj & Ht & <-). exists t. split; [done|].
    apply list_elem_of_filter. split; [done|].
    by eapply list_elem_of_lookup_2.
Qed.

(** *** The parts of the invariant when a task moves on *)

Lemma hits_ok_keep (ts : list task) hn i t t' :
  hits_ok ts hn → ts !! i = Some t →
  (numbered (pos t') = true →
     numbered (pos t) = true ∧ HitNumber (doc t') = HitNumber (doc t)) →
  hits_ok (<[i:=t']> ts) hn.
Proof.
  intros [Hr Hd] Hi Hk. split.
  - intros j tj [(<- & <- & _)|[Hne Hj]]%list_lookup_insert_Some Hn.
    + destruct (Hk Hn) as [Hn' ->]. by apply (Hr i t).
    + by apply (Hr j tj).
  - intros j1 j2 t1 t2 [(<- & <- & _)|[Hne1 H1]]%list_lookup_insert_Some
      [(<- & <- & _)|[Hne2 H2]]%list_lookup_insert_Some Hne Hn1 Hn2;
      try done.
    + destruct (Hk Hn1) as [Hn' ->]. by apply (Hd i j2 t t2).
    + destruct (Hk Hn2) as [Hn' ->]. by apply (Hd j1 i t1 t).
    + by apply (Hd j1 j2 t1 t2).
Qed.

Lemma hits_ok_new (ts : list task) hn i t d p :
  hits_ok ts hn → ts !! i = Some t → numbered (pos t) = false →
  HitNumber d = hn + 1 → 0 ≤ hn →
  hits_ok (<[i:=mkTask d p]> ts) (hn + 1).
Proof.
  intros [Hr Hd] Hi Hnt Hhn Hpos. split.
  - intros j tj [(<- & <- & _)|[Hne Hj]]%list_lookup_insert_Some Hn.
    + simpl. lia.
    + specialize (Hr j tj Hj Hn). lia.
  - intros j1 j2 t1 t2 [(<- & <- & _)|[Hne1 H1]]%list_lookup_insert_Some
      [(<- & <- & _)|[Hne2 H2]]%list_lookup_insert_Some Hne Hn1 Hn2;
      try done; simpl.
    + specialize (Hr j2 t2 H2 Hn2). lia.
    + specialize (Hr j1 t1 H1 Hn1). lia.
    + by apply (Hd j1 j2 t1 t2).
Qed.

Lemma tasks_ok_insert c0 s0 (ts : list task) i t t' :
  tasks_ok c0 s0 ts → ts !! i = Some t →
  (∀ m, task_ok c0 m t → task_ok c0 m t') →
  tasks_ok c0 s0 (<[i:=t']> ts).
Proof.
  intros Hok Hi Ht j tj [(<- & <- & _)|[Hne Hj]]%list_lookup_insert_Some.
  - destruct (Hok i t Hi) as (m & Hm & Hokm). eauto.
  - by apply Hok.
Qed.

Lemma errs_ok_move (ts : list task) es i t t' :
  errs_ok ts es → ts !! i = Some t →
  (∀ e, pos t ≠ returned (Some e)) → (∀ e, pos t' ≠ returned (Some e)) →
  errs_ok (<[i:=t']> ts) es.
Proof.
  intros [H1 H2] Hi Ht Ht'. split.
  - intros j tj e [(<- & <- & _)|[Hne Hj]]%list_lookup_insert_Some Hp.
    + by destruct (Ht' e).
    + by apply (H1 j tj).
  - intros e (j & tj & Hj & Hp)%H2. exists j, tj. split; [|done].
    rewrite list_lookup_insert_ne; [done|].
    intros ->. simplify_eq. by destruct (Ht e).
Qed.

Lemma errs_ok_finish (ts : list task) es i t d e :
  errs_ok ts es → ts !! i = Some t →
  (∀ e, pos t ≠ returned (Some e)) →
  errs_ok (<[i:=mkTask d (returned (Some e))]> ts) (es ++ [e]).
Proof.
  intros [H1 H2] Hi Ht. pose proof (lookup_lt_Some _ _ _ Hi). split.
  - intros j tj e' [(<- & <- & _)|[Hne Hj]]%list_lookup_insert_Some Hp.
    + simpl in Hp. simplify_eq. apply elem_of_app. right. by left.
    + apply elem_of_app. left. by apply (H1 j tj).
  - intros e' [(j & tj & Hj & Hp)%H2|He]%elem_of_app.
    2: apply list_elem_of_singleton in He as ->.
    + exists j, tj. split; [|done]. rewrite list_lookup_insert_ne; [done|].
      intros ->. simplify_eq. by destruct (Ht e').
    + exists i, (mkTask d (returned (Some e))).
      by rewrite list_lookup_insert_eq.
Qed.

Lemma bucket_ok_keep b0 (ts : list task) b i t t' :
  bucket_ok b0 ts b → ts !! i = Some t →
  consumed (pos t') = consumed (pos t) →
  (consumed (pos t) = true → doc t' = doc t) →
  bucket_ok b0 (<[i:=t']> ts) b.
Proof.
  intros (order & Hp & ->) Hi Hc Hd. exists order. split; [|done].
  rewrite Hp. symmetry. destruct (consumed (pos t)) eqn:E.
  - by apply (docsAt_insert_stay _ _ _ t); auto.
  - by apply (docsAt_insert_out _ _ _ t).
Qed.

Lemma collector_inv_Permutation c0 seen seen' c :
  seen ≡ₚ seen' → collector_inv c0 seen c → collector_inv c0 seen' c.
Proof.
  intros Hp [Hset (S & Hs & HS & Hv & Hl)]. split; [done|].
  exists S. by rewrite <- Hp.
Qed.


Lemma docsAt_out_length (P : position → bool) (ts : list task) i t :
  ts !! i = Some t → P (pos t) = false →
  (length (docsAt P ts) < length ts)%nat.
Proof.
  intros Hi HP. pose proof (lookup_lt_Some _ _ _ Hi) as Hlt.
  rewrite <- (take_drop_middle ts i t Hi), docsAt_app, docsAt_cons, HP.
  rewrite !length_app; simpl.
  pose proof (docsAt_length P (take i ts)).
  pose proof (docsAt_length P (drop (S i) ts)). lia.
Qed.

Lemma loadDocValuesStep_settings c0 c d :
  same_settings c0 c → loadDocValuesStep c d = loadDocValuesStep c0 d.
Proof.
  intros (_ & _ & _ & _ & _ & Hnf & _). unfold loadDocValuesStep.
  by rewrite Hnf.
Qed.

Lemma loadDocValuesStep_HitNumber c d :
  HitNumber (loadDocValuesStep c d) = HitNumber d.
Proof. unfold loadDocValuesStep. by case_decide. Qed.

Lemma compareStep_Some c ctx d :
  Err d = None → is_Some (compareStep c ctx d).
Proof.
  intros He. unfold compareStep. rewrite He.
  repeat (case_match; try done); eauto.
Qed.

Lemma searcher_ok_tasks s0 r r' :
  searcher_ok s0 r → length (tasks r') = length (tasks r) →
  next r' = next r → err r' = err r → searcher r' = searcher r →
  searcher_ok s0 r'.
Proof.
  unfold searcher_ok. by intros H -> -> -> ->.
Qed.

(** *** Every event keeps the invariant *)

(** One goal for each part of [run_inv]. *)
Ltac split_run_inv :=
  split; [|split; [|split; [|split; [|split; [|split]]]]].

Section preservation.
Variables (c0 : TopNCollector) (b0 : Bucket) (s0 : Collectible).
Hypothesis bound_nonneg : 0 ≤ int_add (size c0) (skip c0).
Hypothesis hits_fit : Z.of_nat (length (pending s0)) ≤ int_max.

Lemma advance_inv i r : run_inv c0 b0 s0 r → run_inv c0 b0 s0 (advance i r).
Proof.
  intros (Hc & Hcount & Hhits & Htasks & Hbucket & Herrs & Hsearch).
  unfold advance. destruct (tasks r !! i) as [[d p]|] eqn:Hi; [|done].
  pose proof (lookup_lt_Some _ _ _ Hi) as Hlt.
  destruct (Htasks i _ Hi) as (m & Hm & Hok).
  assert (same_settings c0 (hc r)) as Hset by apply Hc.
  assert (sort (hc r) = sort c0) as Hsort by (by destruct Hset as (_&_&?&_)).
  destruct p as [| | | | | |e|]; unfold task_ok in Hok; simpl in Hok.
  - (* reads the counter, and polls the context *)
    destruct (polls i r && done r).
    + split_run_inv; simpl.
      * eapply collector_inv_Permutation; [|done].
        symmetry. by eapply docsAt_insert_out.
      * pose proof (docsAt_insert_in past_number _ i _
          (mkTask d (returned (Some Canceled))) Hi) as Hl.
        apply Permutation_length in Hl; [|done..]. simpl in Hl. lia.
      * eapply hits_ok_keep; [done..|]. done.
      * eapply tasks_ok_insert; [done..|]. done.
      * eapply bucket_ok_keep; [done..|]. done.
      * eapply errs_ok_finish; [done..|]. done.
      * eapply searcher_ok_tasks; [done|simpl|done..].
        by rewrite length_insert.
    + split_run_inv; simpl.
      * eapply collector_inv_Permutation; [|done].
        symmetry. by eapply docsAt_insert_out.
      * by erewrite docsAt_insert_length.
      * eapply hits_ok_keep; [done..|]. done.
      * eapply tasks_ok_insert; [done..|]. done.
      * eapply bucket_ok_keep; [done..|]. done.
      * eapply errs_ok_move; [done..|]; done.
      * eapply searcher_ok_tasks; [done|simpl|done..].
        by rewrite length_insert.
  - (* takes its hit number *)
    assert (int_add (hitNumber r) 1 = hitNumber r + 1) as ->.
    { apply int_add_exact.
      pose proof (docsAt_out_length past_number _ i _ Hi eq_refl).
      destruct Hsearch as (_ & ? & _). unfold int_min, int_max in *. lia. }
    split_run_inv; simpl.
    + eapply collector_inv_Permutation; [|done].
      symmetry. by eapply docsAt_insert_out.
    + pose proof (docsAt_insert_in past_number _ i _
        (mkTask (set_HitNumber (hitNumber r + 1) d) atLoadDocValues) Hi) as Hl.
      apply Permutation_length in Hl; [|done..]. simpl in Hl. lia.
    + eapply hits_ok_new; [done..|lia].
    + eapply tasks_ok_insert; [done..|]. unfold task_ok; simpl. by intros m' ->.
    + eapply bucket_ok_keep; [done..|]. done.
    + eapply errs_ok_move; [done..|]; done.
    + eapply searcher_ok_tasks; [done|simpl|done..].
      by rewrite length_insert.
  - (* the stage that loads the document values *)
    rewrite (loadDocValuesStep_settings c0) by done.
    pose proof (loadDocValuesStep_HitNumber c0 d) as Hhn.
    destruct (Err (loadDocValuesStep c0 d)) as [e|] eqn:He.
    + split_run_inv; simpl.
      * eapply collector_inv_Permutation; [|done].
        symmetry. by eapply docsAt_insert_out.
      * by erewrite docsAt_insert_length.
      * eapply hits_ok_keep; [done..|]. done.
      * eapply tasks_ok_insert; [done..|]. done.
      * eapply bucket_ok_keep; [done..|]. done.
      * eapply errs_ok_finish; [done..|]. done.
      * eapply searcher_ok_tasks; [done|simpl|done..].
        by rewrite length_insert.
    + split_run_inv; simpl.
      * eapply collector_inv_Permutation; [|done].
        symmetry. by eapply docsAt_insert_out.
      * by erewrite docsAt_insert_length.
      * eapply hits_ok_keep; [done..|]. done.
      * eapply tasks_ok_insert; [done..|]. unfold task_ok; simpl.
        intros m' Hd. rewrite Hhn. split; [|done]. by rewrite <- Hd.
      * eapply bucket_ok_keep; [done..|]. done.
      * eapply errs_ok_move; [done..|]; done.
      * eapply searcher_ok_tasks; [done|simpl|done..].
        by rewrite length_insert.
  - (* the stage that computes the sort key *)
    destruct Hok as [Hd He]. simpl in He. unfold sortStep. rewrite He, Hsort.
    split_run_inv; simpl.
    + eapply collector_inv_Permutation; [|done].
      symmetry. by eapply docsAt_insert_out.
    + by erewrite docsAt_insert_length.
    + eapply hits_ok_keep; [done..|]. done.
    + eapply tasks_ok_insert; [done..|]. unfold task_ok; simpl.
      intros m' [Hd' _]. split; [|done]. unfold hit. by rewrite <- Hd'.
    + eapply bucket_ok_keep; [done..|]. done.
    + eapply errs_ok_move; [done..|]; done.
    + eapply searcher_ok_tasks; [done|simpl|done..].
      by rewrite length_insert.
  - (* the stage that folds the match into the bucket *)
    destruct Hok as [Hd He]. simpl in He. unfold consumeStep. rewrite He.
    split_run_inv; simpl.
    + eapply collector_inv_Permutation; [|done].
      symmetry. by eapply docsAt_insert_out.
    + by erewrite docsAt_insert_length.
    + eapply hits_ok_keep; [done..|]. done.
    + eapply tasks_ok_insert; [done..|]. done.
    + destruct Hbucket as (order & Hp & ->). exists (order ++ [d]). split.
      * rewrite (docsAt_insert_in consumed _ i _ _ Hi) by done. simpl.
        rewrite <- Hp. symmetry. apply Permutation_cons_append.
      * by rewrite fold_left_app.
    + eapply errs_ok_move; [done..|]; done.
    + eapply searcher_ok_tasks; [done|simpl|done..].
      by rewrite length_insert.
  - (* the stage that compares and stores *)
    destruct Hok as [Hd He]. simpl in He.
    destruct (compareStep_Some (hc r) (searchContext r) d He)
      as [[c' ctx'] Hstep].
    rewrite Hstep. split_run_inv; simpl.
    + apply (collector_inv_Permutation _ (d :: docsAt served (tasks r))).
      { symmetry.
        by apply (docsAt_insert_in served _ i _ (mkTask d (returned None)) Hi). }
      eapply compareStep_inv; [done|done| |done].
      apply Forall_forall. intros x (j & tj & Hj & Hs & <-)%elem_of_docsAt.
      destruct Hhits as [_ Hdist].
      apply (Hdist j i tj (mkTask d atCompare)); [done|done| |by destruct (pos tj) as [| | | | | |[]|]|done].
      intros ->. simplify_eq.
    + by erewrite docsAt_insert_length.
    + eapply hits_ok_keep; [done..|]. done.
    + eapply tasks_ok_insert; [done..|]. done.
    + eapply bucket_ok_keep; [done..|]. done.
    + rewrite app_nil_r. eapply errs_ok_move; [done..|]; done.
    + eapply searcher_ok_tasks; [done|simpl|done..].
      by rewrite length_insert.
  - done.
  - done.
Qed.

Lemma spawn_inv r : run_inv c0 b0 s0 r → run_inv c0 b0 s0 (spawn r).
Proof.
  intros (Hc & Hcount & Hhits & Htasks & Hbucket & Herrs & Hsearch).
  unfold spawn. destruct (err r) eqn:Herr; [done|].
  destruct (next r) as [n|] eqn:Hnext; [|done].
  destruct Hsearch as (HP & HL & _ & _ & Hfail).
  rewrite Hnext in HP. simpl in HP.
  set (A := take (length (tasks r)) (pending s0)) in *.
  assert (length A = length (tasks r)) as HA.
  { subst A. rewrite length_take. lia. }
  clearbody A.
  assert (pending s0 !! length (tasks r) = Some n) as Hn.
  { rewrite HP, lookup_app_r, HA, Nat.sub_diag by lia. done. }
  assert (∀ P, docsAt P (tasks r ++ [mkTask n atCheckDone])
               = docsAt P (tasks r) ++ docsAt P [mkTask n atCheckDone])
    as Happ by (intros; apply docsAt_app).
  destruct (Next (searcher r)) as [[next' err'] searcher'] eqn:HNext.
  split_run_inv; simpl.
  - by rewrite Happ, app_nil_r.
  - by rewrite Happ, app_nil_r.
  - destruct Hhits as [Hr Hd]. split.
    + intros j tj [Hj|[_ Hj]]%lookup_app_Some; [by eapply Hr|].
      apply list_lookup_singleton_Some in Hj as [_ <-]. done.
    + intros j1 j2 t1 t2 [H1|[_ H1]]%lookup_app_Some
        [H2|[_ H2]]%lookup_app_Some Hne Hn1 Hn2.
      * by eapply (Hd j1 j2).
      * apply list_lookup_singleton_Some in H2 as [_ <-]. done.
      * apply list_lookup_singleton_Some in H1 as [_ <-]. done.
      * apply list_lookup_singleton_Some in H1 as [_ <-]. done.
  - intros j tj [Hj|[Hge Hj]]%lookup_app_Some; [by apply Htasks|].
    apply list_lookup_singleton_Some in Hj as [Hj <-].
    replace j with (length (tasks r)) by lia. by exists n.
  - destruct Hbucket as (order & Hp & ->). exists order.
    by rewrite Happ, app_nil_r.
  - destruct Herrs as [H1 H2]. split.
    + intros j tj e [Hj|[_ Hj]]%lookup_app_Some; [by eapply H1|].
      apply list_lookup_singleton_Some in Hj as [_ <-]. done.
    + intros e (j & tj & Hj & Hp)%H2. exists j, tj. split; [|done].
      by apply lookup_app_l_Some.
  - unfold Next in HNext. unfold searcher_ok; simpl.
    rewrite length_app; simpl.
    assert (take (length (tasks r) + 1) (pending s0) = A ++ [n]) as Htake.
    { by rewrite HP, <- HA, take_app_add'. }
    destruct (pending (searcher r)) as [|d' rest] eqn:Hpend;
      simplify_eq; simpl.
    + split_and!; try done.
      * rewrite Htake, Hpend. rewrite HP at 1. by rewrite <- app_assoc.
      * rewrite HP, length_app; simpl. lia.
    + split_and!; try done.
      * rewrite Htake. rewrite HP at 1. by rewrite <- app_assoc.
      * rewrite HP, !length_app; simpl. lia.
Qed.

Lemma step_inv e r : run_inv c0 b0 s0 r → run_inv c0 b0 s0 (step e r).
Proof.
  destruct e as [| |i]; simpl.
  - done.
  - apply spawn_inv.
  - apply advance_inv.
Qed.

Lemma exec_inv sched r : run_inv c0 b0 s0 r → run_inv c0 b0 s0 (exec sched r).
Proof.
  revert r. induction sched as [|e sched IH]; intros r Hr; [done|].
  simpl. apply IH. by apply step_inv.
Qed.

End preservation.

Lemma start_inv c aggs s :
  fresh c →
  let r0 := start c aggs s in run_inv (hc r0) (bucket r0) s r0.
Proof.
  intros (Hv & Hlow & _). unfold start.
  destruct (Next s) as [[next0 err0] s'] eqn:HNext. simpl.
  split_run_inv; simpl.
  - split; [apply same_settings_refl|]. exists []. simpl.
    split_and!; [constructor|done|by rewrite take_nil|done].
  - done.
  - unfold hits_ok; simpl. split; intros *; by rewrite lookup_nil.
  - unfold tasks_ok; simpl. intros *; by rewrite lookup_nil.
  - by exists [].
  - unfold errs_ok; simpl.
    split; [intros *; by rewrite lookup_nil|by intros ? ?%elem_of_nil].
  - unfold Next in HNext. unfold searcher_ok; simpl.
    destruct (pending s) as [|d rest] eqn:Hp; simplify_eq; simpl.
    + by split_and!.
    + split_and!; try done. lia.
Qed.

End run_facts.

(** ** What [Collect] returns *)

Section collect_facts.
Import search collector.
Context {ext : Externals}.

Lemma docsAt_all (P : position → bool) (ts : list task) :
  Forall (λ t, pos t = returned None) ts → P (returned None) = true →
  docsAt P ts = doc <$> ts.
Proof.
  intros Hall HP. induction Hall as [|t ts Ht _ IH]; [done|].
  rewrite docsAt_cons, Ht, HP, IH. done.
Qed.

Lemma distinct_hits_filter (P : DocumentMatch → Prop)
    `{∀ d, Decision (P d)} (l : list DocumentMatch) :
  distinct_hits l → distinct_hits (filter P l).
Proof.
  unfold distinct_hits. intros Hl. eapply sublist_NoDup; [done|].
  apply fmap_sublist, sublist_filter.
Qed.

Lemma filter_afterCursor_None o (l : list DocumentMatch) :
  filter (afterCursor o None) l = l.
Proof.
  induction l as [|x l IH]; [done|].
  by rewrite filter_cons_True, IH by done.
Qed.

Lemma start_settings c aggs s :
  let c0 := hc (start c aggs s) in
  size c0 = size c ∧ skip c0 = skip c ∧ sort c0 = sort c
  ∧ reverse c0 = reverse c ∧ searchAfter c0 = searchAfter c
  ∧ store c0 = store c
  ∧ lowestMatchOutsideResults c0 = lowestMatchOutsideResults c
  ∧ bucket (start c aggs s) = NewBucket "" aggs.
Proof. unfold start. by destruct (Next s) as [[??]?]. Qed.

(** The iterator that [Collect] returns: the hit numbers that the tasks took
    are the numbers from 1 to the number of matches in some order; the
    results are the matches past the cursor in ranking order, without the
    first [skip] and cut to [size] entries, reversed if [reverse] is set; and
    the bucket has consumed every match once. *)
Lemma Collect_iterator sched c aggs s it :
  fresh c → Z.of_nat (length (pending s)) ≤ int_max →
  Collect sched false c aggs s = Some (Some it, None) →
  let hns := hitNumbers sched c aggs s in
  hns ≡ₚ seqZ 1 (Z.of_nat (length (pending s)))
    ∧ let hits := zip_with (hit (hc (start c aggs s))) (pending s) hns in
      let page :=
        take (Z.to_nat (size c)) (drop (Z.to_nat (skip c))
          (sortMatches (sort c)
             (filter (afterCursor (sort c) (searchAfter c)) hits))) in
      it_results it = (if reverse c then rev page else page)
      ∧ ∃ order, order ≡ₚ hits
          ∧ it_bucket it = Finish (fold_left Consume order (NewBucket "" aggs)).
Proof.
  intros Hfresh HN. unfold Collect, hitNumbers.
  pose proof (start_settings c aggs s) as Hstart. cbn zeta in Hstart.
  destruct Hstart as (Hsz & Hsk & Ho & Hrev & Hsa & Hst & Hlo & Hb0).
  pose proof Hfresh as (Hv & Hlow & Hsize & Hskip & Hfit).
  assert (int_add (size c) (skip c) = size c + skip c) as Hk.
  { apply int_add_exact. unfold int_min, int_max in *. lia. }
  assert (run_inv (hc (start c aggs s)) (bucket (start c aggs s)) s
    (exec sched (start c aggs s))) as Hinv.
  { apply exec_inv; [rewrite Hsz, Hsk, Hk; lia|done|by apply start_inv]. }
  set (c0 := hc (start c aggs s)) in *.
  set (r := exec sched (start c aggs s)) in *. clearbody r.
  destruct Hinv as (Hc & Hcount & Hhits & Htasks & Hbucket & Herrs & Hsearch).
  unfold collectResult.
  destruct (err r) eqn:Herr; [done|]. destruct (next r) eqn:Hnext; [done|].
  destruct (forallb has_returned (tasks r)) eqn:Hret; [|done].
  destruct (errs r) eqn:Hes; [|done].
  destruct (finalizeResults (hc r)) as [c' ferr] eqn:Hfin.
  destruct ferr; [done|]. intros [= <-]. simpl.
  (* every task has returned without an error *)
  assert (Forall (λ t, pos t = returned None) (tasks r)) as Hall.
  { apply Forall_forall. intros t Ht.
    pose proof (proj1 (forallb_forall _ _) Hret t
      (proj1 (list_elem_of_In _ _) Ht)) as Hr.
    unfold has_returned in Hr.
    destruct (pos t) as [| | | | | |[e|]|] eqn:Hp; try done.
    apply list_elem_of_lookup in Ht as [i Hi].
    destruct Herrs as [He _]. specialize (He i t e Hi Hp).
    by apply elem_of_nil in He. }
  rewrite (docsAt_all served) in Hc by done.
  unfold bucket_ok in Hbucket.
  setoid_rewrite (docsAt_all consumed) in Hbucket; [|done..].
  rewrite (docsAt_all past_number) in Hcount by done.
  (* one task per match *)
  destruct Hsearch as (HP & HL & Hnone & _).
  destruct (Hnone Hnext) as [_ Hpend].
  rewrite Hnext, Hpend in HP. simpl in HP. rewrite app_nil_r in HP.
  assert (length (tasks r) = length (pending s)) as Hlen.
  { apply (f_equal length) in HP. rewrite length_take in HP. lia. }
  set (hits := doc <$> tasks r) in *.
  replace ((λ t, HitNumber (doc t)) <$> tasks r) with (HitNumber <$> hits)
    by (subst hits; by rewrite <- list_fmap_compose).
  assert (zip_with (hit c0) (pending s) (HitNumber <$> hits) = hits) as Hzip.
  { apply list_eq. intros i. rewrite lookup_zip_with. subst hits.
    rewrite !list_lookup_fmap.
    destruct (tasks r !! i) as [t|] eqn:Hi; simpl.
    - destruct (Htasks i t Hi) as (m & Hm & Hok). rewrite Hm. simpl.
      unfold task_ok in Hok.
      rewrite (proj1 (Forall_forall _ _) Hall t) in Hok
        by (by eapply list_elem_of_lookup_2).
      by destruct Hok as [<- _].
    - by destruct (pending s !! i). }
  rewrite Hzip.
  assert (distinct_hits hits) as Hdist.
  { unfold distinct_hits. apply NoDup_alt. intros i j n Hi Hj.
    subst hits. rewrite !list_lookup_fmap in Hi, Hj.
    destruct (tasks r !! i) as [ti|] eqn:Hti; [|done].
    destruct (tasks r !! j) as [tj|] eqn:Htj; [|done].
    simpl in Hi, Hj. simplify_eq.
    destruct (decide (i = j)) as [|Hne]; [done|].
    destruct Hhits as [_ Hd].
    destruct (Hd i j ti tj Hti Htj Hne); [| |done].
    - by rewrite (proj1 (Forall_forall _ _) Hall ti)
        by (by eapply list_elem_of_lookup_2).
    - by rewrite (proj1 (Forall_forall _ _) Hall tj)
        by (by eapply list_elem_of_lookup_2). }
  split_and!.
  - apply submseteq_length_Permutation.
    + apply NoDup_submseteq; [done|].
      intros n (d & -> & (t & -> & Ht)%list_elem_of_fmap)%list_elem_of_fmap.
      apply list_elem_of_lookup in Ht as [i Hi].
      destruct Hhits as [Hr _]. specialize (Hr i t Hi).
      rewrite (proj1 (Forall_forall _ _) Hall t) in Hr
        by (by eapply list_elem_of_lookup_2).
      specialize (Hr eq_refl). apply elem_of_seqZ.
      subst hits. rewrite length_fmap in Hcount. lia.
    + subst hits. rewrite length_seqZ, !length_fmap. lia.
  - destruct Hc as [Hset (S & Hs & HS & Hview & _)].
    destruct Hset as (Hsz' & Hsk' & _ & Hrev' & _).
    unfold finalizeResults in Hfin.
    rewrite (Final_view (sort c0) _ (take (bound c0) S)) in Hfin;
      [|done|by apply sorted_take|rewrite Hsk', Hsk; lia].
    injection Hfin as <-. simpl.
    rewrite Hrev', Hrev, Hsk', Hsk.
    rewrite (sorted_is_sortMatches (sort c0) S
      (filter (afterCursor (sort c0) (searchAfter c0)) hits)) by
      (done || by apply distinct_hits_filter).
    rewrite Ho, Hsa. unfold bound. rewrite Hsz, Hsk, Hk.
    rewrite take_drop_commute.
    replace (Z.to_nat (skip c) + Z.to_nat (size c))%nat
      with (Z.to_nat (size c + skip c)) by lia.
    by destruct (reverse c).
  - destruct Hbucket as (order & Hp & ->). exists order.
    by rewrite <- Hb0.
Qed.

End collect_facts.

(** ** Schedules, and the sequential run *)

Section schedule_facts.
Import search collector.
Context {ext : Externals}.

Lemma exec_app sched1 sched2 r :
  exec (sched1 ++ sched2) r = exec sched2 (exec sched1 r).
Proof. unfold exec. apply fold_left_app. Qed.

Lemma exec_Spawn sched r : exec (Spawn :: sched) r = exec sched (spawn r).
Proof. done. Qed.

Lemma exec_Advance i sched r :
  exec (Advance i :: sched) r = exec sched (advance i r).
Proof. done. Qed.

Lemma polled_Advance i sched r :
  polled (Advance i :: sched) r
  = (if polls i r then [i] else []) ++ polled sched (advance i r).
Proof. done. Qed.

Lemma polled_Spawn sched r :
  polled (Spawn :: sched) r = polled sched (spawn r).
Proof. done. Qed.

Lemma polled_app sched1 sched2 r :
  polled (sched1 ++ sched2) r
  = polled sched1 r ++ polled sched2 (exec sched1 r).
Proof.
  revert r. induction sched1 as [|e sched1 IH]; intros r; [done|].
  simpl. by rewrite IH, app_assoc.
Qed.

(** The errors in the group stay. *)
Lemma step_errs e r x : x ∈ errs r → x ∈ errs (step e r).
Proof.
  intros Hx. destruct e as [| |i]; simpl; [done| |].
  - unfold spawn. repeat case_match; done.
  - unfold advance.
    repeat case_match; simpl; try done; apply elem_of_app; by left.
Qed.

Lemma exec_errs sched r x : x ∈ errs r → x ∈ errs (exec sched r).
Proof.
  revert r. induction sched as [|e sched IH]; intros r Hx; [done|].
  simpl. by apply IH, step_errs.
Qed.

(** The error of the loop is the error of the searcher. *)
Lemma step_err s0 e r :
  failure (searcher r) = failure s0 ∧ (err r = None ∨ err r = failure s0) →
  failure (searcher (step e r)) = failure s0
  ∧ (err (step e r) = None ∨ err (step e r) = failure s0).
Proof.
  intros [Hf He]. destruct e as [| |i]; simpl; [done| |].
  - unfold spawn, Next.
    repeat case_match; simplify_eq; simpl; split; auto;
      destruct He; [left|right]; congruence.
  - unfold advance. repeat case_match; simpl; auto.
Qed.

Lemma exec_err sched c aggs s :
  let r := exec sched (start c aggs s) in
  err r = None ∨ err r = failure s.
Proof.
  cbn zeta.
  assert (∀ r, failure (searcher r) = failure s
            ∧ (err r = None ∨ err r = failure s) →
          failure (searcher (exec sched r)) = failure s
          ∧ (err (exec sched r) = None ∨ err (exec sched r) = failure s))
    as Hexec.
  { induction sched as [|e sched IH]; intros r Hr; [done|].
    simpl. by apply IH, step_err. }
  apply Hexec. unfold start, Next.
  repeat case_match; simplify_eq; simpl; split; auto.
Qed.

(** A task that polls a cancelled context returns the error of the
    context. *)
Lemma advance_cancelled i r :
  polls i r = true → done r = true → Canceled ∈ errs (advance i r).
Proof.
  intros Hp Hd. unfold advance. unfold polls in Hp.
  destruct (tasks r !! i) as [[d p]|] eqn:Hi; [|done].
  destruct p; try done. unfold polls. rewrite Hi, Hp, Hd. simpl.
  apply elem_of_app. right. by left.
Qed.

Lemma is_cancellation_MultiError es :
  Canceled ∈ es → is_cancellation (MultiError es) = true.
Proof.
  intros Hc. simpl. apply existsb_exists. exists Canceled.
  split; [by apply list_elem_of_In|done].
Qed.

(** What [Collect] returns after a task has met the cancellation. *)
Lemma Collect_cancelled sched1 sched2 i c aggs s res :
  let r := exec sched1 (start c aggs s) in
  polls i r = true → done r = true →
  Collect (sched1 ++ Advance i :: sched2) false c aggs s = Some res →
  fst res = None
  ∧ ∃ e, snd res = Some e ∧ (failure s = None → is_cancellation e = true).
Proof.
  cbn zeta. intros Hp Hd. unfold Collect.
  rewrite exec_app. simpl.
  pose proof (exec_errs sched2 _ _ (advance_cancelled i _ Hp Hd)) as Hc.
  pose proof (exec_err (sched1 ++ Advance i :: sched2) c aggs s) as He.
  cbn zeta in He. rewrite exec_app in He. simpl in He.
  set (r := exec sched2 _) in *. clearbody r.
  unfold collectResult.
  destruct (err r) as [e|] eqn:Herr.
  { intros [= <-]. simpl. split; [done|]. exists e. split; [done|].
    intros Hf. destruct He as [|He]; [done|]. congruence. }
  destruct (next r); [done|].
  destruct (forallb has_returned (tasks r)); [|done].
  destruct (errs r) as [|e0 es] eqn:Hes; [by apply elem_of_nil in Hc|].
  intros [= <-]. simpl. split; [done|]. eexists. split; [done|].
  intros _. by apply is_cancellation_MultiError.
Qed.


(** *** The sequential run *)

Lemma lookup_last_task (ts : list task) t : (ts ++ [t]) !! length ts = Some t.
Proof. by rewrite list_lookup_middle. Qed.

Lemma insert_last_task (ts : list task) t t' :
  <[length ts := t']> (ts ++ [t]) = ts ++ [t'].
Proof.
  rewrite insert_app_r_alt, Nat.sub_diag by done. done.
Qed.

(** One step of the last task, when the context is not cancelled: the
    task comes closer to returning, only the step from [atHitNumber] changes
    the counter, and the loop of [Collect] is left alone. *)
Lemma advance_last ts d p r :
  tasks r = ts ++ [mkTask d p] → done r = false → loaded (mkTask d p) →
  let r' := advance (length ts) r in
  ∃ d' p', tasks r' = ts ++ [mkTask d' p'] ∧ loaded (mkTask d' p')
    ∧ (steps_left p' ≤ steps_left p - 1)%nat
    ∧ (p = atCheckDone → p' = atHitNumber)
    ∧ (p = atHitNumber → hitNumber r' = int_add (hitNumber r) 1)
    ∧ (p ≠ atHitNumber → hitNumber r' = hitNumber r)
    ∧ done r' = false ∧ next r' = next r ∧ err r' = err r
    ∧ searcher r' = searcher r.
Proof.
  intros Hts Hdone Hl. cbn zeta. unfold advance.
  rewrite Hts, lookup_last_task. unfold loaded in Hl. simpl in Hl.
  destruct p as [| | | | | |e|]; try done.
  - rewrite Hdone, andb_false_r. eexists _, _. simpl.
    rewrite Hts, insert_last_task. split_and!; try done; simpl; lia.
  - eexists _, _. simpl.
    rewrite Hts, insert_last_task. split_and!; try done; simpl; lia.
  - destruct (Err (loadDocValuesStep (hc r) d)) eqn:He.
    + eexists _, _. simpl.
      rewrite Hts, insert_last_task. split_and!; try done; simpl; lia.
    + eexists _, _. simpl.
      rewrite Hts, insert_last_task. split_and!; try done; simpl; lia.
  - unfold sortStep. rewrite Hl. eexists _, _. simpl.
    rewrite Hts, insert_last_task. split_and!; try done; simpl; lia.
  - unfold consumeStep. rewrite Hl. eexists _, _. simpl.
    rewrite Hts, insert_last_task. split_and!; try done; simpl; lia.
  - destruct (compareStep_Some (hc r) (searchContext r) d Hl)
      as [[c' ctx'] ->].
    eexists _, _. simpl.
    rewrite Hts, insert_last_task. split_and!; try done.
  - eexists _, _. split_and!; try done; simpl; lia.
Qed.

Lemma polls_last ts d p r :
  tasks r = ts ++ [mkTask d p] → p ≠ atCheckDone →
  polls (length ts) r = false.
Proof.
  intros Hts Hp. unfold polls. rewrite Hts, lookup_last_task.
  by destruct p.
Qed.

(** Any number of further steps of the last task. *)
Lemma advance_last_n n ts d p r :
  tasks r = ts ++ [mkTask d p] → done r = false → loaded (mkTask d p) →
  p ≠ atCheckDone → p ≠ atHitNumber →
  let sched := replicate n (Advance (length ts)) in
  let r' := exec sched r in
  ∃ d' p', tasks r' = ts ++ [mkTask d' p']
    ∧ (steps_left p' ≤ steps_left p - n)%nat
    ∧ hitNumber r' = hitNumber r
    ∧ done r' = false ∧ next r' = next r ∧ err r' = err r
    ∧ searcher r' = searcher r
    ∧ polled sched r = [].
Proof.
  revert d p r. induction n as [|n IH]; intros d p r Hts Hdone Hl Hp1 Hp2.
  { cbn. eexists _, _. split_and!; try done. lia. }
  cbn zeta. simpl.
  destruct (advance_last ts d p r Hts Hdone Hl)
    as (d1 & p1 & Hts1 & Hl1 & Hsteps & _ & _ & Hhn & Hdone1 & Hn1 & He1
        & Hs1).
  specialize (Hhn Hp2).
  destruct (IH d1 p1 (advance (length ts) r) Hts1 Hdone1 Hl1)
    as (d2 & p2 & Hts2 & Hsteps2 & Hhn2 & Hdone2 & Hn2 & He2 & Hs2 & Hpo).
  { intros ->. destruct p; simpl in Hsteps; try done; lia. }
  { intros ->. destruct p; simpl in Hsteps; try done; lia. }
  exists d2, p2. rewrite (polls_last ts d p) by done.
  split_and!; try done; try congruence. lia.
Qed.


Lemma seq_inv_start c aggs s : seq_inv s 0 (start c aggs s).
Proof.
  unfold start, Next, seq_inv, loop_inv.
  destruct (pending s) as [|d rest] eqn:Hp; simpl; rewrite ?Hp; simpl.
  - split_and!; try done.
  - split_and!; done.
Qed.

(** An iteration of the loop of [Collect]. *)
Lemma spawn_loop s k r :
  loop_inv s k r → (k < length (pending s))%nat →
  ∃ d, tasks (spawn r) = tasks r ++ [mkTask d atCheckDone]
    ∧ done (spawn r) = done r ∧ hitNumber (spawn r) = hitNumber r
    ∧ next (spawn r) = pending s !! S k
    ∧ pending (searcher (spawn r)) = drop (S (S k)) (pending s)
    ∧ failure (searcher (spawn r)) = failure s
    ∧ err (spawn r) = (if decide (S k < length (pending s))%nat then None
                       else failure s).
Proof.
  intros (Hlen & Hret & Hnext & Hpend & Hfail & Herr) Hk.
  rewrite decide_True in Herr by done.
  destruct (lookup_lt_is_Some_2 (pending s) k Hk) as [d Hd].
  rewrite Hd in Hnext. exists d.
  unfold spawn, Next. rewrite Herr, Hnext, Hpend.
  assert (drop (S (S k)) (pending s) = drop 1 (drop (S k) (pending s)))
    as Hdd by (rewrite drop_drop; f_equal; lia).
  assert (pending s !! S k = drop (S k) (pending s) !! 0%nat) as Hl
    by (rewrite lookup_drop; f_equal; lia).
  assert (length (drop (S k) (pending s))
          = (length (pending s) - S k)%nat) as Hdl by apply length_drop.
  rewrite Hdd, Hl. clear Hdd Hl.
  destruct (drop (S k) (pending s)) as [|d' rest] eqn:Hdrop; simpl.
  - rewrite ?Hpend, ?Hdrop. split_and!; try done.
    rewrite decide_False; [done|]. simpl in Hdl. lia.
  - split_and!; try done.
    rewrite decide_True; [done|]. simpl in Hdl. lia.
Qed.

(** The task of match [k] in the sequential run: it polls the context when
    [k] is a multiple of [CheckDoneEvery], takes the hit number [k + 1], and
    returns. *)
Lemma seq_inv_task s k r :
  seq_inv s k r → (k < length (pending s))%nat →
  Z.of_nat (length (pending s)) ≤ int_max →
  let sched := Spawn :: replicate 6 (Advance k) in
  seq_inv s (S k) (exec sched r)
  ∧ polled sched r
    = if decide (Z.rem (Z.of_nat k) CheckDoneEvery = 0) then [k] else [].
Proof.
  intros (Hdone & Hhn & Hloop) Hk HN.
  destruct (spawn_loop s k r Hloop Hk)
    as (d & Hts1 & Hdone1 & Hhn1 & Hnext1 & Hpend1 & Hfail1 & Herr1).
  destruct Hloop as (Hlen & Hret & _). cbn zeta.
  assert (replicate 6 (Advance k)
          = Advance k :: Advance k :: replicate 4 (Advance k)) as -> by done.
  rewrite exec_Spawn, !exec_Advance, polled_Spawn, !polled_Advance.
  rewrite Hdone in Hdone1. rewrite Hhn in Hhn1.
  set (r1 := spawn r) in *. clearbody r1. rewrite <- Hlen in *.
  (* it reads the counter *)
  assert (polls (length (tasks r)) r1
          = bool_decide (Z.rem (Z.of_nat (length (tasks r))) CheckDoneEvery
                         = 0)) as Hpolls.
  { unfold polls. by rewrite Hts1, lookup_last_task, Hhn1. }
  destruct (advance_last _ _ _ r1 Hts1 Hdone1 I)
    as (d2 & p2 & Hts2 & Hl2 & _ & Hp2 & _ & Hhn2 & Hdone2 & Hnext2 & Herr2
        & Hs2).
  specialize (Hp2 eq_refl). subst p2. specialize (Hhn2 ltac:(done)).
  set (r2 := advance (length (tasks r)) r1) in *. clearbody r2.
  (* it takes its hit number *)
  destruct (advance_last _ _ _ r2 Hts2 Hdone2 Hl2)
    as (d3 & p3 & Hts3 & Hl3 & Hsteps3 & _ & Hhn3 & _ & Hdone3 & Hnext3
        & Herr3 & Hs3).
  specialize (Hhn3 eq_refl).
  rewrite (polls_last _ _ _ r2 Hts2) by done.
  set (r3 := advance (length (tasks r)) r2) in *. clearbody r3.
  simpl in Hsteps3.
  (* the stages serve it *)
  destruct (advance_last_n 4 _ _ _ r3 Hts3 Hdone3 Hl3)
    as (d4 & p4 & Hts4 & Hsteps4 & Hhn4 & Hdone4 & Hnext4 & Herr4 & Hs4
        & Hpolled).
  { intros ->. simpl in Hsteps3. lia. }
  { intros ->. simpl in Hsteps3. lia. }
  cbn zeta in *.
  set (r4 := exec (replicate 4 (Advance (length (tasks r)))) r3) in *.
  clearbody r4. split.
  - unfold seq_inv, loop_inv. rewrite Hdone4, Hhn4, Hhn3, Hhn2, Hhn1, Hts4, Hnext4,
      Hnext3, Hnext2, Hnext1, Herr4, Herr3, Herr2, Herr1, Hs4, Hs3, Hs2.
    rewrite int_add_exact by (unfold int_min, int_max in *; lia).
    rewrite length_app, forallb_app, Hret. simpl.
    split_and!; try done; try lia.
    unfold has_returned. simpl.
    destruct p4; simpl in Hsteps4; try done; lia.
  - rewrite Hpolls, Hpolled, decide_bool_decide. cbn [app]. apply app_nil_r.
Qed.


Lemma sequential_S n :
  sequential (S n) = sequential n ++ Spawn :: replicate 6 (Advance n).
Proof.
  unfold sequential. rewrite seq_S, flat_map_app. cbn [flat_map].
  by rewrite app_nil_r.
Qed.

(** The sequential run of the first [n] matches polls the context in the
    tasks whose number is a multiple of [CheckDoneEvery]. *)
Lemma seq_inv_sequential c aggs s n :
  (n ≤ length (pending s))%nat → Z.of_nat (length (pending s)) ≤ int_max →
  seq_inv s n (exec (sequential n) (start c aggs s))
  ∧ polled (sequential n) (start c aggs s)
    = filter (λ k, Z.rem (Z.of_nat k) CheckDoneEvery = 0) (seq 0 n).
Proof.
  intros Hn HN. induction n as [|n IH].
  { split; [apply seq_inv_start|done]. }
  destruct IH as [Hinv Hpolled]; [lia|].
  rewrite sequential_S, seq_S, filter_app, exec_app, polled_app, Hpolled.
  change (0 + n)%nat with n.
  destruct (seq_inv_task s n _ Hinv) as [Hinv' ->]; [lia|done|].
  split; [done|]. by f_equal.
Qed.

(** The sequential run lets [Collect] return. *)
Lemma Collect_sequential c aggs s :
  Z.of_nat (length (pending s)) ≤ int_max →
  is_Some (Collect (sequential (length (pending s))) false c aggs s).
Proof.
  intros HN.
  destruct (seq_inv_sequential c aggs s (length (pending s))) as [Hinv _];
    [done..|].
  destruct Hinv as (_ & _ & _ & Hret & Hnext & _ & _ & Herr).
  rewrite decide_False in Herr by lia.
  rewrite lookup_ge_None_2 in Hnext by done.
  unfold Collect, collectResult. rewrite Herr, Hnext, Hret.
  destruct (failure s); [done|].
  destruct (errs _); [|done].
  destruct (finalizeResults _) as [c' [e|]]; done.
Qed.

(** *** The run after a cancellation *)

Lemma cancelled_inv_task s h k r :
  cancelled_inv s h k r → Z.rem h CheckDoneEvery = 0 →
  (k < length (pending s))%nat →
  cancelled_inv s h (S k) (advance k (spawn r)).
Proof.
  intros (Hdone & Hhn & Hloop) Hh Hk.
  destruct (spawn_loop s k r Hloop Hk)
    as (d & Hts1 & Hdone1 & Hhn1 & Hnext1 & Hpend1 & Hfail1 & Herr1).
  destruct Hloop as (Hlen & Hret & _).
  rewrite Hdone in Hdone1. rewrite Hhn in Hhn1.
  set (r1 := spawn r) in *. clearbody r1. rewrite <- Hlen in *.
  assert (polls (length (tasks r)) r1 = true) as Hpolls.
  { unfold polls. rewrite Hts1, lookup_last_task, Hhn1.
    by apply bool_decide_eq_true_2. }
  unfold advance. rewrite Hts1, lookup_last_task, Hpolls, Hdone1.
  unfold cancelled_inv, loop_inv, finish. simpl.
  rewrite Hts1, insert_last_task, length_app, forallb_app, Hret. simpl.
  split_and!; try done. lia.
Qed.

Lemma abandoned_S k n :
  abandoned k (S n) = Spawn :: Advance k :: abandoned (S k) n.
Proof. done. Qed.

Lemma cancelled_inv_abandoned s h n k r :
  cancelled_inv s h k r → Z.rem h CheckDoneEvery = 0 →
  (k + n ≤ length (pending s))%nat →
  cancelled_inv s h (k + n) (exec (abandoned k n) r).
Proof.
  revert k r. induction n as [|n IH]; intros k r Hinv Hh Hk.
  { by rewrite Nat.add_0_r. }
  rewrite abandoned_S, exec_Spawn, exec_Advance.
  replace (k + S n)%nat with (S k + n)%nat by lia.
  apply IH; [|done|lia]. apply cancelled_inv_task; [done..|lia].
Qed.

(** When the context is cancelled before the task of match [k] polls it, no
    further match is collected and [Collect] returns. *)
Lemma Collect_abandoned c aggs s k :
  Z.of_nat (length (pending s)) ≤ int_max →
  (k < length (pending s))%nat → Z.rem (Z.of_nat k) CheckDoneEvery = 0 →
  ∃ e, Collect (sequential k ++ Cancel :: abandoned k (length (pending s) - k))
         false c aggs s = Some (None, Some e)
       ∧ (failure s = None → is_cancellation e = true).
Proof.
  intros HN Hk Hrem.
  destruct (seq_inv_sequential c aggs s k) as [Hinv _]; [lia|done|].
  set (sched := sequential k ++ _).
  assert (is_Some (Collect sched false c aggs s)) as [res Hres].
  { subst sched. unfold Collect. rewrite exec_app.
    set (r := exec (sequential k) _) in *. clearbody r.
    assert (cancelled_inv s (Z.of_nat k) k (step Cancel r)) as Hc.
    { destruct Hinv as (_ & Hhn & Hloop). by split_and!. }
    apply (cancelled_inv_abandoned _ _ (length (pending s) - k)) in Hc;
      [|done|lia].
    replace (k + (length (pending s) - k))%nat with (length (pending s))
      in Hc by lia.
    destruct Hc as (_ & _ & _ & Hret & Hnext & _ & _ & Herr).
    rewrite decide_False in Herr by lia.
    rewrite lookup_ge_None_2 in Hnext by done.
    change (exec (Cancel :: ?l) r) with (exec l (step Cancel r)).
    unfold collectResult. rewrite Herr, Hnext, Hret.
    destruct (failure s); [done|].
    destruct (errs _); [|done].
    destruct (finalizeResults _) as [c' [e|]]; done. }
  destruct (length (pending s) - k)%nat as [|m] eqn:Hm; [lia|].
  assert (sched = (sequential k ++ [Cancel; Spawn])
                  ++ Advance k :: abandoned (S k) m) as Hsched.
  { subst sched. by rewrite abandoned_S, <- app_assoc. }
  pose proof Hres as Hres'. rewrite Hsched in Hres'.
  apply Collect_cancelled in Hres' as (Hit & e & He & Hcanc).
  - exists e. rewrite Hres. destruct res as [it oe]. simpl in *.
    by subst.
  - rewrite exec_app.
    set (r := exec (sequential k) _) in *. clearbody r.
    destruct Hinv as (Hdone & Hhn & Hloop).
    assert (loop_inv s k (step Cancel r)) as Hloop' by done.
    destruct (spawn_loop s k _ Hloop') as (d & Hts1 & _ & Hhn1 & _); [lia|].
    change (exec [Cancel; Spawn] r) with (spawn (step Cancel r)).
    unfold polls. destruct Hloop as (Hlen & _).
    change (tasks (step Cancel r)) with (tasks r) in Hts1.
    rewrite Hts1, <- Hlen, lookup_last_task, Hhn1. simpl.
    rewrite Hhn, <- Hlen in *. by apply bool_decide_eq_true_2.
  - rewrite exec_app.
    set (r := exec (sequential k) _) in *. clearbody r.
    assert (loop_inv s k (step Cancel r)) as Hloop'
      by (by destruct Hinv as (_ & _ & ?)).
    destruct (spawn_loop s k _ Hloop') as (d & _ & Hd1 & _); [lia|].
    change (exec [Cancel; Spawn] r) with (spawn (step Cancel r)).
    by rewrite Hd1.
Qed.

End schedule_facts.

(** ** Runs in which nothing fails *)

Section clean_facts.
Import search collector.
Context {ext : Externals}.
Hypothesis loads : ∀ d fields, LoadDocumentValues d fields = None.

Lemma loadDocValuesStep_Err hc d :
  Err d = None → Err (loadDocValuesStep hc d) = None.
Proof.
  intros He. unfold loadDocValuesStep. case_decide; [|done].
  simpl. apply loads.
Qed.

Lemma clean_insert (ts : list task) i t :
  Forall (λ t, Err (doc t) = None ∧ ∀ e, pos t ≠ returned (Some e)) ts →
  Err (doc t) = None → (∀ e, pos t ≠ returned (Some e)) →
  Forall (λ t, Err (doc t) = None ∧ ∀ e, pos t ≠ returned (Some e))
    (<[i := t]> ts).
Proof. intros Hts He Hp. by apply Forall_insert. Qed.

Lemma advance_clean i r : clean r → clean (advance i r).
Proof.
  intros Hclean. pose proof Hclean as (Hdone & Hts & Hpend & Hnext).
  unfold advance. destruct (tasks r !! i) as [[d p]|] eqn:Hi; [|done].
  destruct (proj1 (Forall_lookup _ _) Hts i _ Hi) as [He Hp].
  simpl in He, Hp.
  destruct p as [| | | | | |e|]; try done.
  - rewrite Hdone, andb_false_r. unfold clean. simpl.
    split_and!; try done. by apply clean_insert.
  - unfold clean. simpl. split_and!; try done. by apply clean_insert.
  - rewrite loadDocValuesStep_Err by done. unfold clean. simpl.
    split_and!; try done.
    apply clean_insert; [done| |done]. by apply loadDocValuesStep_Err.
  - unfold sortStep. rewrite He. unfold clean. simpl.
    split_and!; try done. by apply clean_insert.
  - unfold consumeStep. rewrite He. unfold clean. simpl.
    split_and!; try done. by apply clean_insert.
  - destruct (compareStep_Some (hc r) (searchContext r) d He) as [[c ctx] ->].
    unfold clean. simpl. split_and!; try done. by apply clean_insert.
Qed.

Lemma spawn_clean r : clean r → clean (spawn r).
Proof.
  intros Hclean. pose proof Hclean as (Hdone & Hts & Hpend & Hnext).
  unfold spawn. destruct (err r); [done|]. destruct (next r) as [n|] eqn:Hn; [|done].
  unfold Next. destruct (pending (searcher r)) as [|d rest] eqn:Hp.
  - unfold clean. simpl. rewrite Hp. split_and!; try done.
    apply Forall_app. split; [done|]. apply Forall_singleton.
    split; [by apply Hnext|done].
  - apply Forall_cons in Hpend as [Hd Hrest]. unfold clean. simpl.
    split_and!; try done.
    + apply Forall_app. split; [done|]. apply Forall_singleton.
      split; [by apply Hnext|done].
    + by intros ? [= <-].
Qed.

Lemma exec_clean sched r :
  Forall (λ e, e ≠ Cancel) sched → clean r → clean (exec sched r).
Proof.
  intros Hsched. revert r.
  induction Hsched as [|e sched He _ IH]; intros r Hr; [done|].
  simpl. apply IH. destruct e; [done|by apply spawn_clean|].
  by apply advance_clean.
Qed.

Lemma start_clean c aggs s :
  Forall (λ d, Err d = None) (pending s) → clean (start c aggs s).
Proof.
  intros Hs. unfold start, Next.
  destruct (pending s) as [|d rest] eqn:Hp; unfold clean; simpl.
  - rewrite Hp. by split_and!.
  - apply Forall_cons in Hs as [Hd Hrest]. split_and!; try done.
    by intros ? [= <-].
Qed.

Lemma sequential_no_Cancel n : Forall (λ e, e ≠ Cancel) (sequential n).
Proof.
  unfold sequential. apply Forall_flat_map, Forall_forall.
  intros i _. apply Forall_cons. split; [done|].
  by apply Forall_replicate.
Qed.

(** When the searcher and the loading of document values do not fail, the
    sequential run lets [Collect] return an iterator. *)
Lemma Collect_sequential_iterator c aggs s :
  fresh c → Z.of_nat (length (pending s)) ≤ int_max →
  failure s = None → Forall (λ d, Err d = None) (pending s) →
  ∃ it, Collect (sequential (length (pending s))) false c aggs s
        = Some (Some it, None).
Proof.
  intros Hfresh HN Hfail Hs. unfold Collect.
  destruct (seq_inv_sequential c aggs s (length (pending s))) as [Hinv _];
    [done..|].
  pose proof (exec_clean _ _ (sequential_no_Cancel (length (pending s)))
                (start_clean c aggs s Hs)) as (_ & Hclean & _).
  pose proof (start_settings c aggs s) as Hstart. cbn zeta in Hstart.
  destruct Hstart as (Hsz & Hsk & Ho & _).
  pose proof Hfresh as (_ & _ & Hsize & Hskip & Hfit).
  assert (int_add (size c) (skip c) = size c + skip c) as Hk.
  { apply int_add_exact. unfold int_min, int_max in *. lia. }
  assert (run_inv (hc (start c aggs s)) (bucket (start c aggs s)) s
    (exec (sequential (length (pending s))) (start c aggs s))) as Hrun.
  { apply exec_inv; [rewrite Hsz, Hsk, Hk; lia|done|by apply start_inv]. }
  set (c0 := hc (start c aggs s)) in *.
  set (r := exec _ (start c aggs s)) in *. clearbody r.
  destruct Hinv as (_ & _ & _ & Hret & Hnext & _ & _ & Herr).
  rewrite decide_False, Hfail in Herr by lia.
  rewrite lookup_ge_None_2 in Hnext by done.
  destruct Hrun as ([Hset (S & HS & _ & Hv & _)] & _ & _ & _ & _ & [_ Herrs]
                    & _).
  destruct Hset as (_ & Hsk' & Ho' & _).
  unfold collectResult. rewrite Herr, Hnext, Hret.
  destruct (errs r) as [|e es].
  - unfold finalizeResults.
    rewrite (Final_view (sort c0) _ (take (bound c0) S));
      [by destruct (reverse (hc r)); eexists|done|by apply sorted_take|lia].
  - destruct (Herrs e) as (i & t & Hi & Hp); [by left|].
    destruct (proj1 (Forall_lookup _ _) Hclean i t Hi) as [_ Hne].
    by destruct (Hne e).
Qed.

End clean_facts.

(** ** The search over several readers *)

Lemma Next_pending (s : Collectible) :
  Next s
  = match pending s with
    | d :: rest => (Some d, None, mkCollectible rest (failure s))
    | [] => (None, failure s, s)
    end.
Proof. done. Qed.

Section multisearch_facts.
Import bluge.
Context {ext : Externals}.

Lemma fetch_outstanding cc s :
  outstanding cc (fetch cc s) = output cc (pending s).
Proof.
  unfold fetch. rewrite Next_pending.
  destruct (pending s) as [|dm rest]; simpl.
  { by destruct (failure s). }
  destruct (decide _); [|done].
  by destruct (LoadDocumentValues dm (NeededFields cc)).
Qed.

Lemma fetch_exited cc s e :
  fetch cc s = exited e → output cc (pending s) = [].
Proof. intros Hf. by rewrite <- fetch_outstanding, Hf. Qed.

Lemma concat_fmap_insert {A B} (f : A → list B) (l : list A) k x y :
  l !! k = Some x →
  f x ++ concat (f <$> <[k := y]> l) ≡ₚ f y ++ concat (f <$> l).
Proof.
  intros Hk. rewrite <- (take_drop_middle l k x Hk) at 2.
  rewrite insert_take_drop by (by eapply lookup_lt_Some).
  rewrite !fmap_app, !fmap_cons, !concat_app, !concat_cons.
  rewrite !(Permutation_app_swap_app _ (concat (f <$> take k l))).
  f_equiv. by rewrite !app_assoc, (Permutation_app_comm (f x)).
Qed.

Lemma filter_insert_length {A} (P : A → Prop) `{∀ x, Decision (P x)}
    (l : list A) k x y :
  l !! k = Some x →
  (length (filter P (<[k := y]> l)) + (if decide (P x) then 1 else 0)
   = length (filter P l) + (if decide (P y) then 1 else 0))%nat.
Proof.
  intros Hk. rewrite <- (take_drop_middle l k x Hk) at 2.
  rewrite insert_take_drop by (by eapply lookup_lt_Some).
  rewrite !filter_app, !filter_cons, !length_app.
  destruct (decide (P x)), (decide (P y)); simpl; lia.
Qed.

Lemma running_exited st k g :
  running st = 0%nat → goroutines st !! k = Some g → is_running g = false.
Proof.
  unfold running. intros Hr Hk.
  destruct (is_running g) eqn:Hg; [|done].
  apply nil_length_inv in Hr.
  assert (g ∈ filter (λ g, is_running g = true) (goroutines st)) as Hin.
  { apply list_elem_of_filter. split; [done|].
    by eapply list_elem_of_lookup_2. }
  rewrite Hr in Hin. by apply elem_of_nil in Hin.
Qed.


Lemma NewMultiSearcherList_inv ss cc st :
  NewMultiSearcherList ss cc = Some st → msl_inv ss st ∧ bluge.cc st = cc.
Proof.
  unfold NewMultiSearcherList. destruct (contextSize _ _); [|done].
  intros [= <-]. split; [|done]. unfold msl_inv, running. simpl.
  rewrite drop_0. split_and!; try done; try lia.
  intros _ e He. by apply elem_of_nil in He.
Qed.

Lemma msl_go_inv ss st : msl_inv ss st → msl_inv ss (go st).
Proof.
  intros (Hs & Hcap & Hbuf & Hrun & Hi & HiN & Hcons & Hclosed & Hlog
          & Hended & Herr1 & Herr2).
  unfold go. rewrite Hs.
  destruct (ss !! i st) as [s|] eqn:Hlook; [|by split_and!].
  destruct (decide _) as [Hlim|]; [|by split_and!].
  apply lookup_lt_Some in Hlook as Hlt.
  assert (closed (docChan (m st)) = false) as Hopen.
  { destruct (closed _); [|done]. destruct Hclosed; [done|lia]. }
  unfold msl_inv, running in *. simpl.
  rewrite filter_app, !length_app, fmap_app, concat_app. simpl.
  rewrite Hopen in *. split_and!; try done; try lia.
  - rewrite <- Hcons, (drop_S _ _ _ Hlook), fmap_cons, concat_cons.
    rewrite app_nil_r, <- !app_assoc. done.
  - intros e He. apply elem_of_app. left. by apply Herr1.
  - intros He e [Hin|Hin]%elem_of_app; [by eapply Herr2|].
    by apply list_elem_of_singleton in Hin.
Qed.


Lemma elem_of_insert_inv {A} (l : list A) k y z :
  z ∈ <[k := y]> l → z = y ∨ z ∈ l.
Proof.
  intros [j Hj]%list_elem_of_lookup.
  apply list_lookup_insert_Some in Hj as [(_ & -> & _)|[_ Hj]]; [by left|].
  right. by eapply list_elem_of_lookup_2.
Qed.

Lemma elem_of_insert_other {A} (l : list A) k x y z :
  l !! k = Some x → z ≠ x → z ∈ l → z ∈ <[k := y]> l.
Proof.
  intros Hk Hne [j Hj]%list_elem_of_lookup.
  apply list_elem_of_lookup. exists j.
  rewrite list_lookup_insert_ne; [done|]. intros ->. congruence.
Qed.

(** A running goroutine goes on, sending the matches [sent]. *)
Lemma msl_move_inv ss st k g g' sent :
  msl_inv ss st → goroutines st !! k = Some g → is_running g = true →
  outstanding (cc st) g = sent ++ outstanding (cc st) g' →
  (length (buffer (docChan (m st)) ++ sent) ≤ cap (docChan (m st)))%nat →
  msl_inv ss
    (set_docChan
       (mkChan (buffer (docChan (m st)) ++ sent) (cap (docChan (m st)))
          (closed (docChan (m st))))
       (set_goroutine k g' st)).
Proof.
  intros (Hs & Hcap & Hbuf & Hrun & Hi & HiN & Hcons & Hclosed & Hlog
          & Hended & Herr1 & Herr2) Hk Hg Hout Hlen.
  assert (closed (docChan (m st)) = false) as Hopen.
  { destruct (closed _); [|done]. destruct Hclosed as [_ Hr]; [done|].
    by rewrite (running_exited st k g Hr Hk) in Hg. }
  pose proof (filter_insert_length (λ g, is_running g = true)
                (goroutines st) k g g' Hk) as Hfilter.
  rewrite decide_True in Hfilter by done.
  pose proof (concat_fmap_insert (outstanding (cc st)) (goroutines st) k g g'
                Hk) as Hconcat.
  rewrite Hout, <- app_assoc in Hconcat.
  rewrite (Permutation_app_comm sent) in Hconcat.
  rewrite <- app_assoc in Hconcat. apply Permutation_app_inv_l in Hconcat.
  assert (∀ e, g ≠ exited e) as Hne by (by intros e ->).
  unfold msl_inv, running in *. simpl. rewrite Hopen in *.
  rewrite length_insert. split_and!; try done.
  - destruct (decide (is_running g' = true)); lia.
  - rewrite <- Hcons, <- !app_assoc. do 2 f_equiv.
    rewrite <- Hconcat, <- app_assoc. apply Permutation_app_swap_app.
  - intros He. by destruct Hended.
  - intros e He. destruct (err st) as [e0|] eqn:Herr.
    + injection He as <-. eapply elem_of_insert_other; eauto.
    + destruct g' as [| |[e'|]]; try done. injection He as <-.
      apply list_elem_of_lookup. exists k.
      apply list_lookup_insert_eq. by eapply lookup_lt_Some.
  - intros He e [<-|Hin]%elem_of_insert_inv.
    + by destruct (err st).
    + destruct (err st) eqn:Herr; [by destruct g' as [| |[|]]|].
      by eapply Herr2.
Qed.

Lemma msl_work_inv ss k st : msl_inv ss st → msl_inv ss (work k st).
Proof.
  intros Hinv. unfold work.
  destruct (goroutines st !! k) as [[s|s dm|e]|] eqn:Hk; try done.
  - assert (msl_inv ss
              (set_docChan
                 (mkChan (buffer (docChan (m st)) ++ [])
                    (cap (docChan (m st))) (closed (docChan (m st))))
                 (set_goroutine k (fetch (cc st) s) st))) as Hmove.
    { apply (msl_move_inv ss st k (atNext s)); try done.
      - by rewrite fetch_outstanding.
      - rewrite app_nil_r. apply Hinv. }
    unfold msl_inv, running in *. simpl in *.
    by rewrite app_nil_r in Hmove.
  - unfold send. destruct (decide _) as [Hroom|]; [|done].
    apply (msl_move_inv ss st k (atSend s dm) (atNext s) [dm]); try done.
    rewrite length_app. simpl. lia.
Qed.

Lemma msl_wait_inv ss st : msl_inv ss st → msl_inv ss (wait st).
Proof.
  intros Hinv. unfold wait.
  destruct (decide _) as [(Hi' & Hr & Hopen)|]; [|done].
  destruct Hinv as (Hs & Hcap & Hbuf & Hrun & Hi & HiN & Hcons & Hclosed
                    & Hlog & Hended & Herr1 & Herr2).
  unfold msl_inv, running in *. simpl. rewrite Hopen in *. rewrite Hs in *.
  rewrite Hlog. split_and!; try done.
  intros He. by destruct Hended.
Qed.

Lemma msl_callNext_inv ss st : msl_inv ss st → msl_inv ss (callNext st).
Proof.
  intros Hinv. unfold callNext, Next, recv.
  destruct (ended st) eqn:Hend; [done|].
  pose proof Hinv as (Hs & Hcap & Hbuf & Hrun & Hi & HiN & Hcons & Hclosed
                      & Hlog & Hended & Herr1 & Herr2).
  destruct (buffer (docChan (m st))) as [|dm rest] eqn:Hb.
  - destruct (closed (docChan (m st))) eqn:Hc; [|done].
    unfold msl_inv, running in *. simpl. rewrite Hb, Hc in *.
    by split_and!.
  - unfold msl_inv, running in *. simpl in *.
    split_and!; try done; try lia.
    rewrite <- Hcons, <- !app_assoc. done.
Qed.

Lemma msl_step_inv ss e st : msl_inv ss st → msl_inv ss (step e st).
Proof.
  destruct e; simpl;
    [apply msl_go_inv|apply msl_work_inv|apply msl_wait_inv|apply msl_callNext_inv].
Qed.

Lemma msl_exec_inv ss sched st : msl_inv ss st → msl_inv ss (exec sched st).
Proof.
  revert st. induction sched as [|e sched IH]; intros st Hinv; [done|].
  apply IH. by apply msl_step_inv.
Qed.

Lemma msl_step_cc e st : cc (step e st) = cc st.
Proof.
  destruct e; simpl.
  - unfold go. by repeat case_match.
  - unfold work, set_docChan, set_goroutine. by repeat case_match.
  - unfold wait. by case_match.
  - unfold callNext. by repeat case_match.
Qed.

Lemma msl_exec_cc sched st : cc (exec sched st) = cc st.
Proof.
  revert st. induction sched as [|e sched IH]; intros st; [done|].
  simpl. by rewrite IH, msl_step_cc.
Qed.


Lemma running_0 st :
  running st = 0%nat ↔ Forall (λ g, is_running g = false) (goroutines st).
Proof.
  unfold running. split.
  - intros Hr. apply Forall_lookup. intros k g Hk.
    by apply (running_exited st k g).
  - intros Hall. induction Hall as [|g gs Hg _ IH]; [done|].
    rewrite filter_cons, decide_False; [done|]. by rewrite Hg.
Qed.

Lemma outstanding_exited cc gs :
  Forall (λ g, is_running g = false) gs →
  concat (outstanding cc <$> gs) = [].
Proof.
  induction 1 as [|g gs Hg _ IH]; [done|].
  rewrite fmap_cons, concat_cons, IH. by destruct g.
Qed.

(** When [Next] has returned [nil], the collector has seen the matches that
    the goroutines of all searchers send. *)
Lemma stream_delivered ss st s :
  msl_inv ss st → stream st = Some s →
  failure s = None ∧ pending s ≡ₚ concat (sends (cc st) <$> ss).
Proof.
  intros (Hs & Hcap & Hbuf & Hrun & Hi & HiN & Hcons & Hclosed & Hlog
          & Hended & Herr1 & Herr2).
  unfold stream. destruct (ended st); [|done]. intros [= <-].
  split; [done|]. simpl.
  destruct Hended as [Hc Hb]; [done|].
  destruct (Hclosed Hc) as [HiN' Hr]. apply running_0 in Hr.
  rewrite Hb, HiN', drop_all, outstanding_exited in Hcons by done.
  simpl in Hcons. by rewrite app_nil_r in Hcons.
Qed.

(** *** The sequential run of the list *)

Lemma msl_exec_app sched1 sched2 st :
  exec (sched1 ++ sched2) st = exec sched2 (exec sched1 st).
Proof. unfold exec. apply fold_left_app. Qed.

Lemma lookup_last_goroutine (gs : list goroutine) g :
  (gs ++ [g]) !! length gs = Some g.
Proof. by rewrite list_lookup_middle. Qed.

Lemma insert_last_goroutine (gs : list goroutine) g g' :
  <[length gs := g']> (gs ++ [g]) = gs ++ [g'].
Proof. rewrite insert_app_r_alt, Nat.sub_diag by done. done. Qed.

(** The goroutine fetches a match and sends it, and the collector takes
    it. *)
Lemma serving_match ss c k s s' dm dl st :
  serving ss c k s dl st → ss ≠ [] → fetch c s = atSend s' dm →
  serving ss c k s' (dl ++ [dm]) (exec [Work k; Work k; CallNext] st).
Proof.
  intros (Hs & Hc & Hcap & Hbuf & Hopen & Hend & Hi & (gs & Hgs & Hlen & Hex)
          & Hdl) Hss Hfetch.
  assert (0 < length ss)%nat as HN by (destruct ss; [done|simpl; lia]).
  subst k. unfold exec. cbn [fold_left step].
  unfold work at 2. rewrite Hgs, lookup_last_goroutine, Hc, Hfetch.
  unfold work. cbn [set_goroutine goroutines m].
  rewrite Hgs, insert_last_goroutine, lookup_last_goroutine.
  unfold send. rewrite Hbuf, Hcap.
  rewrite decide_True by (simpl; lia).
  unfold callNext, Next, recv. simpl. rewrite Hend. simpl.
  unfold serving. simpl.
  rewrite Hgs, !insert_last_goroutine, Hdl.
  split_and!; try done. by exists gs.
Qed.

(** The goroutine sends all its matches. *)
Lemma serving_matches ss c k s dl st :
  serving ss c k s dl st → ss ≠ [] →
  ∃ s', serving ss c k s' (dl ++ output c (pending s))
          (exec (concat (replicate (length (output c (pending s)))
                           [Work k; Work k; CallNext])) st)
        ∧ output c (pending s') = [].
Proof.
  intros Hserving Hss.
  remember (pending s) as l eqn:Hl. revert s dl st Hl Hserving.
  induction l as [|dm rest IH]; intros s dl st Hl Hserving.
  { exists s. simpl. by rewrite app_nil_r, <- Hl. }
  assert (fetch c s
          = if decide (Z.of_nat (length (NeededFields c)) > 0) then
              match LoadDocumentValues dm (NeededFields c) with
              | Some e => exited (Some e)
              | None => atSend (mkCollectible rest (failure s)) dm
              end
            else atSend (mkCollectible rest (failure s)) dm) as Hfetch.
  { unfold fetch. by rewrite Next_pending, <- Hl. }
  assert (fetch c s = atSend (mkCollectible rest (failure s)) dm →
          output c (dm :: rest) = dm :: output c rest →
          ∃ s',
            serving ss c k s' (dl ++ dm :: output c rest)
              (exec (concat (replicate (length (dm :: output c rest))
                               [Work k; Work k; CallNext])) st)
            ∧ output c (pending s') = []) as Hsend.
  { intros Hf Ho.
    pose proof (serving_match _ _ _ _ _ _ _ _ Hserving Hss Hf) as Hnext.
    destruct (IH (mkCollectible rest (failure s)) _ _ eq_refl Hnext)
      as (s' & Hs' & Hout).
    exists s'. split; [|done].
    cbn [length replicate concat]. rewrite msl_exec_app.
    by rewrite (cons_middle dm), app_assoc. }
  cbn [output] in *.
  destruct (decide _) as [Hneeded|]; [|by apply Hsend].
  destruct (LoadDocumentValues dm (NeededFields c)) eqn:Hload;
    [|by apply Hsend].
  exists s. split.
  - simpl. by rewrite app_nil_r.
  - rewrite <- Hl. simpl. by rewrite decide_True, Hload by done.
Qed.


Lemma fetch_returns c s :
  output c (pending s) = [] → ∃ e, fetch c s = exited e.
Proof.
  intros Hout. rewrite <- fetch_outstanding in Hout.
  unfold fetch in *. repeat case_match; try done; by eexists.
Qed.

(** The goroutine of searcher [k] is started, sends its matches and
    returns. *)
Lemma idle_serve ss c k s dl st :
  idle ss c k dl st → ss !! k = Some s →
  idle ss c (S k) (dl ++ sends c s)
    (exec (serve k (length (sends c s))) st).
Proof.
  intros (Hs & Hc & Hcap & Hbuf & Hopen & Hend & Hi & Hlen & Hex & Hdl) Hk.
  assert (ss ≠ []) as Hss by (by intros ->).
  unfold serve. change (exec (Go :: ?l) st) with (exec l (go st)).
  rewrite msl_exec_app.
  assert (serving ss c k (matches s) dl (go st)) as Hserving.
  { unfold go. rewrite Hs, Hi, Hk.
    apply running_0 in Hex. rewrite Hex.
    rewrite decide_True by (unfold limit; lia).
    unfold serving. simpl. split_and!; try done.
    exists (goroutines st). split_and!; try done. by apply running_0. }
  destruct (serving_matches _ _ _ _ _ _ Hserving Hss)
    as (s' & Hserving' & Hout).
  fold (sends c s) in Hserving'.
  set (st' := exec (concat _) (go st)) in *. clearbody st'.
  destruct Hserving' as (Hs' & Hc' & Hcap' & Hbuf' & Hopen' & Hend' & Hi'
                         & (gs & Hgs & Hlen' & Hex') & Hdl').
  destruct (fetch_returns c s' Hout) as [e He].
  unfold exec. cbn [fold_left step]. unfold work.
  rewrite Hgs, <- Hlen', lookup_last_goroutine, Hc', He.
  unfold idle. simpl. rewrite Hgs, insert_last_goroutine, length_app.
  split_and!; try done; [congruence|simpl; lia|].
  apply Forall_app. split; [done|]. by apply Forall_singleton.
Qed.

Lemma idle_serve_from ss c rest k dl st :
  idle ss c k dl st → drop k ss = rest →
  idle ss c (k + length rest) (dl ++ concat (sends c <$> rest))
    (exec (serve_from c k rest) st).
Proof.
  revert k dl st. induction rest as [|s rest IH]; intros k dl st Hidle Hdrop.
  { simpl. by rewrite app_nil_r, Nat.add_0_r. }
  assert (ss !! k = Some s) as Hk.
  { rewrite <- (Nat.add_0_r k), <- lookup_drop. by rewrite Hdrop. }
  assert (drop (S k) ss = rest) as Hdrop'.
  { by rewrite (drop_S _ _ _ Hk) in Hdrop; injection Hdrop. }
  cbn [serve_from]. rewrite msl_exec_app.
  rewrite fmap_cons, concat_cons, app_assoc.
  replace (k + length (s :: rest))%nat with (S k + length rest)%nat
    by (simpl; lia).
  apply IH; [|done]. by apply idle_serve.
Qed.

Lemma NewMultiSearcherList_Some ss c :
  ss ≠ [] →
  NewMultiSearcherList ss c
  = Some (mkCollecting
            (mkMultiSearcherList ss (make (length ss * 2))) c 0 [] None []
            [] false).
Proof. intros Hss. unfold NewMultiSearcherList. by destruct ss. Qed.

(** The sequential run delivers the matches of all searchers, one searcher
    after the other, and ends. *)
Lemma serve_all_stream ss c st :
  NewMultiSearcherList ss c = Some st →
  stream (exec (serve_all c ss) st)
  = Some (mkCollectible (concat (sends c <$> ss)) None).
Proof.
  intros Hnew.
  assert (ss ≠ []) as Hss.
  { intros ->. by unfold NewMultiSearcherList in Hnew. }
  rewrite NewMultiSearcherList_Some in Hnew by done. injection Hnew as <-.
  unfold serve_all. rewrite msl_exec_app.
  set (st0 := mkCollecting _ _ _ _ _ _ _ _).
  assert (idle ss c 0 [] st0) as Hidle by (by unfold idle; split_and!).
  apply (idle_serve_from ss c ss) in Hidle; [|done]. simpl in Hidle.
  set (st1 := exec (serve_from c 0 ss) st0) in *. clearbody st1.
  destruct Hidle as (Hs & Hc & Hcap & Hbuf & Hopen & Hend & Hi & Hlen & Hex
                     & Hdl).
  unfold exec. cbn [fold_left step]. unfold wait.
  apply running_0 in Hex.
  rewrite decide_True by (by rewrite Hs).
  unfold callNext, Next, recv, stream. simpl. rewrite Hend, Hbuf. simpl.
  by rewrite Hdl.
Qed.

End multisearch_facts.

(** ** A cancellation between two polls *)

Section unseen_facts.
Import search collector.
Context {ext : Externals}.

(** The loop of [Collect] does not look at the context. *)
Lemma spawn_Cancel r : spawn (step Cancel r) = step Cancel (spawn r).
Proof.
  destruct r as [c ctx b hn s n e ts es d]. unfold spawn. simpl.
  destruct e, n; try done.
  by destruct (Next s) as [[??]?].
Qed.

(** A task that does not poll the context does not look at it either: its
    step is the same whether the context is cancelled or not. *)
Lemma advance_Cancel i r :
  polls i r = false → advance i (step Cancel r) = step Cancel (advance i r).
Proof.
  intros Hp. unfold advance.
  assert (polls i (step Cancel r) = false) as -> by done.
  rewrite Hp. destruct r as [c ctx b hn s n e ts es dn]. simpl.
  destruct (ts !! i) as [[d p]|]; [|done].
  destruct p; try done.
  - by destruct (Err (loadDocValuesStep c d)).
  - by destruct (sortStep c d).
  - by destruct (consumeStep b d).
  - by destruct (compareStep c ctx d) as [[??]|].
Qed.

(** A cancellation that no poll follows can as well come later. *)
Lemma exec_Cancel sched r :
  polled sched r = [] →
  exec sched (step Cancel r) = step Cancel (exec sched r).
Proof.
  revert r. induction sched as [|e sched IH]; intros r Hp; [done|].
  simpl in Hp. apply app_eq_nil in Hp as [He Hp].
  change (exec (e :: sched) ?x) with (exec sched (step e x)).
  rewrite <- (IH _ Hp). f_equal.
  destruct e as [| |i]; simpl.
  - done.
  - apply spawn_Cancel.
  - apply advance_Cancel. by destruct (polls i r).
Qed.

Lemma collectResult_Cancel r : collectResult (step Cancel r) = collectResult r.
Proof. done. Qed.

(** A cancellation that no poll follows goes unnoticed. *)
Lemma Collect_unseen sched1 sched2 c aggs s :
  polled sched2 (exec sched1 (start c aggs s)) = [] →
  Collect (sched1 ++ Cancel :: sched2) false c aggs s
  = Collect (sched1 ++ sched2) false c aggs s.
Proof.
  intros Hp. unfold Collect. rewrite !exec_app.
  change (exec (Cancel :: sched2) ?x) with (exec sched2 (step Cancel x)).
  by rewrite exec_Cancel, collectResult_Cancel.
Qed.

(** The polls of the tasks [k], ..., [n - 1] of the sequential run. *)
Lemma polled_sequential_rest c aggs s k n rest :
  (k ≤ n ≤ length (pending s))%nat →
  Z.of_nat (length (pending s)) ≤ int_max →
  sequential n = sequential k ++ rest →
  polled rest (exec (sequential k) (start c aggs s))
  = filter (λ j, Z.rem (Z.of_nat j) CheckDoneEvery = 0) (seq k (n - k)).
Proof.
  intros Hkn HN Hrest.
  destruct (seq_inv_sequential c aggs s n) as [_ Hn]; [lia|done|].
  destruct (seq_inv_sequential c aggs s k) as [_ Hk]; [lia|done|].
  rewrite Hrest, polled_app, Hk in Hn.
  assert (seq 0 n = seq 0 k ++ seq k (n - k)) as Hseq.
  { replace n with (k + (n - k))%nat at 1 by lia. by rewrite seq_app. }
  rewrite Hseq, filter_app in Hn. by apply app_inv_head in Hn.
Qed.

Lemma no_multiple_between k n :
  (∀ j, (k ≤ j < n)%nat → Z.rem (Z.of_nat j) CheckDoneEvery ≠ 0) →
  filter (λ j, Z.rem (Z.of_nat j) CheckDoneEvery = 0) (seq k (n - k)) = [].
Proof.
  intros Hno.
  destruct (filter _ _) as [|j l] eqn:Hf; [done|].
  assert (j ∈ filter (λ j, Z.rem (Z.of_nat j) CheckDoneEvery = 0)
                (seq k (n - k))) as Hj by (rewrite Hf; left).
  apply list_elem_of_filter in Hj as [Hrem Hj].
  apply elem_of_seq in Hj. destruct (Hno j); [lia|done].
Qed.

(** In the sequential run, a cancellation is not seen before the task of the
    next multiple of [CheckDoneEvery] polls the context. *)
Lemma exec_sequential_Cancel c aggs s k n rest :
  (k ≤ n ≤ length (pending s))%nat →
  Z.of_nat (length (pending s)) ≤ int_max →
  sequential n = sequential k ++ rest →
  (∀ j, (k ≤ j < n)%nat → Z.rem (Z.of_nat j) CheckDoneEvery ≠ 0) →
  exec (sequential k ++ Cancel :: rest) (start c aggs s)
  = step Cancel (exec (sequential n) (start c aggs s)).
Proof.
  intros Hkn HN Hrest Hno. rewrite Hrest, !exec_app.
  change (exec (Cancel :: rest) ?x) with (exec rest (step Cancel x)).
  apply exec_Cancel.
  rewrite (polled_sequential_rest c aggs s k n) by done.
  by apply no_multiple_between.
Qed.

Lemma Collect_sequential_unseen c aggs s k rest :
  (k ≤ length (pending s))%nat →
  Z.of_nat (length (pending s)) ≤ int_max →
  sequential (length (pending s)) = sequential k ++ rest →
  (∀ j, (k ≤ j < length (pending s))%nat →
        Z.rem (Z.of_nat j) CheckDoneEvery ≠ 0) →
  Collect (sequential k ++ Cancel :: rest) false c aggs s
  = Collect (sequential (length (pending s))) false c aggs s.
Proof.
  intros Hk HN Hrest Hno. unfold Collect.
  rewrite (exec_sequential_Cancel c aggs s k (length (pending s))) by
    (done || lia).
  apply collectResult_Cancel.
Qed.

Lemma Collect_sequential_seen c aggs s k m rest :
  (k ≤ m < length (pending s))%nat →
  Z.of_nat (length (pending s)) ≤ int_max →
  sequential m = sequential k ++ rest →
  Z.rem (Z.of_nat m) CheckDoneEvery = 0 →
  (∀ j, (k ≤ j < m)%nat → Z.rem (Z.of_nat j) CheckDoneEvery ≠ 0) →
  ∃ e, Collect (sequential k ++ Cancel :: rest
                ++ abandoned m (length (pending s) - m))
         false c aggs s = Some (None, Some e)
       ∧ (failure s = None → is_cancellation e = true).
Proof.
  intros Hkm HN Hrest Hrem Hno.
  destruct (Collect_abandoned c aggs s m) as (e & He & Hc); [done|lia|done|].
  exists e. split; [|done]. rewrite <- He. unfold Collect. f_equal.
  set (ab := abandoned m _).
  assert (sequential k ++ Cancel :: rest ++ ab
          = (sequential k ++ Cancel :: rest) ++ ab) as ->
    by (by rewrite <- app_assoc).
  rewrite exec_app, (exec_sequential_Cancel c aggs s k m) by (done || lia).
  by rewrite (exec_app (sequential m)).
Qed.

End unseen_facts.

(** * The claims *)

Section claims_collect.
Import search collector.
Context {ext : Externals}.

Lemma newTopNCollector_fresh size skip sort reverse :
  0 ≤ size → 0 ≤ skip → size + skip ≤ int_max →
  fresh (newTopNCollector size skip sort reverse).
Proof.
  intros. unfold fresh, newTopNCollector; simpl. split_and!; try done.
  destruct (decide (int_add size skip > switchFromSliceToHeap)); simpl;
    by split_and!.
Qed.

Lemma hit_HitNumber c m n : HitNumber (hit c m n) = n.
Proof. unfold hit. simpl. by rewrite loadDocValuesStep_HitNumber. Qed.

Lemma matched_distinct c aggs s hns :
  hns ≡ₚ seqZ 1 (Z.of_nat (length (pending s))) →
  distinct_hits (matched c aggs s hns).
Proof.
  intros Hp. unfold distinct_hits, matched.
  rewrite fmap_zip_with_r.
  - rewrite Hp. apply NoDup_seqZ.
  - intros. apply hit_HitNumber.
  - rewrite Hp, length_seqZ. lia.
Qed.

(** C1.  A search through [Collect] with the parameters [size], [skip] and
    [sort]: whatever the order in which the tasks of the matches run, the
    hit numbers they take are the numbers from 1 to the number of matches,
    and the iterator that [Collect] returns holds the ranks from [skip] up to
    [skip + size] of all the matches in ranking order, where ranking order is
    the order of [sort] with ties broken by ascending hit number; the page is
    reversed when [reverse] is set.  [Collect] does return an iterator in
    the sequential run, when neither the searcher nor a match nor the loading
    of document values fails. *)
Theorem Collect_returns_ranked_slice sched cancelled size skip sort reverse
    aggs s :
  0 ≤ size → 0 ≤ skip → size + skip ≤ int_max →
  Z.of_nat (length (pending s)) ≤ int_max →
  let c := newTopNCollector size skip sort reverse in
  (∀ it,
     Collect sched cancelled c aggs s = Some (Some it, None) →
     let hns := hitNumbers sched c aggs s in
     hns ≡ₚ seqZ 1 (Z.of_nat (length (pending s)))
     ∧ let ranked := sortMatches sort (matched c aggs s hns) in
       StronglySorted (before sort) ranked
       ∧ ranked ≡ₚ matched c aggs s hns
       ∧ it_results it
           = if reverse then rev (slice_of size skip ranked)
             else slice_of size skip ranked)
  ∧ (failure s = None → Forall (λ d, Err d = None) (pending s) →
     (∀ d fields, LoadDocumentValues d fields = None) →
     ∃ it, Collect (sequential (length (pending s))) false c aggs s
           = Some (Some it, None)).
Proof.
  intros Hsize Hskip Hfit HN. cbn zeta. split.
  - intros it Hret. destruct cancelled; [done|].
    apply Collect_iterator in Hret as (Hp & Hres & _);
      [|by apply newTopNCollector_fresh|done].
    split; [done|]. cbn zeta in *.
    rewrite filter_afterCursor_None in Hres. split_and!; [| |done].
    + by apply sortMatches_sorted, matched_distinct.
    + apply sortMatches_Permutation.
  - intros Hfail Herr Hloads.
    by apply Collect_sequential_iterator; [|apply newTopNCollector_fresh|..].
Qed.

(** C6.  The bucket of the iterator that [Collect] returns has consumed
    every match that the searcher produced, each one once: also the matches
    that the compare stage skipped, dropped or evicted, which are not among
    the results.  [Collect] does return an iterator in the sequential run,
    when neither the searcher nor a match nor the loading of document values
    fails. *)
Theorem Collect_bucket_consumes_every_match sched cancelled c aggs s :
  fresh c → Z.of_nat (length (pending s)) ≤ int_max →
  (∀ it,
     Collect sched cancelled c aggs s = Some (Some it, None) →
     let hns := hitNumbers sched c aggs s in
     hns ≡ₚ seqZ 1 (Z.of_nat (length (pending s)))
     ∧ ∃ order,
         order ≡ₚ matched c aggs s hns
         ∧ it_bucket it = Finish (fold_left Consume order (NewBucket "" aggs))
         ∧ length order = length (pending s)
         ∧ (length (it_results it) ≤ Z.to_nat (size c))%nat)
  ∧ (failure s = None → Forall (λ d, Err d = None) (pending s) →
     (∀ d fields, LoadDocumentValues d fields = None) →
     ∃ it, Collect (sequential (length (pending s))) false c aggs s
           = Some (Some it, None)).
Proof.
  intros Hfresh HN. split.
  - intros it Hret. destruct cancelled; [done|].
    apply Collect_iterator in Hret as (Hp & Hres & order & Ho & Hb);
      [|done..].
    split; [done|]. exists order. cbn zeta in *. split_and!; try done.
    + rewrite Ho. unfold matched.
      rewrite length_zip_with, Hp, length_seqZ. lia.
    + rewrite Hres.
      destruct (reverse c); rewrite ?length_rev, length_take; lia.
  - intros Hfail Herr Hloads. by apply Collect_sequential_iterator.
Qed.

End claims_collect.

Lemma Collect_returns_ranked_slice_witness :
  let c := collector.newTopNCollector 3 2 example_sort false in
  let sched := collector.sequential 10 in
  collector.Collect (ext := example_ext) sched false c tt example_searcher
    = Some (Some example_page, None)
  ∧ let hns := hitNumbers (ext := example_ext) sched c tt example_searcher in
    hns ≡ₚ seqZ 1 10
    ∧ let ranked :=
        sortMatches example_sort
          (matched (ext := example_ext) c tt example_searcher hns) in
      StronglySorted (before example_sort) ranked
      ∧ ranked ≡ₚ matched (ext := example_ext) c tt example_searcher hns
      ∧ collector.it_results example_page = slice_of 3 2 ranked.
Proof.
  split; [by vm_compute|].
  destruct (Collect_returns_ranked_slice (ext := example_ext)
    (collector.sequential 10) false 3 2 example_sort false tt
    example_searcher) as [Hslice _]; [lia|lia|by vm_compute|by vm_compute|].
  apply (Hslice example_page). by vm_compute.
Defined.

Lemma Collect_bucket_consumes_every_match_witness :
  let c := collector.newTopNCollector 3 2 example_sort false in
  let sched := collector.sequential 10 in
  let hns := hitNumbers (ext := example_ext) sched c tt example_searcher in
  hns ≡ₚ seqZ 1 10
  ∧ ∃ order,
      order ≡ₚ matched (ext := example_ext) c tt example_searcher hns
      ∧ collector.it_bucket example_page
        = fold_left (λ b d, b ++ [search.Number d]) order []
      ∧ length order = 10%nat
      ∧ (length (collector.it_results example_page) ≤ 3)%nat.
Proof.
  destruct (Collect_bucket_consumes_every_match (ext := example_ext)
    (collector.sequential 10) false
    (collector.newTopNCollector 3 2 example_sort false) tt
    example_searcher) as [Hbucket _].
  - repeat split; by vm_compute.
  - by vm_compute.
  - apply (Hbucket example_page). by vm_compute.
Defined.

(** ** Search after *)

Section claims_search_after.
Import search collector.
Context {ext : Externals}.

Lemma sorted_filter o (P : DocumentMatch → Prop) `{∀ d, Decision (P d)}
    (l : list DocumentMatch) :
  StronglySorted (before o) l → StronglySorted (before o) (filter P l).
Proof.
  induction 1 as [|x l Hs IH Hx]; [constructor|].
  rewrite filter_cons. case_decide; [|done].
  constructor; [done|]. apply Forall_forall.
  intros y [_ Hy]%list_elem_of_filter.
  by apply (proj1 (Forall_forall _ _) Hx).
Qed.

Lemma sortMatches_filter o (P : DocumentMatch → Prop)
    `{∀ d, Decision (P d)} (l : list DocumentMatch) :
  distinct_hits l →
  sortMatches o (filter P l) = filter P (sortMatches o l).
Proof.
  intros Hd. symmetry. apply sorted_is_sortMatches.
  - by apply distinct_hits_filter.
  - by apply sorted_filter, sortMatches_sorted.
  - by rewrite sortMatches_Permutation.
Qed.

Lemma filter_none (P : DocumentMatch → Prop) `{∀ d, Decision (P d)}
    (l : list DocumentMatch) :
  Forall (λ x, ¬ P x) l → filter P l = [].
Proof.
  induction 1 as [|x l Hx _ IH]; [done|].
  by rewrite filter_cons_False.
Qed.

Lemma filter_all (P : DocumentMatch → Prop) `{∀ d, Decision (P d)}
    (l : list DocumentMatch) :
  Forall P l → filter P l = l.
Proof.
  induction 1 as [|x l Hx _ IH]; [done|].
  by rewrite filter_cons_True, IH.
Qed.

Lemma compareFrom_second o x i a b :
  SortValue a = SortValue b → HitNumber a = HitNumber b →
  compareFrom o x i a = compareFrom o x i b.
Proof.
  intros Hv Hn. revert x. induction o as [|t o IH]; intros x; simpl.
  - by rewrite Hn.
  - rewrite Hv. case_decide; [apply IH|done].
Qed.

Lemma compareKeys_SortValue o i a b :
  SortValue a = SortValue b → compareKeys o i a = compareKeys o i b.
Proof. intros Hv. by apply compareFrom_second. Qed.

Lemma compareKeys_self o l : compareKeys o l l = 0.
Proof.
  unfold compareKeys. replace (set_HitNumber (HitNumber l) l) with l
    by (by destruct l). apply Compare_refl.
Qed.

(** The matches past the key of the match at rank [r] are the ranks after
    [r], when no other match shares that key. *)
Lemma filter_afterCursor_drop o (ranked : list DocumentMatch) cursor r l :
  StronglySorted (before o) ranked →
  ranked !! r = Some l → SortValue cursor = SortValue l →
  (∀ x, x ∈ ranked → compareKeys o x l = 0 → x = l) →
  filter (afterCursor o (Some cursor)) ranked = drop (S r) ranked.
Proof.
  intros Hs Hr Hv Hties.
  assert (Forall (afterCursor o (Some cursor)) (drop (S r) ranked)) as Hpast.
  { apply Forall_forall. intros x Hx. simpl.
    rewrite (compareKeys_SortValue o x cursor l Hv).
    assert (before o l x) as Hlx.
    { apply (sorted_take_drop o ranked (S r)); [done| |done].
      apply elem_of_take. exists r. split; [done|lia]. }
    unfold before in Hlx. rewrite (Compare_antisym o x l) in Hlx.
    destruct (compareKeys_Compare o x l) as [E|E]; [|lia].
    assert (x = l) as ->.
    { apply Hties; [|done].
      apply list_elem_of_lookup in Hx as [j Hj]. rewrite lookup_drop in Hj.
      by eapply list_elem_of_lookup_2. }
    rewrite Compare_refl in Hlx. lia. }
  assert (Forall (λ x, ¬ afterCursor o (Some cursor) x) (take (S r) ranked))
    as Hupto.
  { apply Forall_forall. intros x (j & Hj & Hlt)%elem_of_take. simpl.
    rewrite (compareKeys_SortValue o x cursor l Hv).
    destruct (decide (j = r)) as [->|Hne].
    - simplify_eq. rewrite compareKeys_self. lia.
    - assert (before o x l) as Hxl.
      { apply (sorted_lookup_lt o ranked j r); auto. lia. }
      unfold before in Hxl.
      destruct (compareKeys_Compare o x l) as [E|E]; lia. }
  rewrite <- (take_drop (S r) ranked) at 1.
  rewrite filter_app. rewrite (filter_none _ _ Hupto).
  by rewrite (filter_all _ _ Hpast).
Qed.

Lemma NewTopNCollectorAfter_fresh size sort after reverse :
  0 ≤ size → size ≤ int_max →
  fresh (NewTopNCollectorAfter size sort after reverse).
Proof.
  intros. unfold NewTopNCollectorAfter.
  destruct (newTopNCollector_fresh size 0 sort reverse) as (?&?&?&?&?);
    [lia..|].
  by split_and!.
Qed.

(** C2, as amended.  In a collector with a cursor, the compare stage gives
    the cursor the hit number of the match it serves, and skips the match,
    leaving the store, the lowest match outside the results and the pool as
    they are, exactly when the match then compares less than or equal to the
    cursor.  A search after the sort key of the match at rank [r] returns
    the ranks from [r + 1] up to [r + 1 + size], provided that no other
    match has the sort key of that match.  [Collect] does return an iterator
    in the sequential run, when neither the searcher nor a match nor the
    loading of document values fails. *)
Theorem search_after_next_page sched cancelled size sort after reverse
    aggs s it :
  0 ≤ size → size ≤ int_max →
  Z.of_nat (length (pending s)) ≤ int_max →
  (∀ c ctx d cursor, searchAfter c = Some cursor → Err d = None →
     let c1 :=
       set_searchAfter (Some (set_HitNumber (HitNumber d) cursor)) c in
     (searchAfterSkips c1 d = true
      ↔ Compare (collector.sort c) d (set_HitNumber (HitNumber d) cursor)
        <= 0)
     ∧ (searchAfterSkips c1 d = true →
        compareStep c ctx d = Some (c1, ctx)))
  ∧ (let c := NewTopNCollectorAfter size sort after reverse in
     Collect sched cancelled c aggs s = Some (Some it, None) →
     let hns := hitNumbers sched c aggs s in
     hns ≡ₚ seqZ 1 (Z.of_nat (length (pending s)))
     ∧ let ranked := sortMatches sort (matched c aggs s hns) in
       ∀ r last,
         ranked !! r = Some last → SortValue last = after →
         (∀ x, x ∈ ranked → compareKeys sort x last = 0 → x = last) →
         it_results it
           = if reverse
             then rev (slice_of size (Z.of_nat (S r)) ranked)
             else slice_of size (Z.of_nat (S r)) ranked)
  ∧ (failure s = None → Forall (λ d, Err d = None) (pending s) →
     (∀ d fields, LoadDocumentValues d fields = None) →
     ∃ it',
       Collect (sequential (length (pending s))) false
         (NewTopNCollectorAfter size sort after reverse) aggs s
       = Some (Some it', None)).
Proof.
  intros Hsize Hfit HN. split_and!.
  - intros c ctx d cursor Hc He. cbn zeta. split.
    + unfold searchAfterSkips. simpl. by rewrite bool_decide_eq_true.
    + intros Hskip. unfold compareStep. by rewrite He, Hc, Hskip.
  - cbn zeta. intros Hret. destruct cancelled; [done|].
    apply Collect_iterator in Hret as (Hp & Hres & _);
      [|by apply NewTopNCollectorAfter_fresh|done].
    split; [done|]. intros r last Hr Hlast Hties. cbn zeta in Hres.
    rewrite Hres. simpl.
    rewrite sortMatches_filter by (by apply matched_distinct).
    rewrite (filter_afterCursor_drop sort _ _ r last); try done.
    + unfold slice_of. rewrite Nat2Z.id. by rewrite drop_0.
    + by apply sortMatches_sorted, matched_distinct.
  - intros Hfail Herr Hloads.
    by apply Collect_sequential_iterator;
      [|apply NewTopNCollectorAfter_fresh|..].
Qed.

End claims_search_after.

Lemma search_after_next_page_witness :
  let c :=
    collector.NewTopNCollectorAfter 3 example_sort [["006"%byte]] false in
  let sched := collector.sequential 10 in
  collector.Collect (ext := example_ext) sched false c tt example_searcher
    = Some (Some example_next_page, None)
  ∧ let hns := hitNumbers (ext := example_ext) sched c tt example_searcher in
    let ranked :=
      sortMatches example_sort
        (matched (ext := example_ext) c tt example_searcher hns) in
    search.Number <$> ranked = [10; 9; 8; 7; 6; 5; 4; 3; 2; 1]
    ∧ collector.it_results example_next_page = slice_of 3 5 ranked.
Proof.
  split; [by vm_compute|]. cbn zeta. split; [by vm_compute|].
  destruct (search_after_next_page (ext := example_ext)
    (collector.sequential 10) false 3 example_sort [["006"%byte]] false tt
    example_searcher example_next_page) as (_ & Hpage & _);
    [lia|by vm_compute|by vm_compute|].
  destruct Hpage as [_ Hpage]; [by vm_compute|].
  apply (Hpage 4%nat (search.mkDocumentMatch 6 [["006"%byte]] 8 None));
    [by vm_compute|done|].
  vm_compute. intros x Hx Hk.
  repeat (apply elem_of_cons in Hx as [->|Hx]; [by vm_compute in Hk|]).
  by apply elem_of_nil in Hx.
Defined.

(** C2 as stated fails when matches tie on the sort key.  Of two documents
    of rank 5 the first page holds the first, at rank 0; the search after
    its sort key skips both documents and returns nothing, where the ranks
    from 1 up to 2 hold the second document. *)
Lemma search_after_loses_tied_match :
  let first := search.mkDocumentMatch 5 [["005"%byte]] 1 None in
  let second := search.mkDocumentMatch 21 [["005"%byte]] 2 None in
  let c :=
    collector.NewTopNCollectorAfter 1 example_ascending
      (search.SortValue first) false in
  let sched := collector.sequential 2 in
  let ranked :=
    sortMatches example_ascending
      (matched (ext := example_ext) c tt example_ties
         (hitNumbers (ext := example_ext) sched c tt example_ties)) in
  collector.Collect (ext := example_ext) sched false
    (collector.NewTopNCollector 1 0 example_ascending) tt example_ties
    = Some (Some (collector.mkTopNIterator (ext := example_ext)
                    [first] [5; 21] 0 None), None)
  ∧ ranked !! 0%nat = Some first
  ∧ slice_of 1 1 ranked = [second]
  ∧ ∃ it,
      collector.Collect (ext := example_ext) sched false c tt example_ties
        = Some (Some it, None)
      ∧ collector.it_results it = []
      ∧ collector.it_results it ≠ slice_of 1 1 ranked.
Proof.
  cbn zeta. split_and!; [by vm_compute..|].
  eexists. split_and!; [by vm_compute|by vm_compute|by vm_compute].
Qed.

(** ** The lowest match outside the results *)

Section claims_compare.
Import search collector.
Context {ext : Externals}.

(** The collector as the compare stage holds it once the cursor has taken
    the hit number of [d]. *)
Lemma compareStep_store c0 seen c ctx d :
  collector_inv c0 seen c →
  0 ≤ int_add (size c0) (skip c0) →
  Forall (λ x, HitNumber x ≠ HitNumber d) seen →
  Err d = None →
  let c1 :=
    match searchAfter c with
    | Some after =>
        set_searchAfter (Some (set_HitNumber (HitNumber d) after)) c
    | None => c
    end in
  searchAfterSkips c1 d = false →
  ∃ c' ctx', compareStep c ctx d = Some (c', ctx')
    ∧ (∀ lowest, lowestMatchOutsideResults c = Some lowest →
         Compare (collector.sort c) d lowest > 0 →
         store c' = store c
         ∧ lowestMatchOutsideResults c' = Some lowest
         ∧ ctx' = Put ctx d)
    ∧ ((∀ lowest, lowestMatchOutsideResults c = Some lowest →
          ¬ Compare (collector.sort c) d lowest > 0) →
       ∃ removed,
         AddNotExceedingSize (store c) d (int_add (size c) (skip c))
           = (store c', removed)
         ∧ (∀ x, removed = Some x → lowestMatchOutsideResults c' = Some x)
         ∧ (removed = None →
            lowestMatchOutsideResults c' = lowestMatchOutsideResults c)).
Proof.
  intros [Hset (S & Hs & Hp & Hv & Hlow)] Hk Hnew He c1 Hskip.
  destruct Hset as (Hsz & Hsk & Ho & _).
  set (o := collector.sort c0) in *. set (k := bound c0) in *.
  assert (Forall (λ x, Compare o d x ≠ 0) S) as Hne.
  { apply Forall_forall. intros x Hx E. apply Compare_zero in E.
    rewrite Hp in Hx. apply list_elem_of_filter in Hx as [_ Hx].
    by apply (proj1 (Forall_forall _ _) Hnew x Hx). }
  assert (size c1 = size c ∧ skip c1 = skip c ∧ collector.sort c1 = o
    ∧ store c1 = store c
    ∧ lowestMatchOutsideResults c1 = lowestMatchOutsideResults c)
    as (Hsz1 & Hsk1 & Ho1 & Hst1 & Hlow1).
  { subst c1. by destruct (searchAfter c). }
  unfold compareStep. rewrite He. fold c1. rewrite Hskip.
  unfold lowestOutsideDrops. rewrite Hlow1, Ho1, Hsz1, Hsk1, Hst1, Ho.
  destruct (AddNotExceedingSize (store c) d (int_add (size c) (skip c)))
    as [store' removed] eqn:Eadd.
  pose proof Eadd as Eadd'. rewrite Hsz, Hsk in Eadd'.
  eapply (AddNotExceedingSize_view o) in Eadd' as (_ & Hrem & _);
    [|done|by apply sorted_take| |rewrite length_take; unfold k, bound; lia
     |done].
  2:{ eapply Forall_forall. intros x Hx%elem_of_take.
      destruct Hx as (j & Hj & _).
      eapply (proj1 (Forall_forall _ _) Hne), list_elem_of_lookup_2, Hj. }
  change (Z.to_nat (int_add (size c0) (skip c0))) with k in Hrem.
  rewrite Hlow. destruct (S !! k) as [l|] eqn:El.
  - assert (Compare o d l ≠ 0) as Hdl.
    { eapply (proj1 (Forall_forall _ _) Hne), list_elem_of_lookup_2, El. }
    case_bool_decide as Hcmp.
    + eexists _, _. split; [done|]. split.
      * intros ? [= <-] _. by rewrite Hst1, Hlow1, Hlow.
      * intros Hnot. specialize (Hnot l eq_refl). lia.
    + destruct removed as [r|]; simpl; rewrite ?Hlow1, ?Hlow, ?Ho1.
      * assert (before o r l) as Hrl.
        { symmetry in Hrem. apply list_elem_of_lookup_2 in Hrem.
          rewrite insertSorted_Permutation in Hrem.
          apply elem_of_cons in Hrem as [->|(j & Hj & Hjk)%elem_of_take];
            [unfold before; lia|].
          by eapply (sorted_lookup_lt o S j k). }
        rewrite decide_True by done.
        eexists _, _. split; [done|]. split; [intros ? [= <-]; lia|].
        intros _. exists (Some r). simpl.
        split_and!; try done; try (by intros ? [= <-]).
      * eexists _, _. split; [done|]. split; [intros ? [= <-]; lia|].
        intros _. exists None. simpl.
        split_and!; try done; try (by rewrite Hlow1, Hlow).
  - destruct removed as [r|]; simpl; rewrite ?Hlow1, ?Hlow.
    + eexists _, _. split; [done|]. split; [done|].
      intros _. exists (Some r). simpl.
      split_and!; try done; try (by intros ? [= <-]).
    + eexists _, _. split; [done|]. split; [done|].
      intros _. exists None. simpl.
      split_and!; try done; try (by rewrite Hlow1, Hlow).
Qed.

(** C3.  A match that reaches the compare stage and passes the search-after
    test, in any run of [Collect]: when a lowest match outside the results
    is recorded and the match sorts after it, the match goes back to the
    pool, and the store and the record stay as they are; otherwise the
    store changes by [AddNotExceedingSize] of the match with the bound
    [size + skip], and the entry that this evicts, if any, is the new lowest
    match outside the results. *)
Theorem compare_stage_drops_or_stores sched c aggs s i d :
  fresh c → Z.of_nat (length (pending s)) ≤ int_max →
  let r := exec sched (start c aggs s) in
  tasks r !! i = Some (mkTask d atCompare) →
  let c1 :=
    match searchAfter (hc r) with
    | Some after =>
        set_searchAfter (Some (set_HitNumber (HitNumber d) after)) (hc r)
    | None => hc r
    end in
  searchAfterSkips c1 d = false →
  let r' := advance i r in
  pos <$> tasks r' !! i = Some (returned None)
  ∧ (∀ lowest, lowestMatchOutsideResults (hc r) = Some lowest →
       Compare (collector.sort (hc r)) d lowest > 0 →
       store (hc r') = store (hc r)
       ∧ lowestMatchOutsideResults (hc r') = Some lowest
       ∧ searchContext r' = Put (searchContext r) d)
  ∧ ((∀ lowest, lowestMatchOutsideResults (hc r) = Some lowest →
        ¬ Compare (collector.sort (hc r)) d lowest > 0) →
     ∃ removed,
       AddNotExceedingSize (store (hc r)) d
         (int_add (size (hc r)) (skip (hc r)))
         = (store (hc r'), removed)
       ∧ (∀ x, removed = Some x →
          lowestMatchOutsideResults (hc r') = Some x)
       ∧ (removed = None →
          lowestMatchOutsideResults (hc r')
            = lowestMatchOutsideResults (hc r))).
Proof.
  intros Hfresh HN r Hi c1 Hskip r'.
  pose proof (start_settings c aggs s) as Hstart. cbn zeta in Hstart.
  destruct Hstart as (Hsz & Hsk & _).
  pose proof Hfresh as (_ & _ & Hsize & Hskip' & Hfit).
  assert (0 ≤ int_add (size (hc (start c aggs s)))
                (skip (hc (start c aggs s)))) as Hk.
  { rewrite Hsz, Hsk, int_add_exact; unfold int_min, int_max in *; lia. }
  assert (run_inv (hc (start c aggs s)) (bucket (start c aggs s)) s r)
    as Hinv.
  { apply exec_inv; [done|done|by apply start_inv]. }
  destruct Hinv as (Hc & _ & [_ Hdist] & Htasks & _).
  destruct (Htasks i _ Hi) as (m & _ & Hok).
  unfold task_ok in Hok. simpl in Hok. destruct Hok as [_ He].
  destruct (compareStep_store _ _ (hc r) (searchContext r) d Hc Hk)
    as (c' & ctx' & Hstep & HA & HB); [|done|done|].
  { apply Forall_forall. intros x (j & tj & Hj & Hs & <-)%elem_of_docsAt.
    apply (Hdist j i tj (mkTask d atCompare));
      [done|done| |by destruct (pos tj) as [| | | | | |[]|]|done].
    intros ->. simplify_eq. }
  subst r'. unfold advance. rewrite Hi, Hstep. simpl.
  split_and!; [|done|done].
  rewrite list_lookup_insert_eq by (by eapply lookup_lt_Some). done.
Qed.

End claims_compare.

Lemma compare_stage_drops_or_stores_witness :
  let c := collector.newTopNCollector 1 0 example_sort false in
  let sched :=
    collector.sequential 2
    ++ collector.Spawn :: replicate 5 (collector.Advance 2) in
  let d := search.mkDocumentMatch 4 [["004"%byte]] 3 None in
  let r :=
    collector.exec (ext := example_ext) sched
      (collector.start (ext := example_ext) c tt example_searcher) in
  let r' := collector.advance 2 r in
  collector.tasks r !! 2%nat = Some (collector.mkTask d collector.atCompare)
  ∧ search.Number <$> collector.lowestMatchOutsideResults (collector.hc r)
    = Some 1
  ∧ collector.pos <$> collector.tasks r' !! 2%nat
    = Some (collector.returned None)
  ∧ search.Number <$> collector.lowestMatchOutsideResults (collector.hc r')
    = Some 3.
Proof.
  cbn zeta. split; [by vm_compute|]. split; [by vm_compute|].
  destruct (compare_stage_drops_or_stores (ext := example_ext)
    (collector.sequential 2
     ++ collector.Spawn :: replicate 5 (collector.Advance 2))
    (collector.newTopNCollector 1 0 example_sort false) tt example_searcher
    2%nat (search.mkDocumentMatch 4 [["004"%byte]] 3 None))
    as (Hpos & _ & Hstore).
  - repeat split; by vm_compute.
  - by vm_compute.
  - by vm_compute.
  - by vm_compute.
  - split; [exact Hpos|].
    destruct Hstore as (removed & Hadd & Hsome & _).
    { intros lowest Hl Hc. vm_compute in Hl. injection Hl as <-.
      by vm_compute in Hc. }
    vm_compute in Hadd. injection Hadd as <-.
    by rewrite (Hsome _ eq_refl).
Defined.

(** ** The choice of the store, and finalisation *)

Section claims_store.
Import search collector.
Context {ext : Externals}.

(** C4, as amended.  The store is the ordered vector exactly when
    [size + skip <= 10], and the max-heap otherwise.  Either is allocated
    with the capacity [size + skip + 1], but for [size + skip] above
    [PreAllocSizeSkipCap] = 1000, where the capacity is 1001. *)
Theorem newTopNCollector_store size skip sort reverse :
  0 ≤ size → 0 ≤ skip → size + skip < int_max →
  let c := newTopNCollector size skip sort reverse in
  let capacity := Z.min (size + skip) PreAllocSizeSkipCap + 1 in
  backingSize c = capacity
  ∧ (size + skip ≤ 10 →
     capacity = size + skip + 1
     ∧ store c = SliceStore (newStoreSlice capacity (Compare sort)))
  ∧ (10 < size + skip →
     store c = HeapStore (newStoreHeap capacity (Compare sort)))
  ∧ (size + skip ≤ PreAllocSizeSkipCap →
     store_capacity (store c) = size + skip + 1)
  ∧ (PreAllocSizeSkipCap < size + skip →
     store_capacity (store c) = PreAllocSizeSkipCap + 1).
Proof.
  intros Hsize Hskip Hfit. cbn zeta.
  unfold newTopNCollector, PreAllocSizeSkipCap, switchFromSliceToHeap.
  simpl. unfold int_max in Hfit.
  rewrite (int_add_exact size skip) by (unfold int_min, int_max; lia).
  rewrite (int_add_exact 1000 1) by (unfold int_min, int_max; lia).
  rewrite (int_add_exact (size + skip) 1) by (unfold int_min, int_max; lia).
  repeat case_decide; simpl; split_and!; intros; try lia;
    try (f_equal; f_equal; lia); try (f_equal; lia).
  split; [lia|]. do 2 f_equal. lia.
Qed.

(** C5, as amended.  [finalizeResults] takes the entries of the store in
    ranking order, discards the first [skip] of them, which rank best, and
    reverses the remaining ones exactly when [reverse] is set. *)
Theorem finalizeResults_discards_first c S :
  store_view (collector.sort c) (store c) S →
  StronglySorted (before (collector.sort c)) S →
  0 ≤ skip c →
  let kept := drop (Z.to_nat (skip c)) S in
  finalizeResults c
    = (set_results (if collector.reverse c then rev kept else kept) c, None).
Proof.
  intros Hv Hs Hskip. unfold finalizeResults.
  by rewrite (Final_view (collector.sort c) _ S).
Qed.

End claims_store.

(** C4 as stated fails above the cap: for [size] 1000 and [skip] 1 the heap
    is allocated with the capacity 1001, not 1002. *)
Lemma heap_capacity_capped :
  let c := collector.newTopNCollector 1000 1 example_sort false in
  (∃ h, collector.store c = collector.HeapStore h
        ∧ collector.heap_capacity h = 1001)
  ∧ collector.backingSize c = 1001
  ∧ collector.backingSize c ≠ 1000 + 1 + 1.
Proof.
  cbn zeta. split_and!; [|by vm_compute..].
  eexists. split; [by vm_compute|done].
Qed.

Lemma newTopNCollector_store_witness :
  let c := collector.newTopNCollector 3 2 example_sort false in
  collector.backingSize c = 6
  ∧ collector.store c
    = collector.SliceStore
        (collector.newStoreSlice 6 (search.Compare example_sort))
  ∧ collector.store (collector.newTopNCollector 30 2 example_sort false)
    = collector.HeapStore
        (collector.newStoreHeap 33 (search.Compare example_sort)).
Proof.
  destruct (newTopNCollector_store 3 2 example_sort false)
    as (Hb & Hslice & _); [lia|lia|by vm_compute|].
  destruct (newTopNCollector_store 30 2 example_sort false)
    as (_ & _ & Hheap & _); [lia|lia|by vm_compute|].
  cbn zeta in *. split_and!.
  - exact Hb.
  - by destruct Hslice as [_ ->]; [lia|].
  - by rewrite Hheap by lia.
Defined.

(** C5 as stated fails: after the run for the top 3 with skip 2, the store
    holds the documents 10, 9, 8, 7 and 6 in ranking order; finalisation
    discards 10 and 9, which rank best, and keeps 6, which ranks worst. *)
Lemma finalizeResults_keeps_worst :
  search.Number
    <$> collector.store_entries (collector.store example_final)
    = [10; 9; 8; 7; 6]
  ∧ search.Number
      <$> collector.results (fst (collector.finalizeResults example_final))
    = [8; 7; 6]
  ∧ collector.results (fst (collector.finalizeResults example_final))
    ≠ take 3 (collector.store_entries (collector.store example_final)).
Proof. split_and!; by vm_compute. Qed.

Lemma finalizeResults_discards_first_witness :
  search.Number
    <$> collector.store_entries (collector.store example_final)
    = [10; 9; 8; 7; 6]
  ∧ collector.skip example_final = 2
  ∧ search.Number
      <$> collector.results (fst (collector.finalizeResults example_final))
    = [8; 7; 6].
Proof.
  split; [by vm_compute|]. split; [by vm_compute|].
  rewrite (finalizeResults_discards_first example_final
    (collector.store_entries (collector.store example_final))).
  - by vm_compute.
  - by vm_compute.
  - apply (bool_decide_unpack _). by vm_compute.
  - by vm_compute.
Defined.


(** ** Cancellation *)

Section claims_cancel.
Import search collector.
Context {ext : Externals}.

(** C7 (amended).  [CheckDoneEvery] is 1024.  The task of a match polls the
    context when the hit counter that it reads is a multiple of
    [CheckDoneEvery], and only then: a cancellation after which no task
    polls the context changes nothing in what [Collect] returns.  When the
    tasks run one after another, the polls are those of the matches 0, 1024,
    2048, ..., one in every 1024 matches: after a cancellation, the matches
    up to the next multiple of 1024 are collected as without it, and
    [Collect] returns what it returns without it when there is no such
    match.  [Collect] returns the error of the context when it is entered
    with the context cancelled.  When a poll finds the context cancelled,
    [Collect] returns no iterator but an error, which is, unless the
    searcher has failed, a cancellation; and [Collect] does return when the
    context is cancelled before the poll of a match. *)
Theorem Collect_polls_and_cancels c aggs s :
  Z.of_nat (length (pending s)) ≤ int_max →
  CheckDoneEvery = 1024
  ∧ (∀ i r, polls i r = true
       ↔ (∃ d, tasks r !! i = Some (mkTask d atCheckDone))
         ∧ Z.rem (hitNumber r) CheckDoneEvery = 0)
  ∧ (∀ n, (n ≤ length (pending s))%nat →
       polled (sequential n) (start c aggs s)
       = filter (λ k, Z.rem (Z.of_nat k) CheckDoneEvery = 0) (seq 0 n))
  ∧ (∀ sched, Collect sched true c aggs s = Some (None, Some Canceled))
  ∧ (∀ sched1 i sched2 res,
       polls i (exec sched1 (start c aggs s)) = true →
       done (exec sched1 (start c aggs s)) = true →
       Collect (sched1 ++ Advance i :: sched2) false c aggs s = Some res →
       fst res = None
       ∧ ∃ e, snd res = Some e
              ∧ (failure s = None → is_cancellation e = true))
  ∧ (∀ k, (k < length (pending s))%nat →
       Z.rem (Z.of_nat k) CheckDoneEvery = 0 →
       ∃ e, Collect (sequential k
                     ++ Cancel :: abandoned k (length (pending s) - k))
              false c aggs s = Some (None, Some e)
            ∧ (failure s = None → is_cancellation e = true))
  ∧ (∀ sched1 sched2,
       polled sched2 (exec sched1 (start c aggs s)) = [] →
       Collect (sched1 ++ Cancel :: sched2) false c aggs s
       = Collect (sched1 ++ sched2) false c aggs s)
  ∧ (∀ k rest, (k ≤ length (pending s))%nat →
       sequential (length (pending s)) = sequential k ++ rest →
       (∀ j, (k ≤ j < length (pending s))%nat →
             Z.rem (Z.of_nat j) CheckDoneEvery ≠ 0) →
       Collect (sequential k ++ Cancel :: rest) false c aggs s
       = Collect (sequential (length (pending s))) false c aggs s
       ∧ is_Some (Collect (sequential (length (pending s))) false c aggs s))
  ∧ (∀ k m rest, (k ≤ m < length (pending s))%nat →
       sequential m = sequential k ++ rest →
       Z.rem (Z.of_nat m) CheckDoneEvery = 0 →
       (∀ j, (k ≤ j < m)%nat → Z.rem (Z.of_nat j) CheckDoneEvery ≠ 0) →
       ∃ e, Collect (sequential k ++ Cancel :: rest
                     ++ abandoned m (length (pending s) - m))
              false c aggs s = Some (None, Some e)
            ∧ (failure s = None → is_cancellation e = true)).
Proof.
  intros HN. split_and!.
  - done.
  - intros i r. unfold polls.
    destruct (tasks r !! i) as [[d p]|];
      [|split; [done|by intros [[? [=]] _]]].
    destruct p; try (split; [done|by intros [[? [=]] _]]).
    rewrite bool_decide_eq_true. split; [by eauto|by intros [_ ?]].
  - intros n Hn. by apply seq_inv_sequential.
  - done.
  - intros sched1 i sched2 res. apply Collect_cancelled.
  - intros k. by apply Collect_abandoned.
  - intros sched1 sched2. apply Collect_unseen.
  - intros k rest Hk Hrest Hno.
    split; [by apply Collect_sequential_unseen|by apply Collect_sequential].
  - intros k m rest Hkm Hrest Hrem Hno. by apply Collect_sequential_seen.
Qed.

End claims_cancel.

(** C7 as stated fails when tasks overlap: the tasks of the first two
    matches both read the hit counter 0 before either takes its hit number,
    and both poll the context. *)
Lemma overlapping_tasks_both_poll :
  let c := collector.newTopNCollector 3 2 example_sort false in
  let sched :=
    [collector.Spawn; collector.Spawn;
     collector.Advance 0; collector.Advance 1] in
  let r := collector.start (ext := example_ext) c tt example_searcher in
  collector.polled sched r = [0; 1]%nat
  ∧ collector.polled sched r
    ≠ filter (λ k, Z.rem (Z.of_nat k) collector.CheckDoneEvery = 0)
        (seq 0 2).
Proof. split; by vm_compute. Qed.

Lemma Collect_polls_and_cancels_witness :
  let c := collector.newTopNCollector 3 2 example_sort false in
  let r := collector.start (ext := example_ext) c tt example_searcher in
  let rest :=
    flat_map
      (λ i, collector.Spawn :: replicate 6 (collector.Advance i))
      (seq 1 9) in
  collector.polled (collector.sequential 10) r = [0%nat]
  ∧ (∃ e,
       collector.Collect (ext := example_ext)
         (collector.sequential 0
          ++ collector.Cancel :: collector.abandoned 0 10)
         false c tt example_searcher = Some (None, Some e)
       ∧ is_cancellation e = true)
  ∧ collector.Collect (ext := example_ext)
      (collector.sequential 1 ++ collector.Cancel :: rest)
      false c tt example_searcher
    = collector.Collect (ext := example_ext)
        (collector.sequential 10) false c tt example_searcher
  ∧ collector.Collect (ext := example_ext)
      (collector.sequential 10) false c tt example_searcher
    = Some (Some example_page, None).
Proof.
  cbn zeta.
  destruct (Collect_polls_and_cancels (ext := example_ext)
              (collector.newTopNCollector 3 2 example_sort false) tt
              example_searcher)
    as (_ & _ & Hpolled & _ & _ & Hcancel & _ & Hunseen & _);
    [by vm_compute|].
  split; [|split; [|split]].
  - by rewrite (Hpolled 10%nat) by (vm_compute; lia).
  - destruct (Hcancel 0%nat) as (e & He & Hc); [vm_compute; lia|done|].
    exists e. split; [exact He|]. by apply Hc.
  - apply (Hunseen 1%nat); [vm_compute; lia|reflexivity|].
    intros j Hj. unfold collector.CheckDoneEvery.
    rewrite Z.rem_small; [lia|]. simpl in Hj. lia.
  - by vm_compute.
Defined.

(** ** The search over several readers *)

Section claims_multisearch.
Import bluge.
Context {ext : Externals}.

Lemma newSearchers_length {Reader} (req : SearchRequest Reader) readers ss :
  newSearchers req readers = inl ss → length ss = length readers.
Proof.
  revert ss. induction readers as [|reader readers IH]; intros ss; simpl.
  { by intros [= <-]. }
  destruct (reqSearcher req reader); [|done].
  destruct (newSearchers req readers); [|done].
  intros [= <-]. simpl. f_equal. by apply IH.
Qed.

(** C8.  In [MultiSearch] over at least one reader, the list is made with a
    channel of the capacity twice the number of readers, which never holds
    more; at most 1000 goroutines of the list run at a time; and the one
    collector of the request collects from what [Next] hands it out of this
    channel.  When [Next] has returned [nil], the collector has been handed
    the matches that the goroutine of every searcher sends, which for a
    searcher that fails are those before its failure and for the others are
    all, whatever happens to the rest; and in the sequential run [Next]
    does return [nil] and [MultiSearch] returns. *)
Theorem MultiSearch_funnels_matches {Reader} gs cs
    (req : SearchRequest Reader) readers ss :
  newSearchers req readers = inl ss → ss ≠ [] →
  let aggs := reqAggregations req in
  let c := reqCollectorConfig req aggs in
  ∃ msl, NewMultiSearcherList ss c = Some msl
    ∧ docChan (m msl) = make (length readers * 2)
    ∧ limit = 1000%nat
    ∧ let st := exec gs msl in
      cap (docChan (m st)) = (length readers * 2)%nat
      ∧ (length (buffer (docChan (m st))) ≤ length readers * 2)%nat
      ∧ (running st ≤ limit)%nat
      ∧ MultiSearch gs cs false req readers
        = stream st
            ≫= collector.Collect cs false (reqCollector req true) aggs
      ∧ (∀ s, stream st = Some s →
           failure s = None ∧ pending s ≡ₚ concat (sends c <$> ss))
      ∧ stream (exec (serve_all c ss) msl)
        = Some (mkCollectible (concat (sends c <$> ss)) None)
      ∧ (Z.of_nat (length (concat (sends c <$> ss))) ≤ int_max →
         is_Some
           (MultiSearch (serve_all c ss)
              (collector.sequential (length (concat (sends c <$> ss))))
              false req readers)).
Proof.
  intros Hnew Hss. cbn zeta.
  pose proof (newSearchers_length req readers ss Hnew) as Hlen.
  eexists. split; [by apply NewMultiSearcherList_Some|].
  set (msl := mkCollecting _ _ _ _ _ _ _ _).
  assert (NewMultiSearcherList ss (reqCollectorConfig req (reqAggregations req))
          = Some msl) as Hmsl by (by apply NewMultiSearcherList_Some).
  destruct (NewMultiSearcherList_inv _ _ _ Hmsl) as [Hinv Hcc].
  apply (msl_exec_inv ss gs) in Hinv.
  pose proof (λ s, stream_delivered ss _ s Hinv) as Hstream.
  rewrite msl_exec_cc, Hcc in Hstream.
  destruct Hinv as (_ & Hcap & Hbuf & Hrun & _).
  rewrite Hcap in Hbuf. rewrite Hlen in *.
  split_and!; try done.
  - subst msl. simpl. by rewrite Hlen.
  - unfold MultiSearch. rewrite Hnew, Hmsl. by destruct (stream _).
  - by apply serve_all_stream.
  - intros Hmax. unfold MultiSearch.
    rewrite Hnew, Hmsl, (serve_all_stream ss _ msl Hmsl).
    by apply (Collect_sequential _ _ (mkCollectible _ None)).
Qed.

(** C9.  [Next] of the list returns no error.  When the channel is closed
    and empty, it returns [nil] and no error, whether or not the goroutine
    of a searcher has returned an error.  Such an error is logged when the
    channel is closed and goes nowhere else: the stream that the collector
    sees ends without an error, holding the matches that the goroutines
    have sent, and the error that [Collect] keeps of its searcher stays
    [nil]. *)
Theorem Next_returns_nil_error ss c msl gs :
  NewMultiSearcherList ss c = Some msl →
  let st := exec gs msl in
  (∀ dm e m', Next (m st) = Some (dm, e, m') → e = None)
  ∧ (closed (docChan (m st)) = true → buffer (docChan (m st)) = [] →
       Next (m st) = Some (None, None, m st))
  ∧ (∀ e, err st = Some e →
       exited (Some e) ∈ goroutines st
       ∧ logged st = if closed (docChan (m st)) then [e] else [])
  ∧ (∀ s, stream st = Some s →
       failure s = None ∧ pending s ≡ₚ concat (sends c <$> ss)
       ∧ ∀ cs hc aggs,
           collector.err (collector.exec cs (collector.start hc aggs s))
           = None).
Proof.
  intros Hmsl. cbn zeta.
  destruct (NewMultiSearcherList_inv _ _ _ Hmsl) as [Hinv Hcc].
  apply (msl_exec_inv ss gs) in Hinv.
  pose proof (λ s, stream_delivered ss _ s Hinv) as Hstream.
  rewrite msl_exec_cc, Hcc in Hstream.
  destruct Hinv as (Hs & _ & _ & _ & _ & _ & _ & _ & Hlog & _ & Herr & _).
  set (st := exec gs msl) in *. clearbody st.
  split_and!.
  - intros dm e m'. unfold Next. destruct (recv _) as [[??]|]; [|done].
    by intros [= _ <- _].
  - intros Hc Hb. unfold Next, recv. rewrite Hb, Hc.
    by destruct (m st) as [? []].
  - intros e He. split; [by apply Herr|]. by rewrite Hlog, He.
  - intros s Hs'. destruct (Hstream s Hs') as [Hf Hp].
    split_and!; try done. intros cs hc aggs.
    destruct (exec_err cs hc aggs s) as [He|He]; [done|]. by rewrite He.
Qed.

End claims_multisearch.

Section multisearch_examples.
#[local] Existing Instance example_ext.

Lemma MultiSearch_funnels_matches_witness :
  let c := bluge.mkCollectorConfig 3 [] example_sort in
  bluge.newSearchers example_request example_readers = inl example_searchers
  ∧ bluge.docChan (bluge.m example_list) = bluge.make 4
  ∧ bluge.stream (bluge.exec (serve_all c example_searchers)
                    example_list)
    = Some (mkCollectible (example_match <$> [3; 1; 4; 10; 5; 9; 2]) None)
  ∧ bluge.MultiSearch (serve_all c example_searchers)
      (collector.sequential 7) false example_request example_readers
    = Some (Some example_multi_page, None).
Proof.
  cbn zeta. split; [reflexivity|].
  destruct (MultiSearch_funnels_matches (ext := example_ext)
              (serve_all (bluge.mkCollectorConfig 3 [] example_sort)
                 example_searchers)
              (collector.sequential 7) example_request example_readers
              example_searchers eq_refl ltac:(done))
    as (msl & Hmsl & Hchan & _ & _ & _ & _ & _ & _ & Hstream & _).
  injection Hmsl as <-.
  split; [exact Hchan|].
  split; [etrans; [exact Hstream|by vm_compute]|].
  by vm_compute.
Defined.

Lemma Next_returns_nil_error_witness :
  let c := bluge.mkCollectorConfig 3 [] example_sort in
  let st := bluge.exec (serve_all c example_searchers) example_list in
  bluge.NewMultiSearcherList example_searchers c = Some example_list
  ∧ bluge.err st = Some (Failure "segment")
  ∧ bluge.logged st = [Failure "segment"]
  ∧ bluge.Next (bluge.m st) = Some (None, None, bluge.m st)
  ∧ ∃ s, bluge.stream st = Some s ∧ failure s = None.
Proof.
  cbn zeta. split; [reflexivity|].
  destruct (Next_returns_nil_error (ext := example_ext) example_searchers
              (bluge.mkCollectorConfig 3 [] example_sort) example_list
              (serve_all (bluge.mkCollectorConfig 3 [] example_sort)
                 example_searchers) eq_refl)
    as (_ & Hnil & Hlog & Hstream).
  split; [by vm_compute|].
  destruct (Hlog (Failure "segment")) as [_ Hlogged]; [by vm_compute|].
  split; [rewrite Hlogged; by vm_compute|].
  split; [apply Hnil; by vm_compute|].
  eexists. split; [by vm_compute|].
  eapply Hstream. by vm_compute.
Defined.

End multisearch_examples.

(** ** The configuration *)

Section claims_config.
Import index.
Context {foreign : Foreign}.

(** C10.  For a configuration [c] whose map of virtual fields is allocated,
    [c.WithVirtualField(f)] returns a copy of [c] that refers to the same
    map and appends [f] to the entry of its name in this map, so that [c]
    holds [f] afterwards as well; nothing else in the store changes.
    [c.WithPersisterNapTimeMSec(n)] and [c.WithNormCalc(g)] write to no map:
    the copy that they return differs from [c] in the named field only. *)
Theorem WithVirtualField_shares_map (c : Config) (f : Field) (h : store)
    a fields :
  virtualFields c = Some a → h !! a = Some fields →
  (∃ h', WithVirtualField c f h = Some (c, h')
     ∧ virtualFieldsOf c h' (Name f) = virtualFieldsOf c h (Name f) ++ [f]
     ∧ f ∈ virtualFieldsOf c h' (Name f)
     ∧ (∀ name, name ≠ Name f →
          virtualFieldsOf c h' name = virtualFieldsOf c h name)
     ∧ (∀ a', a' ≠ a → h' !! a' = h !! a'))
  ∧ (∀ n, let c2 := WithPersisterNapTimeMSec c n in
          PersisterNapTimeMSec c2 = n
          ∧ NormCalc c2 = NormCalc c
          ∧ virtualFields c2 = virtualFields c
          ∧ same_rest c c2)
  ∧ (∀ g, let c2 := WithNormCalc c g in
          NormCalc c2 = g
          ∧ PersisterNapTimeMSec c2 = PersisterNapTimeMSec c
          ∧ virtualFields c2 = virtualFields c
          ∧ same_rest c c2).
Proof.
  intros Ha Hfields. split_and!.
  - unfold WithVirtualField, virtualFieldsOf. rewrite Ha, Hfields.
    eexists. split; [done|]. rewrite lookup_insert_eq. simpl.
    rewrite lookup_insert_eq. simpl. split_and!; [done| | |].
    + apply elem_of_app. right. by left.
    + intros name Hname. by rewrite lookup_insert_ne.
    + intros a' Ha'. by rewrite lookup_insert_ne.
  - intros n. by split_and!.
  - intros g. by split_and!.
Qed.

End claims_config.

Lemma WithVirtualField_shares_map_witness :
  ∃ h',
    index.WithVirtualField (foreign := example_foreign) example_config
      ("title"%string, 7) example_store
    = Some (example_config, h')
    ∧ virtualFieldsOf (foreign := example_foreign) example_config
        example_store "title" = []
    ∧ virtualFieldsOf (foreign := example_foreign) example_config h' "title"
      = [("title"%string, 7)].
Proof.
  destruct (WithVirtualField_shares_map (foreign := example_foreign)
              example_config ("title"%string, 7) example_store 1%positive ∅
              eq_refl eq_refl)
    as [(h' & Hwith & Hfields & _) _].
  exists h'. split; [exact Hwith|]. split; [reflexivity|].
  etrans; [exact Hfields|reflexivity].
Defined.

(** * Further properties of the collector *)

Section more_collect.
Import search collector.
Context {ext : Externals}.

Lemma exec_run_inv sched c aggs s :
  fresh c → Z.of_nat (length (pending s)) ≤ int_max →
  run_inv (hc (start c aggs s)) (bucket (start c aggs s)) s
    (exec sched (start c aggs s)).
Proof.
  intros Hfresh HN.
  pose proof (start_settings c aggs s) as Hstart. cbn zeta in Hstart.
  destruct Hstart as (Hsz & Hsk & _).
  pose proof Hfresh as (_ & _ & Hsize & Hskip & Hfit).
  apply exec_inv; [|done|by apply start_inv].
  rewrite Hsz, Hsk, int_add_exact; unfold int_min, int_max in *; lia.
Qed.

(** X1.  In every run of [Collect], a task hands its match to the sort, the
    consume and the compare stage only while the match carries no error: the
    stage that the task is waiting on serves the match and signals
    [PipelineFinished], rather than going on to its next match without a
    signal; no task waits for ever. *)
Theorem no_task_waits sched c aggs s i t :
  fresh c → Z.of_nat (length (pending s)) ≤ int_max →
  let r := exec sched (start c aggs s) in
  tasks r !! i = Some t →
  pos t ≠ waiting
  ∧ (pos t = atSort → is_Some (sortStep (hc r) (doc t)))
  ∧ (pos t = atConsume → is_Some (consumeStep (bucket r) (doc t)))
  ∧ (pos t = atCompare →
     is_Some (compareStep (hc r) (searchContext r) (doc t))).
Proof.
  intros Hfresh HN r Hi.
  destruct (exec_run_inv sched c aggs s Hfresh HN)
    as (_ & _ & _ & Htasks & _).
  destruct (Htasks i t Hi) as (m & _ & Hok). unfold task_ok in Hok.
  split_and!.
  - intros Hp. by rewrite Hp in Hok.
  - intros Hp. rewrite Hp in Hok. unfold sortStep.
    by rewrite (proj2 Hok).
  - intros Hp. rewrite Hp in Hok. unfold consumeStep.
    by rewrite (proj2 Hok).
  - intros Hp. rewrite Hp in Hok. apply compareStep_Some, Hok.
Qed.

Lemma taken_app sched1 sched2 r :
  taken (sched1 ++ sched2) r
  = taken sched1 r ++ taken sched2 (exec sched1 r).
Proof.
  revert r. induction sched1 as [|e sched1 IH]; intros r; [done|].
  simpl. by rewrite IH, app_assoc.
Qed.

Lemma numbered_past p : numbered p = true → past_number p = true.
Proof. by destruct p as [| | | | | |[e|]|]. Qed.

(** What a step of task [i] does to the tasks and to the hit counter. *)
Lemma advance_task i r d p :
  tasks r !! i = Some (mkTask d p) →
  ∃ d' p',
    tasks (advance i r) = <[i := mkTask d' p']> (tasks r)
    ∧ match p with
      | atHitNumber =>
          d' = set_HitNumber (int_add (hitNumber r) 1) d
          ∧ p' = atLoadDocValues
          ∧ hitNumber (advance i r) = int_add (hitNumber r) 1
      | _ =>
          hitNumber (advance i r) = hitNumber r
          ∧ (past_number p = true →
             past_number p' = true ∧ HitNumber d' = HitNumber d)
          ∧ (numbered p' = true → numbered p = true)
      end.
Proof.
  intros Hi. unfold advance. rewrite Hi.
  destruct p as [| | | | | |e|].
  - destruct (polls i r && done r); eexists _, _; simpl; by split_and!.
  - eexists _, _; simpl; by split_and!.
  - destruct (Err (loadDocValuesStep (hc r) d)) eqn:He;
      eexists _, _; simpl; split_and!; try done;
      intros _; by rewrite loadDocValuesStep_HitNumber.
  - unfold sortStep. destruct (Err d);
      eexists _, _; simpl; by split_and!.
  - unfold consumeStep. destruct (Err d);
      eexists _, _; simpl; by split_and!.
  - destruct (compareStep (hc r) (searchContext r) d) as [[c ctx]|];
      eexists _, _; simpl; by split_and!.
  - exists d, (returned e). by rewrite list_insert_id.
  - exists d, waiting. by rewrite list_insert_id.
Qed.

Lemma spawn_tasks r :
  hitNumber (spawn r) = hitNumber r
  ∧ ∃ l, tasks (spawn r) = tasks r ++ l
         ∧ ∀ t, t ∈ l → pos t = atCheckDone.
Proof.
  unfold spawn. destruct (err r), (next r) as [n|];
    try (split; [done|]; exists []; rewrite app_nil_r;
         split; [done|by intros ? ?%elem_of_nil]).
  destruct (Next (searcher r)) as [[??]?]. simpl. split; [done|].
  eexists. split; [done|]. by intros t ->%list_elem_of_singleton.
Qed.

Lemma seqZ_snoc n : 0 ≤ n → seqZ 1 (n + 1) = seqZ 1 n ++ [n + 1].
Proof.
  intros Hn. pose proof (seqZ_S 1 (Z.to_nat n)) as HS.
  rewrite Nat2Z.inj_succ, Z2Nat.id in HS by done.
  replace (n + 1) with (Z.succ n) by lia. rewrite HS. do 2 f_equal. lia.
Qed.

(** The numbers taken in a run are 1, 2, ... up to the hit counter, in this
    order; a task takes at most one, which its match carries from then on;
    and the tasks that are numbered have taken theirs. *)
Lemma taken_inv sched c aggs s :
  fresh c → Z.of_nat (length (pending s)) ≤ int_max →
  let r := exec sched (start c aggs s) in
  let took := taken sched (start c aggs s) in
  took.*2 = seqZ 1 (hitNumber r)
  ∧ NoDup took.*1
  ∧ (∀ i n, (i, n) ∈ took →
       ∃ t, tasks r !! i = Some t ∧ past_number (pos t) = true
            ∧ HitNumber (doc t) = n)
  ∧ (∀ i t, tasks r !! i = Some t → numbered (pos t) = true →
       (i, HitNumber (doc t)) ∈ took).
Proof.
  intros Hfresh HN. cbn zeta.
  induction sched as [|e sched IH] using rev_ind.
  { simpl. unfold start. destruct (Next s) as [[??]?]. simpl.
    split_and!; [done|constructor|by intros ?? ?%elem_of_nil|].
    intros i t. by rewrite lookup_nil. }
  destruct IH as (Hnums & Hnodup & Htook & Hnumbered).
  pose proof (exec_run_inv sched c aggs s Hfresh HN)
    as (_ & Hcount & _ & _ & _ & _ & _ & Hlen & _).
  pose proof (exec_run_inv (sched ++ [e]) c aggs s Hfresh HN)
    as (_ & _ & [Hrange _] & _).
  rewrite exec_app in *. rewrite taken_app.
  set (r := exec sched (start c aggs s)) in *.
  set (took := taken sched (start c aggs s)) in *. clearbody r took.
  change (exec [e] r) with (step e r) in *.
  destruct e as [| |i]; simpl.
  - rewrite app_nil_r. by split_and!.
  - rewrite app_nil_r. destruct (spawn_tasks r) as (Hhn & l & Hts & Hl).
    rewrite Hhn, Hts. split_and!; [done..| |].
    + intros i n Hin. destruct (Htook i n Hin) as (t & Hi & Ht).
      exists t. split; [|done]. by apply lookup_app_l_Some.
    + intros i t Hi Hn. apply lookup_app_Some in Hi as [Hi|[_ Hi]].
      * by apply Hnumbered.
      * apply list_elem_of_lookup_2, Hl in Hi. by rewrite Hi in Hn.
  - destruct (tasks r !! i) as [[d p]|] eqn:Hi.
    2:{ assert (advance i r = r) as -> by (unfold advance; by rewrite Hi).
        rewrite app_nil_r. by split_and!. }
    pose proof (lookup_lt_Some _ _ _ Hi) as Hlt.
    destruct (advance_task i r d p Hi) as (d' & p' & Hts & Hstep).
    assert (tasks (advance i r) !! i = Some (mkTask d' p')) as Hi'
      by (by rewrite Hts, list_lookup_insert_eq).
    assert (∀ j, j ≠ i → tasks (advance i r) !! j = tasks r !! j) as Hne
      by (intros j Hj; by rewrite Hts, list_lookup_insert_ne).
    assert (p = atHitNumber ∨ p ≠ atHitNumber) as [->|Hp]
      by (destruct p; (by left) || (by right)).
    + destruct Hstep as (-> & -> & Hhn).
      specialize (Hrange i _ Hi' eq_refl). simpl in Hrange.
      assert (int_add (hitNumber r) 1 = hitNumber r + 1) as Hexact.
      { destruct (decide (hitNumber r + 1 ≤ int_max)) as [Hle|Hgt].
        { apply int_add_exact. split; [|done].
          destruct Hcount as [Hcount _]. clear -Hcount. unfold int_min. lia. }
        assert (hitNumber r = int_max) as Heq.
        { assert (length (docsAt past_number (tasks r))
                  ≤ length (tasks r))%nat as Hf.
          { unfold docsAt. rewrite length_fmap. apply length_filter. }
          clear -Hf Hlen Hcount Hgt HN. lia. }
        destruct Hrange as [Hrange _]. rewrite Heq in Hrange.
        assert (int_add int_max 1 = int_min) as Hw by (by vm_compute).
        rewrite Hw in Hrange. clear -Hrange. unfold int_min in Hrange. lia. }
      rewrite Hhn, Hexact in *. rewrite !fmap_app, Hnums. simpl.
      assert (∀ n, (i, n) ∉ took) as Hnew.
      { intros n Hin. destruct (Htook i n Hin) as (t & Ht & Hpast & _).
        rewrite Hi in Ht. by injection Ht as <-. }
      split_and!.
      * symmetry. apply seqZ_snoc. lia.
      * apply NoDup_app. split_and!; [done| |].
        -- intros k Hk ->%list_elem_of_singleton.
           apply list_elem_of_fmap in Hk as ([k n] & Heq & Hin).
           simpl in Heq. subst k. by apply (Hnew n).
        -- apply NoDup_singleton.
      * intros j n [Hin|[= -> ->]%list_elem_of_singleton]%elem_of_app.
        -- destruct (decide (j = i)) as [->|Hj]; [by destruct (Hnew n)|].
           rewrite Hne by done. by apply Htook.
        -- by eexists.
      * intros j t Hj Hn. apply elem_of_app.
        destruct (decide (j = i)) as [->|Hji].
        -- right. rewrite Hi' in Hj. injection Hj as <-. simpl.
           by apply list_elem_of_singleton.
        -- left. rewrite Hne in Hj by done. by apply Hnumbered.
    + assert (hitNumber (advance i r) = hitNumber r
              ∧ (past_number p = true →
                 past_number p' = true ∧ HitNumber d' = HitNumber d)
              ∧ (numbered p' = true → numbered p = true))
        as (Hhn & Hpast & Hnum) by (by destruct p).
      assert (match p with
              | atHitNumber => [(i, int_add (hitNumber r) 1)]
              | _ => []
              end = []) as -> by (by destruct p).
      rewrite Hhn, !app_nil_r. split_and!; [done..| |].
      * intros j n Hin. destruct (Htook j n Hin) as (t & Ht & Hp' & Hn).
        destruct (decide (j = i)) as [->|Hj].
        -- rewrite Hi in Ht. injection Ht as <-. simpl in *.
           eexists. split; [done|]. simpl.
           destruct (Hpast Hp') as [? ->]. by split.
        -- exists t. by rewrite Hne.
      * intros j t Hj Hn. destruct (decide (j = i)) as [->|Hji].
        -- rewrite Hi' in Hj. injection Hj as <-. simpl in *.
           destruct (Hpast (numbered_past _ (Hnum Hn))) as [_ ->].
           by apply (Hnumbered i (mkTask d p)); [|apply Hnum].
        -- rewrite Hne in Hj by done. by apply Hnumbered.
Qed.

(** X2.  The tasks of [Collect] take the hit numbers 1, 2, 3, ... in the
    order in which they come to take one: in every run, the numbers taken so
    far are those from 1 to the hit counter, which is at most the number of
    matches; no task takes two numbers and no number is taken twice; the
    match of a task carries the number that the task took, also after the
    task has failed; and every task that is at work on a numbered match, or
    has been served, has taken the number of its match. *)
Theorem hit_numbers_distinct sched c aggs s :
  fresh c → Z.of_nat (length (pending s)) ≤ int_max →
  let r := exec sched (start c aggs s) in
  let took := taken sched (start c aggs s) in
  took.*2 = seqZ 1 (hitNumber r)
  ∧ hitNumber r ≤ Z.of_nat (length (pending s))
  ∧ NoDup took.*1
  ∧ (∀ i n, (i, n) ∈ took →
       1 ≤ n ≤ hitNumber r
       ∧ ∃ t, tasks r !! i = Some t ∧ past_number (pos t) = true
              ∧ HitNumber (doc t) = n)
  ∧ (∀ i j n m, (i, n) ∈ took → (j, m) ∈ took → i ≠ j → n ≠ m)
  ∧ (∀ i t, tasks r !! i = Some t → numbered (pos t) = true →
       (i, HitNumber (doc t)) ∈ took).
Proof.
  intros Hfresh HN r took.
  destruct (taken_inv sched c aggs s Hfresh HN)
    as (Hnums & Hnodup & Htook & Hnumbered).
  fold r took in Hnums, Hnodup, Htook, Hnumbered.
  destruct (exec_run_inv sched c aggs s Hfresh HN)
    as (_ & Hcount & _ & _ & _ & _ & _ & Hlen & _).
  fold r in Hcount, Hlen.
  split_and!; [done| |done| | |done].
  - assert (length (docsAt past_number (tasks r)) ≤ length (tasks r))%nat.
    { unfold docsAt. rewrite length_fmap. apply length_filter. }
    lia.
  - intros i n Hin. split; [|by apply Htook].
    assert (n ∈ took.*2) as Hn
      by (apply list_elem_of_fmap; by exists (i, n)).
    rewrite Hnums in Hn. apply elem_of_seqZ in Hn. lia.
  - intros i j n m Hi Hj Hij ->.
    apply list_elem_of_lookup in Hi as [a Ha].
    apply list_elem_of_lookup in Hj as [b Hb].
    assert (a = b) as ->.
    { apply (NoDup_lookup took.*2 a b m).
      - rewrite Hnums. apply NoDup_seqZ.
      - by rewrite list_lookup_fmap, Ha.
      - by rewrite list_lookup_fmap, Hb. }
    rewrite Ha in Hb. by injection Hb.
Qed.


Lemma advance_loop i r :
  next (advance i r) = next r ∧ err (advance i r) = err r
  ∧ searcher (advance i r) = searcher r ∧ done (advance i r) = done r.
Proof. unfold advance. repeat case_match; simpl; auto. Qed.

(** When the loop has no next match, it holds the error of the searcher. *)
Lemma exec_next_None sched c aggs s :
  let r := exec sched (start c aggs s) in
  failure (searcher r) = failure s ∧ (next r = None → err r = failure s).
Proof.
  cbn zeta.
  assert (∀ r, failure (searcher r) = failure s
               ∧ (next r = None → err r = failure s) →
          failure (searcher (exec sched r)) = failure s
          ∧ (next (exec sched r) = None → err (exec sched r) = failure s))
    as Hexec.
  { induction sched as [|e sched IH]; intros r Hr; [done|].
    simpl. apply IH. destruct e as [| |i]; simpl; [done| |].
    - destruct Hr as [Hf Hn]. unfold spawn, Next.
      destruct (err r) eqn:Herr; [split; [done|by rewrite Herr]|].
      destruct (next r) eqn:Hnext;
        [|split; [done|by rewrite Herr, Hnext]].
      destruct (pending (searcher r)); simpl; [|done].
      split; [done|]. by rewrite Hf.
    - by destruct (advance_loop i r) as (-> & -> & -> & _). }
  apply Hexec. unfold start, Next. by destruct (pending s).
Qed.

(** The loop pulls one match after the other. *)
Lemma exec_pull c aggs s k :
  (k ≤ length (pending s))%nat →
  let r := exec (replicate k Spawn) (start c aggs s) in
  next r = pending s !! k
  ∧ pending (searcher r) = drop (S k) (pending s)
  ∧ failure (searcher r) = failure s
  ∧ err r = (if decide (k < length (pending s))%nat then None
             else failure s).
Proof.
  cbn zeta. induction k as [|k IH]; intros Hk.
  { unfold start, Next. simpl.
    destruct (pending s) as [|d rest] eqn:Hp; simpl; rewrite ?Hp; done. }
  replace (S k) with (k + 1)%nat by lia.
  rewrite replicate_add, exec_app.
  destruct IH as (Hnext & Hpend & Hfail & Herr); [lia|].
  set (r := exec (replicate k Spawn) (start c aggs s)) in *. clearbody r.
  rewrite decide_True in Herr by lia.
  destruct (lookup_lt_is_Some_2 (pending s) k) as [d Hd]; [lia|].
  rewrite Hd in Hnext.
  change (exec (replicate 1 Spawn) r) with (spawn r).
  unfold spawn, Next. rewrite Herr, Hnext, Hpend.
  assert (drop (S (k + 1)) (pending s) = drop 1 (drop (S k) (pending s)))
    as Hdd by (rewrite drop_drop; f_equal; lia).
  assert (pending s !! (k + 1)%nat = drop (S k) (pending s) !! 0%nat) as Hl
    by (rewrite lookup_drop; f_equal; lia).
  assert (length (drop (S k) (pending s))
          = (length (pending s) - S k)%nat) as Hdl by apply length_drop.
  rewrite Hdd, Hl. clear Hdd Hl.
  destruct (drop (S k) (pending s)) as [|d' rest] eqn:Hdrop; simpl.
  - rewrite ?Hpend, ?Hdrop. split_and!; try done.
    rewrite decide_False; [done|]. simpl in Hdl. lia.
  - split_and!; try done.
    rewrite decide_True; [done|]. simpl in Hdl. lia.
Qed.

Lemma Collect_failed sched c aggs s e res :
  failure s = Some e →
  Collect sched false c aggs s = Some res → res = (None, Some e).
Proof.
  intros Hfail. unfold Collect, collectResult.
  destruct (exec_err sched c aggs s) as [He|He];
    destruct (exec_next_None sched c aggs s) as [_ Hn];
    cbn zeta in *; rewrite He.
  - destruct (next _); [done|]. rewrite Hn in He by done. congruence.
  - rewrite Hfail. by intros [= <-].
Qed.

(** X3.  When the searcher fails with [e], whatever the tasks do,
    [Collect] returns nothing but [e], without an iterator; and it returns
    as soon as its loop has pulled the matches that precede the failure,
    without waiting for the tasks. *)
Theorem Collect_searcher_failure c aggs s e :
  failure s = Some e →
  (∀ sched res,
     Collect sched false c aggs s = Some res → res = (None, Some e))
  ∧ Collect (replicate (length (pending s)) Spawn) false c aggs s
    = Some (None, Some e).
Proof.
  intros Hfail. split.
  - intros sched res. by apply Collect_failed.
  - unfold Collect, collectResult.
    destruct (exec_pull c aggs s (length (pending s))) as (_ & _ & _ & ->);
      [done|].
    rewrite decide_False by lia. by rewrite Hfail.
Qed.

(** The tasks when [Collect] returns without the error of the searcher. *)
Lemma Collect_tasks sched c aggs s res :
  fresh c → Z.of_nat (length (pending s)) ≤ int_max →
  failure s = None →
  Collect sched false c aggs s = Some res →
  let r := exec sched (start c aggs s) in
  length (tasks r) = length (pending s)
  ∧ Forall (λ t, has_returned t = true) (tasks r)
  ∧ (res.1 ≠ None → Forall (λ t, pos t = returned None) (tasks r)).
Proof.
  intros Hfresh HN Hfail. unfold Collect, collectResult. cbn zeta.
  destruct (exec_run_inv sched c aggs s Hfresh HN)
    as (_ & _ & _ & _ & _ & Herrs & Hsearch).
  assert (err (exec sched (start c aggs s)) = None) as He.
  { destruct (exec_err sched c aggs s) as [He|He]; [done|].
    cbn zeta in He. by rewrite He. }
  rewrite He.
  set (r := exec sched (start c aggs s)) in *. clearbody r.
  destruct (next r) eqn:Hnext; [done|].
  destruct (forallb has_returned (tasks r)) eqn:Hret; [|done].
  intros Hres.
  destruct Hsearch as (HP & HL & Hnone & _).
  destruct (Hnone Hnext) as [_ Hpend].
  rewrite Hnext, Hpend in HP. simpl in HP. rewrite app_nil_r in HP.
  assert (Forall (λ t, has_returned t = true) (tasks r)) as Hall.
  { apply Forall_forall. intros t Ht.
    by apply (proj1 (forallb_forall _ _) Hret), list_elem_of_In. }
  split_and!; [|done|].
  - apply (f_equal length) in HP. rewrite length_take in HP. lia.
  - intros Hit. destruct (errs r) as [|e0 es] eqn:Hes;
      [|by injection Hres as <-].
    apply Forall_forall. intros t Ht.
    pose proof (proj1 (Forall_forall _ _) Hall t Ht) as Hr.
    unfold has_returned in Hr.
    destruct (pos t) as [| | | | | |[e|]|] eqn:Hp; try done.
    apply list_elem_of_lookup in Ht as [i Hi].
    destruct Herrs as [Herrs _]. specialize (Herrs i t e Hi Hp).
    by apply elem_of_nil in Herrs.
Qed.

(** X4.  [Collect] does not return early: unless the searcher fails, it
    returns only when it has started a task for every match of the searcher
    and every task has returned, also when the context has been cancelled
    in between. *)
Theorem Collect_waits_for_all_tasks sched c aggs s res :
  fresh c → Z.of_nat (length (pending s)) ≤ int_max →
  failure s = None →
  Collect sched false c aggs s = Some res →
  let r := exec sched (start c aggs s) in
  length (tasks r) = length (pending s)
  ∧ ∀ i t, tasks r !! i = Some t → ∃ e, pos t = returned e.
Proof.
  intros Hfresh HN Hfail Hres.
  destruct (Collect_tasks sched c aggs s res Hfresh HN Hfail Hres)
    as (Hlen & Hall & _).
  cbn zeta. split; [done|]. intros i t Hi.
  pose proof (proj1 (Forall_lookup _ _) Hall i t Hi) as Hr.
  unfold has_returned in Hr. destruct (pos t); try done. by eexists.
Qed.

(** X5.  When fields are needed and the document values of a match of the
    searcher fail to load, [Collect] returns an error and no iterator, in
    every run in which it returns: the task of the match returns the error
    instead of handing the match to the later stages. *)
Theorem Collect_load_failure sched c aggs s i m e res :
  fresh c → Z.of_nat (length (pending s)) ≤ int_max →
  pending s !! i = Some m →
  let fields := neededFields (hc (start c aggs s)) in
  fields ≠ [] →
  (∀ n, LoadDocumentValues (set_HitNumber n m) fields = Some e) →
  Collect sched false c aggs s = Some res →
  ∃ e', res = (None, Some e').
Proof.
  intros Hfresh HN Hi fields Hfields Hload Hres.
  assert (res.1 = None ∨ res.2 = None) as Hshape.
  { revert Hres. unfold Collect, collectResult.
    repeat case_match; intros [= <-]; auto. }
  destruct (failure s) as [e0|] eqn:Hfail.
  { exists e0. by eapply Collect_failed. }
  destruct (Collect_tasks sched c aggs s res Hfresh HN Hfail Hres)
    as (Hlen & _ & Hnone).
  destruct (exec_run_inv sched c aggs s Hfresh HN)
    as (_ & _ & _ & Htasks & _).
  cbn zeta in *.
  destruct res as [[it|] oe]; simpl in *.
  - exfalso. specialize (Hnone ltac:(done)).
    destruct (lookup_lt_is_Some_2 (tasks (exec sched (start c aggs s))) i)
      as [t Ht]; [rewrite Hlen; by eapply lookup_lt_Some|].
    pose proof (proj1 (Forall_lookup _ _) Hnone i t Ht) as Hp.
    destruct (Htasks i t Ht) as (m' & Hm' & Hok).
    rewrite Hi in Hm'. injection Hm' as <-.
    unfold task_ok in Hok. rewrite Hp in Hok. destruct Hok as [Hdoc He].
    rewrite Hdoc in He. unfold hit, loadDocValuesStep in He. simpl in He.
    rewrite decide_True in He.
    + simpl in He. fold fields in He. by rewrite Hload in He.
    + fold fields. destruct fields; [done|simpl; lia].
  - destruct oe as [e'|]; [by eexists|].
    revert Hres. unfold Collect, collectResult.
    repeat case_match; by intros [=].
Qed.



(** *** Hit numbers in the sequential run *)

(** A step of the last task: it takes its hit number at [atHitNumber] and
    keeps it afterwards; the tasks before it stay as they are. *)
Lemma advance_last_HitNumber ts d p r :
  tasks r = ts ++ [mkTask d p] →
  ∃ d' p', tasks (advance (length ts) r) = ts ++ [mkTask d' p']
    ∧ (p = atHitNumber →
       HitNumber d' = int_add (hitNumber r) 1 ∧ p' = atLoadDocValues)
    ∧ (p ≠ atHitNumber → HitNumber d' = HitNumber d)
    ∧ (p ≠ atHitNumber → p ≠ atCheckDone →
       p' ≠ atHitNumber ∧ p' ≠ atCheckDone).
Proof.
  intros Hts. unfold advance. rewrite Hts, lookup_last_task.
  destruct p as [| | | | | |e|].
  - destruct (polls _ _ && done r); eexists _, _; simpl;
      rewrite Hts, insert_last_task; by split_and!.
  - eexists _, _; simpl. rewrite Hts, insert_last_task. by split_and!.
  - destruct (Err (loadDocValuesStep (hc r) d)); eexists _, _; simpl;
      rewrite Hts, insert_last_task;
      (split_and!; [done|done|intros; apply loadDocValuesStep_HitNumber|done]).
  - unfold sortStep. destruct (Err d); eexists _, _; simpl;
      rewrite Hts, insert_last_task; by split_and!.
  - unfold consumeStep. destruct (Err d); eexists _, _; simpl;
      rewrite Hts, insert_last_task; by split_and!.
  - destruct (compareStep (hc r) (searchContext r) d) as [[c' ctx']|];
      eexists _, _; simpl; rewrite Hts, insert_last_task; by split_and!.
  - eexists _, _. by split_and!.
  - eexists _, _. by split_and!.
Qed.

Lemma advance_last_n_HitNumber n ts d p r :
  tasks r = ts ++ [mkTask d p] → p ≠ atHitNumber → p ≠ atCheckDone →
  ∃ d' p',
    tasks (exec (replicate n (Advance (length ts))) r) = ts ++ [mkTask d' p']
    ∧ HitNumber d' = HitNumber d.
Proof.
  revert d p r. induction n as [|n IH]; intros d p r Hts Hp1 Hp2.
  { by eexists _, _. }
  destruct (advance_last_HitNumber ts d p r Hts)
    as (d1 & p1 & Hts1 & _ & Hhn & Hpos).
  destruct (Hpos Hp1 Hp2) as [Hp1' Hp2'].
  destruct (IH d1 p1 _ Hts1 Hp1' Hp2') as (d2 & p2 & Hts2 & Hhn2).
  exists d2, p2. cbn [replicate]. rewrite exec_Advance.
  split; [done|]. rewrite Hhn2. by apply Hhn.
Qed.

Lemma hitNumbers_sequential c aggs s n :
  (n ≤ length (pending s))%nat → Z.of_nat (length (pending s)) ≤ int_max →
  hitNumbers (sequential n) c aggs s = seqZ 1 (Z.of_nat n).
Proof.
  intros Hn HN. unfold hitNumbers. induction n as [|n IH].
  { unfold start. by destruct (Next s) as [[??]?]. }
  destruct (seq_inv_sequential c aggs s n) as [Hinv _]; [lia|done|].
  rewrite sequential_S, exec_app.
  specialize (IH ltac:(lia)).
  set (r := exec (sequential n) (start c aggs s)) in *. clearbody r.
  destruct Hinv as (Hdone & Hhn & Hloop).
  destruct (spawn_loop s n r Hloop) as (d & Hts1 & Hdone1 & Hhn1 & _); [lia|].
  destruct Hloop as (Hlen & _).
  assert (replicate 6 (Advance n)
          = Advance n :: Advance n :: replicate 4 (Advance n)) as -> by done.
  rewrite exec_Spawn, !exec_Advance.
  rewrite Hdone in Hdone1. rewrite Hhn in Hhn1.
  set (r1 := spawn r) in *. clearbody r1. rewrite <- Hlen in *.
  destruct (advance_last _ _ _ r1 Hts1 Hdone1 I)
    as (d2 & p2 & Hts2 & _ & _ & Hp2 & _ & Hhn2 & _).
  specialize (Hp2 eq_refl). subst p2. specialize (Hhn2 ltac:(done)).
  set (r2 := advance (length (tasks r)) r1) in *. clearbody r2.
  destruct (advance_last_HitNumber _ _ _ r2 Hts2)
    as (d3 & p3 & Hts3 & Hd3 & _).
  destruct (Hd3 eq_refl) as [Hhn3 ->].
  set (r3 := advance (length (tasks r)) r2) in *. clearbody r3.
  destruct (advance_last_n_HitNumber 4 _ _ _ r3 Hts3)
    as (d4 & p4 & Hts4 & Hhn4); [done..|].
  rewrite Hts4, fmap_app, IH. simpl.
  rewrite Hhn4, Hhn3, Hhn2, Hhn1.
  rewrite int_add_exact by (unfold int_min, int_max in *; lia).
  rewrite seqZ_S. f_equal. f_equal. lia.
Qed.

(** X7.  When the tasks run one after another, the matches get the hit
    numbers 1, 2, ... in the order in which the searcher produced them, so
    that among matches with equal sort keys the earlier one ranks first:
    the iterator holds the ranks from [skip] up to [skip + size] of the
    matches in the order of [sort], ties broken by the order of arrival. *)
Theorem sequential_ties_by_arrival size skip sort reverse aggs s it :
  0 ≤ size → 0 ≤ skip → size + skip ≤ int_max →
  Z.of_nat (length (pending s)) ≤ int_max →
  let c := newTopNCollector size skip sort reverse in
  let sched := sequential (length (pending s)) in
  hitNumbers sched c aggs s = seqZ 1 (Z.of_nat (length (pending s)))
  ∧ (Collect sched false c aggs s = Some (Some it, None) →
     let ranked :=
       sortMatches sort
         (matched c aggs s (seqZ 1 (Z.of_nat (length (pending s))))) in
     it_results it
       = if reverse then rev (slice_of size skip ranked)
         else slice_of size skip ranked).
Proof.
  intros Hsize Hskip Hfit HN. cbn zeta.
  pose proof (hitNumbers_sequential (newTopNCollector size skip sort reverse)
                aggs s (length (pending s)) ltac:(done) HN) as Hhns.
  split; [done|]. intros Hret.
  apply Collect_iterator in Hret as (_ & Hres & _);
    [|by apply newTopNCollector_fresh|done].
  cbn zeta in Hres. rewrite filter_afterCursor_None in Hres.
  by rewrite Hhns in Hres.
Qed.


(** X8.  In every run of [Collect], the store holds at most [size + skip]
    matches: the best ones among the matches past the cursor that the
    compare stage has served; and the lowest match outside the results is
    the best of the others.  The stores are those of [collectorStore], as
    the interface describes them. *)
Theorem store_holds_best sched c aggs s :
  fresh c → Z.of_nat (length (pending s)) ≤ int_max →
  let r := exec sched (start c aggs s) in
  let k := Z.to_nat (size c + skip c) in
  ∃ ranked,
    StronglySorted (before (sort c)) ranked
    ∧ ranked
      ≡ₚ filter (afterCursor (sort c) (searchAfter c))
           (docsAt served (tasks r))
    ∧ store_entries (store (hc r)) ≡ₚ take k ranked
    ∧ (length (store_entries (store (hc r))) ≤ k)%nat
    ∧ lowestMatchOutsideResults (hc r) = ranked !! k.
Proof.
  intros Hfresh HN. cbn zeta.
  destruct (exec_run_inv sched c aggs s Hfresh HN)
    as ([_ (S & HS & Hperm & Hview & Hlow)] & _).
  pose proof (start_settings c aggs s) as Hstart. cbn zeta in Hstart.
  destruct Hstart as (Hsz & Hsk & Ho & _ & Hsa & _).
  pose proof Hfresh as (_ & _ & Hsize & Hskip & Hfit).
  unfold bound in *. rewrite Hsz, Hsk, Ho, ?Hsa in *.
  rewrite int_add_exact in * by (unfold int_min, int_max in *; lia).
  assert (store_entries (store (hc (exec sched (start c aggs s))))
          ≡ₚ take (Z.to_nat (size c + skip c)) S) as Hentries.
  { destruct (store _) as [x|x]; simpl in *.
    - by destruct Hview as [_ ->].
    - by destruct Hview as (_ & _ & ->). }
  exists S. split_and!; try done.
  rewrite Hentries, length_take. lia.
Qed.

End more_collect.

(** * Further properties of the search over several readers *)

Section more_multisearch.
Import bluge searchers.
Context {ext : Externals}.

Lemma pool_size_fold (l : list Searcher) (rv0 : Z) :
  let rv :=
    fold_left
      (λ rv searcher,
         let ps := poolSize searcher in if decide (ps > rv) then ps else rv)
      l rv0 in
  rv0 ≤ rv ∧ (∀ s, s ∈ l → poolSize s ≤ rv)
  ∧ (rv = rv0 ∨ ∃ s, s ∈ l ∧ poolSize s = rv).
Proof.
  cbn zeta. revert rv0. induction l as [|s l IH]; intros rv0; simpl.
  { split_and!; [lia| |by left]. by intros s ?%elem_of_nil. }
  destruct (decide (poolSize s > rv0)) as [Hgt|Hle].
  - destruct (IH (poolSize s)) as (H1 & H2 & H3). split_and!; [lia| |].
    + intros s' [->|Hin]%elem_of_cons; [done|by apply H2].
    + right. destruct H3 as [->|(s' & Hin & <-)].
      * exists s. split; [by left|done].
      * exists s'. split; [by right|done].
  - destruct (IH rv0) as (H1 & H2 & H3). split_and!; [done| |].
    + intros s' [->|Hin]%elem_of_cons; [lia|by apply H2].
    + destruct H3 as [->|(s' & Hin & <-)]; [by left|].
      right. exists s'. split; [by right|done].
Qed.

(** X9.  [DocumentMatchPoolSize] of the list is the largest pool size of
    its searchers, and 0 when there is no searcher or no pool size above
    0. *)
Theorem DocumentMatchPoolSize_largest (m : MultiSearcherList) :
  let rv := DocumentMatchPoolSize m in
  0 ≤ rv
  ∧ (∀ s, s ∈ searchers m → poolSize s ≤ rv)
  ∧ (rv = 0 ∨ ∃ s, s ∈ searchers m ∧ poolSize s = rv).
Proof. apply pool_size_fold. Qed.

Lemma Close_fold (searcherClose : Searcher → option error)
    (l : list Searcher) closed0 err0 :
  fold_left
    (λ '(closed, err) searcher,
       let cerr := searcherClose searcher in
       (closed ++ [searcher],
        match err with
        | None => cerr
        | Some _ => err
        end))
    l (closed0, err0)
  = (closed0 ++ l,
     match err0 with
     | None => head (omap searcherClose l)
     | Some _ => err0
     end).
Proof.
  revert closed0 err0. induction l as [|s l IH]; intros closed0 err0; simpl.
  { rewrite app_nil_r. by destruct err0. }
  rewrite IH, <- app_assoc. f_equal.
  destruct err0; [done|]. by destruct (searcherClose s).
Qed.

(** X10.  [Close] closes every searcher of the list, once and in order,
    also after the close of one has failed, and returns the first error
    among them, or [nil] when there is none. *)
Theorem Close_closes_all (searcherClose : Searcher → option error)
    (m : MultiSearcherList) :
  Close searcherClose m
  = (searchers m, head (omap searcherClose (searchers m))).
Proof. unfold Close. by rewrite Close_fold. Qed.

(** The first reader whose searcher cannot be made. *)
Lemma newSearchers_inr {Reader} (req : SearchRequest Reader) readers e :
  newSearchers req readers = inr e ↔
  ∃ k reader,
    readers !! k = Some reader ∧ reqSearcher req reader = inr e
    ∧ ∀ j r, (j < k)%nat → readers !! j = Some r →
             ∃ s, reqSearcher req r = inl s.
Proof.
  induction readers as [|reader readers IH]; simpl.
  { split; [done|]. by intros (k & r & Hk & _). }
  destruct (reqSearcher req reader) as [s|e0] eqn:Hreader.
  - destruct (newSearchers req readers) as [ss|e1] eqn:Hrest.
    + split; [done|]. intros (k & r & Hk & Hr & Hbefore).
      destruct k as [|k]; [simpl in Hk; congruence|].
      assert (inl ss = inr e :> list Searcher + error); [|done].
      apply IH. exists k, r. split_and!; [done..|].
      intros j r' Hj Hr'. apply (Hbefore (S j)); [lia|done].
    + split.
      * intros [= ->]. destruct (proj1 IH eq_refl) as (k & r & Hk & Hr & Hb).
        exists (S k), r. split_and!; [done..|].
        intros [|j] r' Hj Hr'; simpl in Hr'.
        -- injection Hr' as <-. by exists s.
        -- apply (Hb j); [lia|done].
      * intros (k & r & Hk & Hr & Hbefore).
        destruct k as [|k]; [simpl in Hk; congruence|].
        apply IH. exists k, r. split_and!; [done..|].
        intros j r' Hj Hr'. apply (Hbefore (S j)); [lia|done].
  - split.
    + intros [= ->]. exists 0%nat, reader. split_and!; [done..|]. lia.
    + intros (k & r & Hk & Hr & Hbefore). destruct k as [|k].
      * simpl in Hk. congruence.
      * destruct (Hbefore 0%nat reader) as [s Hs]; [lia|done|]. congruence.
Qed.

(** X11.  When the searcher of a reader cannot be made, [MultiSearch]
    returns the error of the first such reader and no iterator; it neither
    makes the list nor calls the collector, so that the state of the context
    and the later readers play no part. *)
Theorem MultiSearch_searcher_error {Reader} gs cs cancelled
    (req : SearchRequest Reader) readers k reader e :
  readers !! k = Some reader → reqSearcher req reader = inr e →
  (∀ j r, (j < k)%nat → readers !! j = Some r →
          ∃ s, reqSearcher req r = inl s) →
  MultiSearch gs cs cancelled req readers = Some (None, Some e).
Proof.
  intros Hk Hr Hbefore. unfold MultiSearch.
  by rewrite (proj2 (newSearchers_inr req readers e)) by eauto.
Qed.


(** *** The order of the matches of one searcher *)

Lemma fifo_go ss st : msl_inv ss st → fifo_inv ss st → fifo_inv ss (go st).
Proof.
  intros (Hs & _ & _ & _ & Hi & _) Hfifo. unfold go. rewrite Hs.
  destruct (ss !! i st) as [s|] eqn:Hlook; [|done].
  destruct (decide _); [|done].
  intros k g. simpl. intros Hk.
  apply lookup_app_Some in Hk as [Hk|[Hlen Hk]]; [by apply Hfifo|].
  apply list_lookup_singleton_Some in Hk as [Hk <-].
  assert (k = i st) as -> by lia.
  exists s, []. split_and!; [done|done|apply sublist_nil_l].
Qed.

(** Goroutine [k] goes on as [g'], having sent the matches [sent]. *)
Lemma fifo_move ss st k g g' sent :
  fifo_inv ss st → goroutines st !! k = Some g →
  outstanding (cc st) g = sent ++ outstanding (cc st) g' →
  fifo_inv ss
    (set_docChan
       (mkChan (buffer (docChan (m st)) ++ sent) (cap (docChan (m st)))
          (closed (docChan (m st))))
       (set_goroutine k g' st)).
Proof.
  intros Hfifo Hk Hout j gj. simpl. intros Hj.
  destruct (decide (j = k)) as [->|Hne].
  - rewrite list_lookup_insert_eq in Hj by (by eapply lookup_lt_Some).
    injection Hj as <-.
    destruct (Hfifo k g Hk) as (s & sent0 & Hs & Hsends & Hsub).
    exists s, (sent0 ++ sent). split_and!; [done| |].
    + by rewrite Hsends, Hout, app_assoc.
    + rewrite app_assoc. by apply sublist_app.
  - rewrite list_lookup_insert_ne in Hj by done.
    destruct (Hfifo j gj Hj) as (s & sent0 & Hs & Hsends & Hsub).
    exists s, sent0. split_and!; [done..|].
    rewrite app_assoc. by apply sublist_inserts_r.
Qed.

Lemma fifo_work ss k st : fifo_inv ss st → fifo_inv ss (work k st).
Proof.
  intros Hfifo. unfold work.
  destruct (goroutines st !! k) as [[s|s dm|e]|] eqn:Hk; try done.
  - pose proof (fifo_move ss st k (atNext s) (fetch (cc st) s) [] Hfifo Hk)
      as Hmove.
    rewrite app_nil_r in Hmove. intros j gj Hj.
    apply (Hmove (eq_sym (fetch_outstanding _ _)) j gj Hj).
  - unfold send. destruct (decide _); [|done].
    by apply (fifo_move ss st k (atSend s dm) (atNext s) [dm]).
Qed.

Lemma fifo_wait ss st : fifo_inv ss st → fifo_inv ss (wait st).
Proof. intros Hfifo. unfold wait. by destruct (decide _). Qed.

Lemma fifo_callNext ss st : fifo_inv ss st → fifo_inv ss (callNext st).
Proof.
  intros Hfifo. unfold callNext, Next, recv.
  destruct (ended st); [done|].
  destruct (buffer (docChan (m st))) as [|dm rest] eqn:Hb.
  - destruct (closed (docChan (m st))); [|done].
    intros k g Hk. destruct (Hfifo k g Hk) as (s & sent & ? & ? & Hsub).
    exists s, sent. simpl. by rewrite Hb in *.
  - intros k g Hk. destruct (Hfifo k g Hk) as (s & sent & ? & ? & Hsub).
    exists s, sent. simpl. rewrite Hb in Hsub.
    split_and!; [done..|]. by rewrite <- app_assoc.
Qed.

Lemma fifo_exec ss sched st :
  msl_inv ss st → fifo_inv ss st → fifo_inv ss (exec sched st).
Proof.
  revert st. induction sched as [|e sched IH]; intros st Hinv Hfifo; [done|].
  simpl. apply IH; [by apply msl_step_inv|].
  destruct e; simpl;
    [by apply fifo_go|by apply fifo_work|by apply fifo_wait
    |by apply fifo_callNext].
Qed.

(** X12.  The channel keeps the order of each searcher: when [Next] has
    returned [nil], the matches that the goroutine of a searcher has sent are
    among the matches that the collector has been handed, in the order in
    which the searcher produced them. *)
Theorem MultiSearcherList_keeps_order ss c msl gs strm k s :
  NewMultiSearcherList ss c = Some msl →
  stream (exec gs msl) = Some strm →
  ss !! k = Some s →
  sends c s `sublist_of` pending strm.
Proof.
  intros Hmsl Hstrm Hk.
  destruct (NewMultiSearcherList_inv _ _ _ Hmsl) as [Hinv Hcc].
  assert (fifo_inv ss msl) as Hfifo.
  { unfold NewMultiSearcherList in Hmsl.
    destruct (contextSize _ _); [|done]. injection Hmsl as <-.
    by intros j g ?. }
  apply (fifo_exec ss gs) in Hfifo; [|done].
  apply (msl_exec_inv ss gs) in Hinv.
  pose proof (msl_exec_cc gs msl) as Hcc'. rewrite Hcc in Hcc'.
  set (st := exec gs msl) in *. clearbody st.
  destruct Hinv as (_ & _ & _ & _ & Hi & _ & _ & Hclosed & _ & Hended & _).
  unfold stream in Hstrm. destruct (ended st) eqn:Hend; [|done].
  injection Hstrm as <-. simpl.
  destruct Hended as [Hc Hb]; [done|].
  destruct (Hclosed Hc) as [HiN Hr].
  destruct (lookup_lt_is_Some_2 (goroutines st) k) as [g Hg].
  { rewrite <- Hi, HiN. by eapply lookup_lt_Some. }
  destruct (Hfifo k g Hg) as (s' & sent & Hs' & Hsends & Hsub).
  rewrite Hk in Hs'. injection Hs' as <-.
  pose proof (running_exited st k g Hr Hg) as Hex.
  destruct g; try done. simpl in Hsends.
  rewrite app_nil_r in Hsends. rewrite Hb, app_nil_r in Hsub.
  by rewrite <- Hcc', Hsends.
Qed.

(** X13.  The channel is closed only when every searcher has got its
    goroutine and every goroutine has returned: no goroutine ever sends on
    the closed channel, and [Next] returns [nil] only when everything that
    was sent has been handed out. *)
Theorem channel_closed_after_all ss c msl gs :
  NewMultiSearcherList ss c = Some msl →
  let st := exec gs msl in
  (closed (docChan (m st)) = true →
     length (goroutines st) = length ss
     ∧ (∀ k g, goroutines st !! k = Some g → ∃ e, g = exited e)
     ∧ ∀ k, work k st = st)
  ∧ (ended st = true →
     closed (docChan (m st)) = true ∧ buffer (docChan (m st)) = []).
Proof.
  intros Hmsl. cbn zeta.
  destruct (NewMultiSearcherList_inv _ _ _ Hmsl) as [Hinv _].
  apply (msl_exec_inv ss gs) in Hinv.
  set (st := exec gs msl) in *. clearbody st.
  destruct Hinv as (_ & _ & _ & _ & Hi & _ & _ & Hclosed & _ & Hended & _).
  split; [|done]. intros Hc. destruct (Hclosed Hc) as [HiN Hr].
  assert (∀ k g, goroutines st !! k = Some g → ∃ e, g = exited e) as Hex.
  { intros k g Hg. pose proof (running_exited st k g Hr Hg) as Hrun.
    destruct g; try done. by eexists. }
  split_and!; [congruence|done|].
  intros k. unfold work.
  destruct (goroutines st !! k) as [g|] eqn:Hg; [|done].
  by destruct (Hex k g Hg) as [e ->].
Qed.

Lemma elem_of_concat {A} (x : A) (ls : list (list A)) :
  x ∈ concat ls ↔ ∃ l, x ∈ l ∧ l ∈ ls.
Proof.
  induction ls as [|l ls IH]; simpl.
  { split; [by intros ?%elem_of_nil|]. by intros (l & _ & ?%elem_of_nil). }
  rewrite elem_of_app, IH. split.
  - intros [Hx|(l' & Hx & Hl')]; [exists l|exists l'];
      (split; [done|]); [by left|by right].
  - intros (l' & Hx & [->|Hl']%elem_of_cons); [by left|].
    right. by exists l'.
Qed.

Lemma elem_of_output c l dm :
  dm ∈ output c l →
  dm ∈ l
  ∧ (NeededFields c ≠ [] → LoadDocumentValues dm (NeededFields c) = None).
Proof.
  induction l as [|d l IH]; simpl; [by intros ?%elem_of_nil|].
  destruct (decide _) as [Hneeded|Hnone].
  - destruct (LoadDocumentValues d (NeededFields c)) eqn:Hload;
      [by intros ?%elem_of_nil|].
    intros [->|Hin]%elem_of_cons.
    + split; [by left|done].
    + destruct (IH Hin). split; [by right|done].
  - assert (NeededFields c = []) as Hnil
      by (destruct (NeededFields c); [done|simpl in Hnone; lia]).
    intros [->|Hin]%elem_of_cons.
    + split; [by left|done].
    + destruct (IH Hin). split; [by right|done].
Qed.

Lemma output_all c l : NeededFields c = [] → output c l = l.
Proof.
  intros Hnil. induction l as [|d l IH]; [done|]. simpl.
  rewrite Hnil. simpl. by rewrite IH.
Qed.

(** X15.  Every match that [Next] hands to the collector is a match of one
    of the searchers, and its document values have been loaded when fields
    are needed: a match whose values fail to load, and the matches of its
    searcher after it, never reach the collector.  When no field is needed,
    the collector is handed every match of every searcher. *)
Theorem delivered_matches_loaded ss c msl gs strm :
  NewMultiSearcherList ss c = Some msl →
  stream (exec gs msl) = Some strm →
  (∀ dm, dm ∈ pending strm →
     (∃ s, s ∈ ss ∧ dm ∈ pending (matches s))
     ∧ (NeededFields c ≠ [] →
        LoadDocumentValues dm (NeededFields c) = None))
  ∧ (NeededFields c = [] →
     pending strm ≡ₚ concat ((λ s, pending (matches s)) <$> ss)).
Proof.
  intros Hmsl Hstrm.
  destruct (NewMultiSearcherList_inv _ _ _ Hmsl) as [Hinv Hcc].
  apply (msl_exec_inv ss gs) in Hinv.
  destruct (stream_delivered ss _ strm Hinv Hstrm) as [_ Hperm].
  rewrite msl_exec_cc, Hcc in Hperm. split.
  - intros dm Hdm. rewrite Hperm in Hdm.
    apply elem_of_concat in Hdm as (l & Hdm & Hl).
    apply list_elem_of_fmap in Hl as (s & -> & Hs).
    apply elem_of_output in Hdm as [Hin Hload]. split; [by exists s|done].
  - intros Hnil. rewrite Hperm.
    assert (sends c <$> ss = (λ s, pending (matches s)) <$> ss) as ->; [|done].
    apply list_fmap_ext. intros _ s _. by apply output_all.
Qed.

End more_multisearch.

(** * Further properties of the configuration *)

Section more_config.
Import index config.
Context {foreign : Foreign} {packages : Packages}.

Lemma pluginOf_Some c h ty v p :
  pluginOf c h ty v = Some p ↔
  ∃ a types b versions,
    supportedSegmentPlugins c = Some a ∧ pluginMaps h !! a = Some types
    ∧ types !! ty = Some b ∧ versionMaps h !! b = Some versions
    ∧ versions !! v = Some p.
Proof.
  unfold pluginOf. split.
  - intros H.
    destruct (supportedSegmentPlugins c) as [a|] eqn:Ha; [|done].
    simpl in H.
    destruct (pluginMaps h !! a) as [types|] eqn:Ht; [|done]. simpl in H.
    destruct (types !! ty) as [b|] eqn:Hb; [|done]. simpl in H.
    destruct (versionMaps h !! b) as [versions|] eqn:Hv; [|done].
    simpl in H. by exists a, types, b, versions.
  - intros (a & types & b & versions & -> & Ha & Hb & Hv & Hp). simpl.
    rewrite Ha. simpl. rewrite Hb. simpl. by rewrite Hv.
Qed.

(** The effect of [WithSegmentPlugin] on a heap in which the map of the
    configuration is allocated. *)
Lemma WithSegmentPlugin_heap c p h a types :
  heap_ok h → supportedSegmentPlugins c = Some a →
  pluginMaps h !! a = Some types →
  ∃ b versions types',
    WithSegmentPlugin c p h
    = Some (c, mkHeap (fieldMaps h) (<[a := types']> (pluginMaps h))
                 (<[b := <[Version p := p]> versions]> (versionMaps h))
                 (chans h))
    ∧ types' = <[Type_ p := b]> types
    ∧ (types !! Type_ p = Some b ∧ versionMaps h !! b = Some versions
       ∨ types !! Type_ p = None ∧ versionMaps h !! b = None
         ∧ versions = ∅).
Proof.
  intros [Halloc _] Ha Htypes. unfold WithSegmentPlugin.
  rewrite Ha, Htypes.
  destruct (types !! Type_ p) as [b|] eqn:Hb.
  - destruct (Halloc a types _ b Htypes Hb) as [versions Hv].
    rewrite Hv. exists b, versions, types.
    split; [done|]. split; [by rewrite insert_id|]. by left.
  - set (b := base.fresh _).
    assert (versionMaps h !! b = None) as Hfresh.
    { apply not_elem_of_dom. apply is_fresh. }
    rewrite lookup_insert_eq. exists b, ∅, (<[Type_ p := b]> types).
    split; [by rewrite insert_insert_eq|]. split; [done|]. by right.
Qed.

Lemma WithSegmentPlugin_effect c p h a types :
  heap_ok h → supportedSegmentPlugins c = Some a →
  pluginMaps h !! a = Some types →
  ∃ h', WithSegmentPlugin c p h = Some (c, h')
    ∧ pluginOf c h' (Type_ p) (Version p) = Some p
    ∧ (∀ c' ty v,
         ¬ (supportedSegmentPlugins c' = Some a
            ∧ ty = Type_ p ∧ v = Version p) →
         pluginOf c' h' ty v = pluginOf c' h ty v)
    ∧ fieldMaps h' = fieldMaps h
    ∧ heap_ok h'.
Proof.
  intros Hok Ha Htypes.
  destruct (WithSegmentPlugin_heap c p h a types Hok Ha Htypes)
    as (b & versions & types' & -> & -> & Hcase).
  destruct Hok as [Halloc Hinj].
  eexists. split; [done|].
  (* the inner map of another entry is not the one written to *)
  assert (∀ a' types0 ty b', pluginMaps h !! a' = Some types0 →
            types0 !! ty = Some b' → b' = b → a' = a ∧ ty = Type_ p)
    as Hother.
  { intros a' types0 ty b' Ha' Hb' ->.
    destruct Hcase as [[Hb _]|(_ & Hfresh & _)].
    - by destruct (Hinj a' a types0 types ty (Type_ p) b Ha' Hb' Htypes Hb).
    - destruct (Halloc a' types0 ty b Ha' Hb') as [? Hsome]. congruence. }
  split_and!.
  - unfold pluginOf. rewrite Ha. simpl. rewrite lookup_insert_eq. simpl.
    rewrite lookup_insert_eq. simpl. rewrite lookup_insert_eq. simpl.
    apply lookup_insert_eq.
  - intros c' ty v Hne. unfold pluginOf.
    destruct (supportedSegmentPlugins c') as [a'|] eqn:Ha'; [|done]. simpl.
    destruct (decide (a' = a)) as [->|Hna].
    + rewrite lookup_insert_eq, Htypes. simpl.
      destruct (decide (ty = Type_ p)) as [->|Hnty].
      * rewrite lookup_insert_eq. simpl. rewrite lookup_insert_eq. simpl.
        rewrite lookup_insert_ne by (intros <-; by apply Hne).
        destruct Hcase as [[Hb Hv]|(Hb & Hv & ->)]; rewrite Hb; simpl;
          [by rewrite Hv|apply lookup_empty].
      * rewrite lookup_insert_ne by done.
        destruct (types !! ty) as [b'|] eqn:Hb'; [|done]. simpl.
        rewrite lookup_insert_ne; [done|]. intros <-.
        by destruct (Hother a types ty b Htypes Hb' eq_refl).
    + rewrite lookup_insert_ne by done.
      destruct (pluginMaps h !! a') as [types0|] eqn:Htypes0; [|done]. simpl.
      destruct (types0 !! ty) as [b'|] eqn:Hb'; [|done]. simpl.
      rewrite lookup_insert_ne; [done|]. intros <-.
      by destruct (Hother a' types0 ty b Htypes0 Hb' eq_refl).
  - done.
  - split; simpl.
    + intros a' types0 ty b' Ha' Hb'.
      destruct (decide (b' = b)) as [->|Hnb];
        [by rewrite lookup_insert_eq|].
      rewrite lookup_insert_ne by done.
      destruct (decide (a' = a)) as [->|Hna].
      * rewrite lookup_insert_eq in Ha'. injection Ha' as <-.
        destruct (decide (ty = Type_ p)) as [->|Hnty].
        { rewrite lookup_insert_eq in Hb'. congruence. }
        rewrite lookup_insert_ne in Hb' by done. by eapply Halloc.
      * rewrite lookup_insert_ne in Ha' by done. by eapply Halloc.
    + assert (∀ a' types0 ty b',
                <[a := <[Type_ p := b]> types]> (pluginMaps h) !! a'
                  = Some types0 →
                types0 !! ty = Some b' →
                (a' = a ∧ ty = Type_ p ∧ b' = b)
                ∨ (b' ≠ b ∧ ∃ types1, pluginMaps h !! a' = Some types1
                                      ∧ types1 !! ty = Some b')) as Hview.
      { intros a' types0 ty b' Ha' Hb'.
        destruct (decide (a' = a)) as [->|Hna].
        - rewrite lookup_insert_eq in Ha'. injection Ha' as <-.
          destruct (decide (ty = Type_ p)) as [->|Hnty].
          + rewrite lookup_insert_eq in Hb'. left. split_and!; congruence.
          + rewrite lookup_insert_ne in Hb' by done. right.
            split; [|by exists types].
            intros ->. by destruct (Hother a types ty b Htypes Hb' eq_refl).
        - rewrite lookup_insert_ne in Ha' by done. right.
          split; [|by exists types0].
          intros ->. by destruct (Hother a' types0 ty b Ha' Hb' eq_refl). }
      intros a1 a2 t1 t2 ty1 ty2 b' H1 Hb1 H2 Hb2.
      destruct (Hview _ _ _ _ H1 Hb1) as [(-> & -> & ->)|(Hn1 & u1 & Hu1 & Hv1)];
        destruct (Hview _ _ _ _ H2 Hb2)
          as [(-> & -> & ?)|(Hn2 & u2 & Hu2 & Hv2)]; try done.
      by eapply Hinj.
Qed.


(** X16.  [WithSegmentPlugin] registers the plugin under its type and
    version in the map that the configuration refers to, which the receiver
    and every copy of it share: the receiver holds the plugin afterwards.
    The plugins registered under another type or version, and those of the
    configurations with another map, stay as they are, as do the maps of
    virtual fields.  On a configuration without a map the assignment
    panics. *)
Theorem WithSegmentPlugin_registers c p h :
  heap_ok h →
  (∀ a types,
     supportedSegmentPlugins c = Some a → pluginMaps h !! a = Some types →
     ∃ h', WithSegmentPlugin c p h = Some (c, h')
       ∧ pluginOf c h' (Type_ p) (Version p) = Some p
       ∧ (∀ c' ty v,
            ¬ (supportedSegmentPlugins c' = Some a
               ∧ ty = Type_ p ∧ v = Version p) →
            pluginOf c' h' ty v = pluginOf c' h ty v)
       ∧ fieldMaps h' = fieldMaps h
       ∧ heap_ok h')
  ∧ (supportedSegmentPlugins c = None → WithSegmentPlugin c p h = None).
Proof.
  intros Hok. split.
  - intros a types. by apply WithSegmentPlugin_effect.
  - intros Hnil. unfold WithSegmentPlugin. by rewrite Hnil.
Qed.

Lemma heap_ok_alloc h vf sp ch :
  heap_ok h → pluginMaps h !! sp = None →
  heap_ok (mkHeap (<[vf := ∅]> (fieldMaps h)) (<[sp := ∅]> (pluginMaps h))
             (versionMaps h) ({[ch]} ∪ chans h)).
Proof.
  intros [Halloc Hinj] Hsp.
  assert (∀ a types ty b,
            <[sp := ∅]> (pluginMaps h) !! a = Some types →
            types !! ty = Some b →
            pluginMaps h !! a = Some types) as Hold.
  { intros a types ty b Ha Hb. destruct (decide (a = sp)) as [->|Hne].
    - rewrite lookup_insert_eq in Ha. injection Ha as <-.
      by rewrite lookup_empty in Hb.
    - by rewrite lookup_insert_ne in Ha. }
  split; simpl.
  - intros a types ty b Ha Hb. eapply Halloc; [|done]. by eapply Hold.
  - intros a a' types types' ty ty' b Ha Hb Ha' Hb'.
    eapply Hinj; [by eapply Hold|done|by eapply Hold|done].
Qed.

(** What [defaultConfig] makes. *)
Lemma defaultConfig_effect h :
  heap_ok h →
  ∃ c h' vf sp ch,
    defaultConfig h = Some (c, h')
    ∧ heap_ok h' ∧ heap_extends h h'
    ∧ virtualFields c = Some vf ∧ fieldMaps h !! vf = None
    ∧ fieldMaps h' = <[vf := ∅]> (fieldMaps h)
    ∧ supportedSegmentPlugins c = Some sp ∧ pluginMaps h !! sp = None
    ∧ is_Some (pluginMaps h' !! sp)
    ∧ AnalysisChan c = Some ch ∧ (ch ∉ chans h) ∧ (ch ∈ chans h')
    ∧ pluginOf c h' ice_Type ice_Version
      = Some (mkPlugin ice_Type ice_Version ice_functions)
    ∧ (∀ c' ty v,
         ¬ (supportedSegmentPlugins c' = Some sp
            ∧ ty = ice_Type ∧ v = ice_Version) →
         pluginOf c' h' ty v = pluginOf c' h ty v).
Proof.
  intros Hok. unfold defaultConfig.
  set (vf := base.fresh (dom (fieldMaps h))).
  set (ch := base.fresh (chans h)).
  set (sp := base.fresh (dom (pluginMaps h))).
  assert (fieldMaps h !! vf = None) as Hvf
    by (apply not_elem_of_dom, is_fresh).
  assert (pluginMaps h !! sp = None) as Hsp
    by (apply not_elem_of_dom, is_fresh).
  assert (ch ∉ chans h) as Hch by apply is_fresh.
  set (rv := mkConfig _ _ _ _ _ _ _ _ _ _ _ _ _ _ _ _ _ _ _ _ _ _ _).
  set (h1 := mkHeap _ _ _ _).
  pose proof (heap_ok_alloc h vf sp ch Hok Hsp) as Hok1. fold h1 in Hok1.
  set (p := mkPlugin ice_Type ice_Version ice_functions).
  destruct (WithSegmentPlugin_heap rv p h1 sp ∅ Hok1 eq_refl)
    as (b & versions & types' & Hwith & -> & Hcase);
    [apply lookup_insert_eq|].
  destruct (WithSegmentPlugin_effect rv p h1 sp ∅ Hok1 eq_refl)
    as (h2 & Hwith' & Hice & Hrest & Hfields & Hok2);
    [apply lookup_insert_eq|].
  rewrite Hwith' in Hwith. injection Hwith as Hh2. rewrite Hwith'.
  destruct Hcase as [[Hb _]|(_ & Hb & _)]; [by rewrite lookup_empty in Hb|].
  simpl in Hb.
  exists rv, h2, vf, sp, ch. rewrite Hh2 in *. simpl in *.
  split_and!; try done.
  - split_and!; simpl.
    + intros a fields Ha. rewrite lookup_insert_ne; [done|]. congruence.
    + intros a types Ha. rewrite !lookup_insert_ne; [done|congruence..].
    + intros b' vs Hb'. rewrite lookup_insert_ne; [done|]. congruence.
    + set_solver.
  - by rewrite lookup_insert_eq.
  - set_solver.
  - intros c' ty v Hne. rewrite (Hrest c' ty v Hne). unfold pluginOf.
    destruct (supportedSegmentPlugins c') as [a|]; [|done]. simpl.
    subst h1. simpl. destruct (decide (a = sp)) as [->|Hna].
    + by rewrite lookup_insert_eq, Hsp.
    + by rewrite lookup_insert_ne.
Qed.

(** X17.  [defaultConfig] never panics.  The configuration that it returns
    refers to maps and to a channel that it has made anew: its map of
    virtual fields is empty, and its map of plugins holds the plugin of
    [ice], which [rv.WithSegmentPlugin] has written through the map that
    [rv] shares with the copy, and no other plugin.  The maps made before
    stay as they are.  [DefaultConfig] and [InMemoryOnlyConfig] return the
    same configuration with their directory. *)
Theorem defaultConfig_makes_fresh_maps h path :
  heap_ok h →
  ∃ c h',
    defaultConfig h = Some (c, h')
    ∧ DefaultConfig path h
      = Some (set_Directory (NewFileSystemDirectory path) c, h')
    ∧ InMemoryOnlyConfig h = Some (set_Directory NewInMemoryDirectory c, h')
    ∧ heap_ok h' ∧ heap_extends h h'
    ∧ (∃ vf, virtualFields c = Some vf ∧ fieldMaps h !! vf = None
             ∧ fieldMaps h' !! vf = Some ∅)
    ∧ (∃ sp, supportedSegmentPlugins c = Some sp ∧ pluginMaps h !! sp = None
             ∧ is_Some (pluginMaps h' !! sp))
    ∧ (∃ ch, AnalysisChan c = Some ch ∧ (ch ∉ chans h) ∧ (ch ∈ chans h'))
    ∧ ∀ ty v,
        pluginOf c h' ty v
        = if decide (ty = ice_Type ∧ v = ice_Version)
          then Some (mkPlugin ice_Type ice_Version ice_functions)
          else None.
Proof.
  intros Hok.
  destruct (defaultConfig_effect h Hok)
    as (c & h' & vf & sp & ch & Hdef & Hok' & Hext & Hvf & Hfresh & Hfields
        & Hsp & Hspfresh & Hspalloc & Hch & Hchfresh & Hchalloc & Hice
        & Hrest).
  exists c, h'. unfold DefaultConfig, InMemoryOnlyConfig. rewrite Hdef.
  split_and!; try done.
  - exists vf. by rewrite Hfields, lookup_insert_eq.
  - by exists sp.
  - by exists ch.
  - intros ty v. destruct (decide _) as [[-> ->]|Hne]; [done|].
    rewrite Hrest by (intros (_ & ? & ?); by apply Hne).
    unfold pluginOf. by rewrite Hsp; simpl; rewrite Hspfresh.
Qed.

(** X18.  Two configurations that [defaultConfig] has made share no map:
    a virtual field or a plugin that is added to the second is not held by
    the first. *)
Theorem default_configs_are_independent h c1 h1 c2 h2 f p :
  heap_ok h →
  defaultConfig h = Some (c1, h1) → defaultConfig h1 = Some (c2, h2) →
  (∃ h3, WithVirtualField c2 f h2 = Some (c2, h3)
     ∧ virtualFieldsOf c2 (fieldMaps h3) (Name f) = [f]
     ∧ ∀ name, virtualFieldsOf c1 (fieldMaps h3) name = [])
  ∧ (∃ h3, WithSegmentPlugin c2 p h2 = Some (c2, h3)
       ∧ pluginOf c2 h3 (Type_ p) (Version p) = Some p
       ∧ ∀ ty v, pluginOf c1 h3 ty v = pluginOf c1 h1 ty v).
Proof.
  intros Hok H1 H2.
  destruct (defaultConfig_effect h Hok)
    as (c1' & h1' & vf1 & sp1 & ch1 & Hdef1 & Hok1 & Hext1 & Hvf1 & Hfresh1
        & Hfields1 & Hsp1 & Hspfresh1 & Hspalloc1 & _ & _ & _ & Hice1
        & Hrest1).
  rewrite H1 in Hdef1. injection Hdef1 as <- <-.
  destruct (defaultConfig_effect h1 Hok1)
    as (c2' & h2' & vf2 & sp2 & ch2 & Hdef2 & Hok2 & Hext2 & Hvf2 & Hfresh2
        & Hfields2 & Hsp2 & Hspfresh2 & Hspalloc2 & _ & _ & _ & Hice2
        & Hrest2).
  rewrite H2 in Hdef2. injection Hdef2 as <- <-.
  assert (vf1 ≠ vf2) as Hvf.
  { intros <-. by rewrite Hfields1, lookup_insert_eq in Hfresh2. }
  assert (sp1 ≠ sp2) as Hsp.
  { intros <-. destruct Hspalloc1. congruence. }
  split.
  - unfold WithVirtualField, index.WithVirtualField.
    rewrite Hvf2, Hfields2, lookup_insert_eq. eexists. split; [done|].
    simpl. unfold virtualFieldsOf. rewrite Hvf1, Hvf2. split.
    + rewrite lookup_insert_eq. simpl. by rewrite lookup_insert_eq.
    + intros name. rewrite !lookup_insert_ne by done.
      by rewrite Hfields1, lookup_insert_eq.
  - destruct Hspalloc2 as [types Htypes].
    destruct (WithSegmentPlugin_effect c2 p h2 sp2 types Hok2 Hsp2 Htypes)
      as (h3 & Hwith & Hp & Hrest & _).
    exists h3. split_and!; try done. intros ty v.
    rewrite Hrest by (intros (? & _); congruence).
    apply Hrest2. intros (? & _). congruence.
Qed.


(** X19.  Two virtual fields added one after the other are both held
    afterwards, in the order of the calls when they have the same name; a
    name without an entry gets one.  The order of the calls does not matter
    for fields of different names.  On a configuration without a map the
    assignment panics. *)
Theorem WithVirtualField_twice (c : Config) (f g : Field) (h : store) :
  (virtualFields c = None → index.WithVirtualField c f h = None)
  ∧ (∀ a fields,
       virtualFields c = Some a → h !! a = Some fields →
       ∃ h1 h2,
         index.WithVirtualField c f h = Some (c, h1)
         ∧ index.WithVirtualField c g h1 = Some (c, h2)
         ∧ (∀ name,
              virtualFieldsOf c h2 name
              = virtualFieldsOf c h name
                ++ filter (λ x, Name x = name) [f; g])
         ∧ (Name f ≠ Name g →
            ∃ h1', index.WithVirtualField c g h = Some (c, h1')
                   ∧ index.WithVirtualField c f h1' = Some (c, h2))).
Proof.
  split.
  { intros Hnil. unfold index.WithVirtualField. by rewrite Hnil. }
  intros a fields Ha Hfields. unfold index.WithVirtualField.
  rewrite Ha, Hfields. eexists _, _. split; [done|].
  rewrite lookup_insert_eq. split; [done|]. split.
  - intros name. unfold virtualFieldsOf. rewrite Ha, Hfields.
    rewrite lookup_insert_eq. simpl.
    rewrite !filter_cons, filter_nil.
    destruct (decide (Name f = name)) as [Hf|Hf];
      destruct (decide (Name g = name)) as [Hg|Hg]; subst; simpl.
    + rewrite Hg, !lookup_insert_eq. simpl. by rewrite <- app_assoc.
    + rewrite lookup_insert_ne by done. by rewrite lookup_insert_eq.
    + rewrite lookup_insert_eq, lookup_insert_ne by done. done.
    + rewrite !lookup_insert_ne by done. by rewrite app_nil_r.
  - intros Hne. eexists. split; [done|]. rewrite lookup_insert_eq.
    rewrite !(lookup_insert_ne fields) by done.
    rewrite !insert_insert_eq. do 3 f_equal.
    by apply insert_insert_ne.
Qed.

End more_config.

(** * Examples for the further properties *)

Section more_collect_examples.
Import search collector.
#[local] Existing Instance example_ext.

Lemma no_task_waits_witness :
  let sched := sequential 2 ++ Spawn :: replicate 3 (Advance 2) in
  let r := exec (ext := example_ext) sched
             (start (ext := example_ext) (newTopNCollector 3 2 example_sort false) tt
                example_searcher) in
  let t := mkTask (mkDocumentMatch 4 [] 3 None) atSort in
  tasks r !! 2%nat = Some t ∧ is_Some (sortStep (hc r) (doc t)).
Proof.
  cbn zeta. split; [by vm_compute|].
  destruct (no_task_waits (ext := example_ext)
              (sequential 2 ++ Spawn :: replicate 3 (Advance 2))
              (newTopNCollector 3 2 example_sort false) tt example_searcher
              2%nat (mkTask (mkDocumentMatch 4 [] 3 None) atSort))
    as (_ & Hsort & _).
  - repeat split; by vm_compute.
  - by vm_compute.
  - by vm_compute.
  - by apply Hsort.
Defined.

Lemma Collect_searcher_failure_witness :
  Collect (ext := example_ext) (replicate 3 Spawn) false
    (newTopNCollector 3 2 example_sort false) tt example_broken_searcher
  = Some (None, Some (Failure "segment")).
Proof.
  exact (proj2 (Collect_searcher_failure (ext := example_ext)
                  (newTopNCollector 3 2 example_sort false) tt
                  example_broken_searcher (Failure "segment") eq_refl)).
Defined.

Lemma Collect_waits_for_all_tasks_witness :
  let c := newTopNCollector 3 2 example_sort false in
  let sched := sequential 10 in
  Collect (ext := example_ext) sched false c tt example_searcher
  = Some (Some example_page, None)
  ∧ length (tasks (exec sched (start c tt example_searcher))) = 10%nat.
Proof.
  cbn zeta. split; [by vm_compute|].
  destruct (Collect_waits_for_all_tasks (ext := example_ext)
              (sequential 10)
              (newTopNCollector 3 2 example_sort false) tt example_searcher
              (Some example_page, None)) as [Hlen _].
  - repeat split; by vm_compute.
  - by vm_compute.
  - done.
  - by vm_compute.
  - exact Hlen.
Defined.

Lemma sequential_ties_by_arrival_witness :
  let c := newTopNCollector 2 0 example_ascending false in
  let first := mkDocumentMatch 5 [["005"%byte]] 1 None in
  let second := mkDocumentMatch 21 [["005"%byte]] 2 None in
  let it := mkTopNIterator (ext := example_ext) [first; second] [5; 21] 0
              None in
  hitNumbers (ext := example_ext) (sequential 2) c tt example_ties = [1; 2]
  ∧ Collect (ext := example_ext) (sequential 2) false c tt example_ties = Some (Some it, None)
  ∧ Number <$> it_results it = [5; 21].
Proof.
  cbn zeta.
  destruct (sequential_ties_by_arrival (ext := example_ext) 2 0
              example_ascending false tt example_ties
              (mkTopNIterator (ext := example_ext)
                 [mkDocumentMatch 5 [["005"%byte]] 1 None;
                  mkDocumentMatch 21 [["005"%byte]] 2 None] [5; 21] 0 None))
    as [Hhns Hpage]; [lia|lia|by vm_compute|by vm_compute|].
  split; [exact Hhns|]. split; [by vm_compute|].
  rewrite Hpage by (by vm_compute). by vm_compute.
Defined.

Lemma store_holds_best_witness :
  let c := newTopNCollector 3 2 example_sort false in
  let r := exec (ext := example_ext) (sequential 10)
             (start (ext := example_ext) c tt example_searcher) in
  Number <$> store_entries (store (hc r)) = [10; 9; 8; 7; 6]
  ∧ ∃ ranked,
      store_entries (store (hc r)) ≡ₚ take 5 ranked
      ∧ lowestMatchOutsideResults (hc r) = ranked !! 5%nat.
Proof.
  cbn zeta. split; [by vm_compute|].
  destruct (store_holds_best (ext := example_ext) (sequential 10)
              (newTopNCollector 3 2 example_sort false) tt example_searcher)
    as (ranked & _ & _ & Hstore & _ & Hlow).
  - repeat split; by vm_compute.
  - by vm_compute.
  - exists ranked. split; [exact Hstore|exact Hlow].
Defined.

End more_collect_examples.

Section load_failure_example.
Import search collector.
#[local] Existing Instance failing_ext.

Lemma Collect_load_failure_witness :
  let c := newTopNCollector 3 2 example_sort false in
  Collect (ext := failing_ext) (sequential 10) false c tt example_searcher
  = Some (None, Some (MultiError [Failure "load"]))
  ∧ ∃ e, Some (None, Some (MultiError [Failure "load"]))
         = Some (None : option (TopNIterator (ext := failing_ext)), Some e).
Proof.
  cbn zeta. split; [by vm_compute|].
  destruct (Collect_load_failure (ext := failing_ext) (sequential 10)
              (newTopNCollector 3 2 example_sort false) tt example_searcher
              2%nat (example_match 4) (Failure "load")
              (None, Some (MultiError [Failure "load"])))
    as [e He].
  - repeat split; by vm_compute.
  - by vm_compute.
  - done.
  - by vm_compute.
  - intros n. reflexivity.
  - by vm_compute.
  - exists e. by rewrite He.
Defined.

Lemma hit_numbers_distinct_witness :
  let c := newTopNCollector 3 2 example_sort false in
  let r := exec (ext := failing_ext) (sequential 10)
             (start (ext := failing_ext) c tt example_searcher) in
  let took := taken (ext := failing_ext) (sequential 10)
                (start (ext := failing_ext) c tt example_searcher) in
  took = zip (seq 0 10) (seqZ 1 10)
  ∧ tasks r !! 2%nat
    = Some (mkTask (mkDocumentMatch 4 [] 3 (Some (Failure "load")))
              (returned (Some (Failure "load"))))
  ∧ 1 ≤ 3 ≤ hitNumber r
  ∧ ∃ t, tasks r !! 2%nat = Some t ∧ past_number (pos t) = true
         ∧ HitNumber (doc t) = 3.
Proof.
  cbn zeta. split; [by vm_compute|]. split; [by vm_compute|].
  destruct (hit_numbers_distinct (ext := failing_ext) (sequential 10)
              (newTopNCollector 3 2 example_sort false) tt example_searcher)
    as (_ & _ & _ & Htook & _).
  - repeat split; by vm_compute.
  - by vm_compute.
  - apply (Htook 2%nat 3). apply list_elem_of_lookup. exists 2%nat.
    by vm_compute.
Defined.

End load_failure_example.

Section more_config_examples.
Import index config.
#[local] Existing Instance example_foreign.
#[local] Existing Instance example_packages.

Lemma example_heap_ok : heap_ok example_heap.
Proof. split; intros a; intros; simplify_map_eq. Qed.

Lemma example_registry_heap_ok : heap_ok example_registry_heap.
Proof.
  split.
  - intros a types ty b Ha Hty. simpl in Ha.
    apply lookup_singleton_Some in Ha as [<- <-].
    apply lookup_singleton_Some in Hty as [<- <-]. by eexists.
  - intros a a' types types' ty ty' b Ha Hty Ha' Hty'. simpl in Ha, Ha'.
    apply lookup_singleton_Some in Ha as [<- <-].
    apply lookup_singleton_Some in Ha' as [<- <-].
    apply lookup_singleton_Some in Hty as [<- <-].
    by apply lookup_singleton_Some in Hty' as [<- _].
Qed.

Lemma WithSegmentPlugin_registers_witness :
  let zap := mkPlugin (foreign := example_foreign) "zap" 15 tt in
  ∃ h',
    config.WithSegmentPlugin example_registry_config zap
      example_registry_heap
    = Some (example_registry_config, h')
    ∧ pluginOf example_registry_config h' "zap" 15 = Some zap
    ∧ pluginOf example_registry_config h' "ice" 1
      = Some (mkPlugin (foreign := example_foreign) "ice" 1 tt)
    ∧ config.WithSegmentPlugin example_config zap example_registry_heap
      = None.
Proof.
  cbn zeta.
  destruct (WithSegmentPlugin_registers (foreign := example_foreign)
              example_registry_config (mkPlugin (foreign := example_foreign) "zap" 15 tt)
              example_registry_heap example_registry_heap_ok)
    as [Hreg _].
  destruct (Hreg 2%positive {[ "ice"%string := 3%positive ]} eq_refl eq_refl)
    as (h' & Hwith & Hzap & Hrest & _).
  exists h'. split; [exact Hwith|]. split; [exact Hzap|].
  split.
  - etrans; [apply Hrest|reflexivity]. intros (_ & Hty & _). discriminate Hty.
  - apply (WithSegmentPlugin_registers (foreign := example_foreign)
             example_config (mkPlugin (foreign := example_foreign) "zap" 15 tt) example_registry_heap
             example_registry_heap_ok). reflexivity.
Defined.

Lemma defaultConfig_makes_fresh_maps_witness :
  ∃ c h',
    defaultConfig example_heap = Some (c, h')
    ∧ InMemoryOnlyConfig example_heap = Some (set_Directory (foreign := example_foreign) tt c, h')
    ∧ pluginOf c h' "ice" 1 = Some (mkPlugin (foreign := example_foreign) "ice" 1 tt)
    ∧ pluginOf c h' "zap" 15 = None.
Proof.
  destruct (defaultConfig_makes_fresh_maps (foreign := example_foreign)
              example_heap "idx" example_heap_ok)
    as (c & h' & Hdef & _ & Hmem & _ & _ & _ & _ & _ & Hplugins).
  exists c, h'. split; [exact Hdef|]. split; [exact Hmem|].
  split; (etrans; [apply Hplugins|reflexivity]).
Defined.

Lemma default_configs_are_independent_witness :
  let f : Field := ("title"%string, 7) in
  let zap := mkPlugin (foreign := example_foreign) "zap" 15 tt in
  ∃ c1 h1 c2 h2 h3 h4,
    defaultConfig example_heap = Some (c1, h1)
    ∧ defaultConfig h1 = Some (c2, h2)
    ∧ config.WithVirtualField c2 f h2 = Some (c2, h3)
    ∧ virtualFieldsOf c2 (fieldMaps h3) "title" = [f]
    ∧ virtualFieldsOf c1 (fieldMaps h3) "title" = []
    ∧ config.WithSegmentPlugin c2 zap h2 = Some (c2, h4)
    ∧ pluginOf c2 h4 "zap" 15 = Some zap
    ∧ pluginOf c1 h4 "zap" 15 = pluginOf c1 h1 "zap" 15.
Proof.
  cbn zeta.
  destruct (defaultConfig_effect example_heap example_heap_ok)
    as (c1 & h1 & _ & _ & _ & Hdef1 & Hok1 & _).
  destruct (defaultConfig_effect h1 Hok1)
    as (c2 & h2 & _ & _ & _ & Hdef2 & _).
  destruct (default_configs_are_independent (foreign := example_foreign)
              example_heap c1 h1 c2 h2 ("title"%string, 7)
              (mkPlugin (foreign := example_foreign) "zap" 15 tt) example_heap_ok Hdef1 Hdef2)
    as [(h3 & Hfield & Hmine & Hother) (h4 & Hplugin & Hzap & Hrest)].
  exists c1, h1, c2, h2, h3, h4.
  split; [exact Hdef1|]. split; [exact Hdef2|]. split; [exact Hfield|].
  split; [exact Hmine|]. split; [apply Hother|]. split; [exact Hplugin|].
  split; [exact Hzap|apply Hrest].
Defined.

End more_config_examples.

Section more_multisearch_examples.
Import bluge.
#[local] Existing Instance example_ext.

Lemma MultiSearch_searcher_error_witness :
  MultiSearch (serve_all (mkCollectorConfig 3 [] example_sort)
                 example_searchers)
    (collector.sequential 7) false example_strict_request
    (rev example_readers)
  = Some (None, Some (Failure "segment")).
Proof.
  apply (MultiSearch_searcher_error (ext := example_ext) _ _ _
           example_strict_request (rev example_readers) 1%nat
           (mkCollectible (example_match <$> [3; 1; 4])
              (Some (Failure "segment")))); [reflexivity..|].
  intros [|j] r Hj Hr; [|lia]. injection Hr as <-. by eexists.
Defined.

Lemma MultiSearcherList_keeps_order_witness :
  (example_match <$> [10; 5; 9; 2])
    `sublist_of` (example_match <$> [3; 1; 4; 10; 5; 9; 2]).
Proof.
  assert (stream (exec (serve_all (mkCollectorConfig 3 [] example_sort)
                          example_searchers) example_list)
          = Some (mkCollectible
                    (example_match <$> [3; 1; 4; 10; 5; 9; 2]) None))
    as Hstream by (by vm_compute).
  exact (MultiSearcherList_keeps_order (ext := example_ext)
           example_searchers (mkCollectorConfig 3 [] example_sort)
           example_list
           (serve_all (mkCollectorConfig 3 [] example_sort)
              example_searchers)
           (mkCollectible (example_match <$> [3; 1; 4; 10; 5; 9; 2]) None)
           1%nat
           (mkSearcher
              (mkCollectible (example_match <$> [10; 5; 9; 2]) None) 0)
           eq_refl Hstream eq_refl).
Defined.

Lemma channel_closed_after_all_witness :
  let c := mkCollectorConfig 3 [] example_sort in
  let st := exec (serve_all c example_searchers) example_list in
  closed (docChan (m st)) = true
  ∧ goroutines st = [exited (Some (Failure "segment")); exited None]
  ∧ ∀ k, work k st = st.
Proof.
  cbn zeta. split; [by vm_compute|]. split; [by vm_compute|].
  destruct (channel_closed_after_all (ext := example_ext) example_searchers
              (mkCollectorConfig 3 [] example_sort) example_list
              (serve_all (mkCollectorConfig 3 [] example_sort)
                 example_searchers) eq_refl) as [Hclosed _].
  destruct Hclosed as (_ & _ & Hwork); [by vm_compute|]. exact Hwork.
Defined.

Lemma delivered_matches_loaded_witness :
  (∀ dm, dm ∈ example_match <$> [3; 1; 4; 10; 5; 9; 2] →
         ∃ s, s ∈ example_searchers ∧ dm ∈ pending (matches s))
  ∧ example_match <$> [3; 1; 4; 10; 5; 9; 2]
    ≡ₚ concat ((λ s, pending (matches s)) <$> example_searchers).
Proof.
  destruct (delivered_matches_loaded (ext := example_ext) example_searchers
              (mkCollectorConfig 3 [] example_sort) example_list
              (serve_all (mkCollectorConfig 3 [] example_sort)
                 example_searchers)
              (mkCollectible (example_match <$> [3; 1; 4; 10; 5; 9; 2]) None)
              eq_refl) as [Hin Hall]; [by vm_compute|].
  split.
  - intros dm Hdm. by destruct (Hin dm Hdm) as [Hs _].
  - by apply Hall.
Defined.

End more_multisearch_examples.
